(** * Maneuver-2026: data synchronisation, conflict resolution and relay

    A shallow embedding of
    - [src/core/lib/scoutingDataUtils.ts] (deterministic ids, payload
      fingerprints, the conflict classifier [detectConflicts]),
    - [src/core/lib/uploadHandlers/scoutingDataUploadHandler.ts],
    - [src/core/hooks/useConflictResolution.ts],
    - the Netlify signaling function (the WebRTC relay [handler]),
    - the polling interval of its client, the hook [useWebRTCSignaling],
    together with the properties of these functions.

    Conventions.  A JavaScript string is a [string]: a sequence of code
    units, here restricted to the range 0..255.  A JavaScript number that
    the code uses as an integer (team numbers, millisecond timestamps,
    counters) is a [Z].  An optional property is an [option].  What
    belongs to the JavaScript engine and not to the repository is a
    parameter, given as a type class: [localeCompare], the result of
    [Number.parseInt] and what the built-in prototypes hold. *)

From Stdlib Require Import ZArith String Ascii List Lia DecimalString.
From Stdlib Require DecimalZ.
From stdpp Require Import gmap strings list fin_maps sorting.

#[local] Set Warnings "-register-all,-clear-no-such-hyp".
#[local] Open Scope string_scope.
#[local] Open Scope list_scope.
#[local] Open Scope Z_scope.

(* ===================================================================== *)
(** * JavaScript primitives used by the sources *)
(* ===================================================================== *)

Module JS.

(** [ToInt32] and [ToUint32] of ECMAScript, on integers. *)
Definition toUint32 (z : Z) : Z := z mod 2 ^ 32.
Definition toInt32 (z : Z) : Z := (z + 2 ^ 31) mod 2 ^ 32 - 2 ^ 31.

(** [a ^ b] on numbers: both operands go through [ToInt32]. *)
Definition bitXor (a b : Z) : Z := Z.lxor (toInt32 a) (toInt32 b).

(** [Math.imul(a, b)]: the low 32 bits of the product, signed. *)
Definition imul (a b : Z) : Z := toInt32 (toUint32 a * toUint32 b).

(** [s.charCodeAt(i)] for every [i], in order. *)
Definition charCodes (s : string) : list Z :=
  map (fun c => Z.of_nat (nat_of_ascii c)) (list_ascii_of_string s).

(** [String(n)] for an integer [n]. *)
Definition stringOfInt (n : Z) : string := NilZero.string_of_int (Z.to_int n).

(** Digits of [Number.prototype.toString(36)]. *)
Definition digit36 (d : Z) : ascii :=
  if d <? 10 then ascii_of_nat (Z.to_nat (48 + d))
  else ascii_of_nat (Z.to_nat (97 + (d - 10))).

Fixpoint toString36_go (fuel : nat) (n : Z) (acc : string) : string :=
  match fuel with
  | O => acc
  | S fuel' =>
      let acc' := String (digit36 (n mod 36)) acc in
      if n / 36 =? 0 then acc' else toString36_go fuel' (n / 36) acc'
  end.

(** [n.toString(36)] for [0 <= n < 2^32]: seven digits are enough
    since [2^32 < 36^7]. *)
Definition toString36 (n : Z) : string := toString36_go 7 n EmptyString.

(** Truthiness of the values that the sources test with [!x], [x || y]. *)
Definition truthyStr (s : option string) : bool :=
  match s with
  | Some s => negb (String.eqb s EmptyString)
  | None => false
  end.

Definition truthyNum (n : option Z) : bool :=
  match n with
  | Some n => negb (n =? 0)
  | None => false
  end.

Definition truthyBool (b : option bool) : bool :=
  match b with
  | Some b => b
  | None => false
  end.

(** [s.toLowerCase()] on code units 0..255. *)
Definition lowerChar (c : ascii) : ascii :=
  let n := nat_of_ascii c in
  if ((65 <=? n) && (n <=? 90))%nat then ascii_of_nat (n + 32)
  else if ((192 <=? n) && (n <=? 222) && negb (n =? 215))%nat
       then ascii_of_nat (n + 32)
       else c.

Fixpoint toLowerCase (s : string) : string :=
  match s with
  | EmptyString => EmptyString
  | String c r => String (lowerChar c) (toLowerCase r)
  end.

(** White space and line terminators of [String.prototype.trim]
    among the code units 0..255. *)
Definition isSpace (c : ascii) : bool :=
  let n := nat_of_ascii c in
  (((9 <=? n) && (n <=? 13)) || (n =? 32) || (n =? 160))%nat.

Fixpoint trimStart (s : string) : string :=
  match s with
  | EmptyString => EmptyString
  | String c r => if isSpace c then trimStart r else s
  end.

Definition strRev (s : string) : string :=
  string_of_list_ascii (rev (list_ascii_of_string s)).

Definition trim (s : string) : string :=
  strRev (trimStart (strRev (trimStart s))).

(** [parts.join(sep)]. *)
Fixpoint join (sep : string) (parts : list string) : string :=
  match parts with
  | [] => EmptyString
  | [p] => p
  | p :: rest => p +:+ sep +:+ join sep rest
  end.

(** [Array.prototype.sort(cmp)]: the sort is stable, so for a
    consistent comparator its result is that of a stable insertion
    sort.  [cmp a b < 0] means that [a] comes first. *)
Section Sort.
Context {A : Type} (cmp : A -> A -> Z).

Fixpoint sortInsert (x : A) (sorted : list A) : list A :=
  match sorted with
  | [] => [x]
  | y :: rest =>
      if cmp x y <? 0 then x :: y :: rest else y :: sortInsert x rest
  end.

Definition sort (l : list A) : list A :=
  fold_left (fun acc x => sortInsert x acc) l [].
End Sort.

End JS.

(* ===================================================================== *)
(** * JSON values and [JSON.stringify] *)
(* ===================================================================== *)

(** The values of a record's [gameData].  An object is the list of its
    own properties in enumeration order, each key once; numbers are
    integers. *)
Inductive json : Type :=
| JNull
| JBool (b : bool)
| JNum (n : Z)
| JStr (s : string)
| JArr (items : list json)
| JObj (props : list (string * json)).

Module Json.

Definition hexDigit (n : nat) : ascii :=
  if (n <? 10)%nat then ascii_of_nat (48 + n) else ascii_of_nat (97 + (n - 10)).

(** One code unit inside a quoted JSON string. *)
Definition escapeChar (c : ascii) : string :=
  let n := nat_of_ascii c in
  if (n =? 34)%nat then String "\" (String c EmptyString)
  else if (n =? 92)%nat then "\\"
  else if (n =? 8)%nat then "\b"
  else if (n =? 12)%nat then "\f"
  else if (n =? 10)%nat then "\n"
  else if (n =? 13)%nat then "\r"
  else if (n =? 9)%nat then "\t"
  else if (n <? 32)%nat
       then "\u00" +:+ String (hexDigit (n / 16)) (String (hexDigit (n mod 16)) EmptyString)
       else String c EmptyString.

Fixpoint escape (s : string) : string :=
  match s with
  | EmptyString => EmptyString
  | String c r => escapeChar c +:+ escape r
  end.

Definition dquote : string := String (ascii_of_nat 34) EmptyString.

Definition quote (s : string) : string := dquote +:+ escape s +:+ dquote.

(** [JSON.stringify(value)]. *)
Fixpoint stringify (value : json) : string :=
  match value with
  | JNull => "null"
  | JBool true => "true"
  | JBool false => "false"
  | JNum n => JS.stringOfInt n
  | JStr s => quote s
  | JArr items => "[" +:+ JS.join "," (map stringify items) +:+ "]"
  | JObj props =>
      "{" +:+ JS.join ","
               (map (fun kv => quote (fst kv) +:+ ":" +:+ stringify (snd kv)) props)
          +:+ "}"
  end.

End Json.

(* ===================================================================== *)
(** * Records, identity and fingerprints (scoutingDataUtils.ts) *)
(* ===================================================================== *)

(** [ScoutingEntryBase], with the fields that the synchronisation code
    reads.  [timestamp], [isCorrected], [lastCorrectedAt] and [gameData]
    may be missing from an imported record, which is parsed JSON that
    nothing validates: the code itself provides for a missing
    [timestamp] with [|| 0]. *)
Record ScoutingEntryBase : Type := {
  id : string;
  eventKey : string;
  matchKey : string;
  matchNumber : Z;
  teamNumber : Z;
  allianceColor : string;
  scoutName : string;
  timestamp : option Z;
  isCorrected : option bool;
  lastCorrectedAt : option Z;
  gameData : option (list (string * json))
}.

(** [String.prototype.localeCompare] belongs to the JavaScript engine
    and its locale data, not to the repository: the development is
    parameterised by it. *)
Class Collator : Type := { localeCompare : string -> string -> Z }.

(** The Dexie table [db.scoutingData], an external collaborator, with
    the operations that the sources call. *)
Class Table (T : Type) : Type := {
  toArray : T -> list ScoutingEntryBase;
  put : ScoutingEntryBase -> T -> T;
  delete : string -> T -> T;
  bulkPut : list ScoutingEntryBase -> T -> T;
  count : T -> Z
}.

(** [new Map(pairs)]: a later pair replaces an earlier one. *)
Definition mapOfPairs {V : Type} (pairs : list (string * V)) : gmap string V :=
  fold_left (fun m kv => <[fst kv := snd kv]> m) pairs ∅.

Definition normalizeEventKey (eventKey : string) : string :=
  JS.trim (JS.toLowerCase eventKey).

Definition generateDeterministicEntryId
    (eventKey matchKey : string) (teamNumber : Z) (allianceColor : string) : string :=
  let event := normalizeEventKey eventKey in
  let match_ := JS.trim (JS.toLowerCase matchKey) in
  let team := JS.trim (JS.stringOfInt teamNumber) in
  let alliance := JS.trim (JS.toLowerCase allianceColor) in
  event +:+ "::" +:+ match_ +:+ "::" +:+ team +:+ "::" +:+ alliance.

(** [entry.gameData || {}]. *)
Definition gameDataOrEmpty (entry : ScoutingEntryBase) : list (string * json) :=
  match gameData entry with
  | Some data => data
  | None => []
  end.

(** The loop of [generateDataFingerprint]:
    [hash ^= charCode; hash = Math.imul(hash, 16777619)]. *)
Definition fnvHash (dataString : string) : Z :=
  fold_left (fun hash code => JS.imul (JS.bitXor hash code) 16777619)
            (JS.charCodes dataString) 2166136261.

Section Fingerprint.
Context {collator : Collator}.

Definition sortedEntries (entry : ScoutingEntryBase) : list (string * json) :=
  JS.sort (fun a b => localeCompare (fst a) (fst b)) (gameDataOrEmpty entry).

Definition dataString (entry : ScoutingEntryBase) : string :=
  JS.join "|"
    (map (fun kv => fst kv +:+ ":" +:+ Json.stringify (snd kv)) (sortedEntries entry)).

(** [(hash >>> 0).toString(36)]. *)
Definition generateDataFingerprint (entry : ScoutingEntryBase) : string :=
  JS.toString36 (JS.toUint32 (fnvHash (dataString entry))).
End Fingerprint.

(* ===================================================================== *)
(** * Changed fields *)
(* ===================================================================== *)

(** What a property read [obj[key]] answers: [undefined], a JSON value,
    or a value that is no JSON data, such as the function
    [Object.prototype.toString] that every plain object inherits.  Of
    such a value the code uses two things only: that it is neither
    [null] nor [undefined], and [text], what [JSON.stringify] makes of
    it, [None] standing for [undefined]. *)
Inductive PropertyValue : Type :=
| Undefined
| Data (value : json)
| Foreign (text : option string).

Record ChangedField : Type := {
  field : string;
  localValue : PropertyValue;
  incomingValue : PropertyValue
}.

(** The prototype of an object that was created by [{}]:
    [Object.prototype], or what an assignment to ["__proto__"] has put
    in its place, [null] or an array or object of the payload. *)
Inductive Prototype : Type :=
| ObjectPrototype
| NullPrototype
| PayloadPrototype (value : json).

(** An object created by [{}]: its own properties in enumeration order,
    and its prototype. *)
Record JSObject : Type := {
  own : list (string * json);
  prototype : Prototype
}.

(** [{}]. *)
Definition emptyObject : JSObject := {| own := []; prototype := ObjectPrototype |}.

(** What the prototype chain holds belongs to the JavaScript engine and
    to the scripts of the page: [inherited p key] is what a read of
    [key] answers on an object without own property [key] whose
    prototype is [p], for [p] other than [null]. *)
Class Engine : Type := { inherited : Prototype -> string -> PropertyValue }.

(** The number that a string of decimal digits denotes. *)
Fixpoint digitsValue (digits : string) (value : Z) : option Z :=
  match digits with
  | EmptyString => Some value
  | String c rest =>
      let code := Z.of_nat (nat_of_ascii c) in
      if (48 <=? code) && (code <=? 57) then digitsValue rest (value * 10 + (code - 48))
      else None
  end.

(** An array index of ECMAScript: a key that is [String(n)] for an
    integer [0 <= n < 2^32 - 1]. *)
Definition arrayIndex (key : string) : option Z :=
  match key with
  | EmptyString => None
  | _ =>
      match digitsValue key 0 with
      | Some n =>
          if (n <=? 4294967294) && String.eqb (JS.stringOfInt n) key then Some n else None
      | None => None
      end
  end.

(** Whether a new property [key] is enumerated before the property [k]
    whatever the order of insertion: array indices come first, in
    ascending order. *)
Definition enumeratedBefore (key k : string) : bool :=
  match arrayIndex key, arrayIndex k with
  | Some i, Some j => i <? j
  | Some _, None => true
  | None, _ => false
  end.

(** The own property [key] of an object, [None] if it has none. *)
Fixpoint ownGet (props : list (string * json)) (key : string) : option json :=
  match props with
  | [] => None
  | (k, v) :: rest => if String.eqb k key then Some v else ownGet rest key
  end.

(** Writing the own property [key]: an existing property keeps its
    place, a new one goes where the enumeration order puts it. *)
Fixpoint ownSet (props : list (string * json)) (key : string) (value : json)
  : list (string * json) :=
  match props with
  | [] => [(key, value)]
  | (k, v) :: rest =>
      if String.eqb k key then (k, value) :: rest
      else if enumeratedBefore key k && negb (existsb (fun kv => String.eqb (fst kv) key) rest)
           then (key, value) :: (k, v) :: rest
           else (k, v) :: ownSet rest key value
  end.

(** Whether an assignment to ["__proto__"] on an object with this
    prototype reaches the accessor [__proto__] of [Object.prototype]:
    not when the chain is empty, nor when an object of the payload
    that stands in the chain has an own property of that name, which
    [JSON.parse] creates as an ordinary one. *)
Definition reachesProtoSetter (p : Prototype) : bool :=
  match p with
  | ObjectPrototype => true
  | NullPrototype => false
  | PayloadPrototype (JObj props) =>
      negb (existsb (fun kv => String.eqb (fst kv) "__proto__") props)
  | PayloadPrototype _ => true
  end.

(** [obj[key] = value].  An assignment to ["__proto__"] that reaches
    the accessor creates no property: it replaces the prototype when
    [value] is [null], an array or an object, and does nothing
    otherwise. *)
Definition objSet (obj : JSObject) (key : string) (value : json) : JSObject :=
  if String.eqb key "__proto__"
     && negb (existsb (fun kv => String.eqb (fst kv) key) (own obj))
     && reachesProtoSetter (prototype obj)
  then
    match value with
    | JNull => {| own := own obj; prototype := NullPrototype |}
    | JArr _ | JObj _ => {| own := own obj; prototype := PayloadPrototype value |}
    | _ => obj
    end
  else {| own := ownSet (own obj) key value; prototype := prototype obj |}.

Section PropertyReads.
Context {engine : Engine}.

(** [obj[key]]: the own property, or else what the prototype chain
    answers. *)
Definition objGet (obj : JSObject) (key : string) : PropertyValue :=
  match ownGet (own obj) key with
  | Some v => Data v
  | None =>
      match prototype obj with
      | NullPrototype => Undefined
      | p => inherited p key
      end
  end.
End PropertyReads.

(** [Object.assign(target, source)]: the own properties of [source],
    assigned in their order. *)
Definition objAssign (target source : JSObject) : JSObject :=
  fold_left (fun t kv => objSet t (fst kv) (snd kv)) (own source) target.

(** [prefix ? `${prefix}.${key}` : key]. *)
Definition fullKeyOf (prefix key : string) : string :=
  if String.eqb prefix EmptyString then key else prefix +:+ "." +:+ key.

(** The body of the loop of [flattenObject] for one property whose full
    key is [fullKey], on the object [flattened] built so far: a nested
    plain object is flattened recursively and assigned, any other
    value is stored as it is. *)
Fixpoint flattenValue (fullKey : string) (value : json) (flattened : JSObject)
  : JSObject :=
  match value with
  | JObj props =>
      objAssign flattened
        ((fix entries (props : list (string * json)) (nested : JSObject) :=
            match props with
            | [] => nested
            | (key, v) :: rest =>
                entries rest (flattenValue (fullKeyOf fullKey key) v nested)
            end) props emptyObject)
  | _ => objSet flattened fullKey value
  end.

Definition flattenObject (obj : list (string * json)) (prefix : string) : JSObject :=
  fold_left (fun flattened kv =>
               flattenValue (fullKeyOf prefix (fst kv)) (snd kv) flattened)
            obj emptyObject.

(** [new Set([...a, ...b])] in insertion order. *)
Definition setOfKeys (keys : list string) : list string :=
  fold_left (fun seen k => if existsb (String.eqb k) seen then seen else seen ++ [k])
            keys [].

(** [v === null || v === undefined]. *)
Definition isNullish (v : PropertyValue) : bool :=
  match v with
  | Undefined | Data JNull => true
  | _ => false
  end.

(** [JSON.stringify(v)], [None] for [undefined]. *)
Definition stringifyValue (v : PropertyValue) : option string :=
  match v with
  | Undefined => None
  | Data value => Some (Json.stringify value)
  | Foreign text => text
  end.

(** [a !== b] on the results of [JSON.stringify]. *)
Definition textsDiffer (a b : option string) : bool :=
  match a, b with
  | Some x, Some y => negb (String.eqb x y)
  | None, None => false
  | _, _ => true
  end.

Section ChangedFieldsOf.
Context {engine : Engine}.

Definition computeChangedFields (localEntry incomingEntry : ScoutingEntryBase)
  : list ChangedField :=
  let localData := gameDataOrEmpty localEntry in
  let incomingData := gameDataOrEmpty incomingEntry in
  let flattenedLocal := flattenObject localData EmptyString in
  let flattenedIncoming := flattenObject incomingData EmptyString in
  let allFields :=
    setOfKeys (map fst (own flattenedLocal) ++ map fst (own flattenedIncoming)) in
  fold_left
    (fun changes field =>
       let localValue := objGet flattenedLocal field in
       let incomingValue := objGet flattenedIncoming field in
       if isNullish incomingValue then changes
       else if isNullish localValue then changes
       else if textsDiffer (stringifyValue localValue) (stringifyValue incomingValue)
            then changes ++ [ {| field := field; localValue := localValue;
                                 incomingValue := incomingValue |} ]
            else changes)
    allFields [].
End ChangedFieldsOf.

(* ===================================================================== *)
(** * The conflict classifier [detectConflicts] *)
(* ===================================================================== *)

Inductive ConflictType : Type :=
| CorrectedVsUncorrected
| CorrectedVsCorrected.

Record ConflictInfo : Type := {
  incoming : ScoutingEntryBase;
  local : ScoutingEntryBase;
  conflictType : ConflictType;
  isNewerIncoming : bool;
  changedFields : list ChangedField
}.

Record ConflictDetectionResult : Type := {
  autoImport : list ScoutingEntryBase;
  autoReplace : list ScoutingEntryBase;
  batchReview : list ScoutingEntryBase;
  conflicts : list ConflictInfo
}.

(** [a || b] on numbers, where [a] may be [undefined]. *)
Definition orNum (a : option Z) (b : Z) : Z :=
  match a with
  | Some v => if v =? 0 then b else v
  | None => b
  end.

(** [a || b] on numbers, where both may be [undefined] ([None]). *)
Definition orUndefined (a b : option Z) : option Z :=
  match a with
  | Some v => if v =? 0 then b else Some v
  | None => b
  end.

(** [Number(e.lastCorrectedAt || e.timestamp || 0)], the time that the
    already-synced check computes for both records. *)
Definition correctionTime (e : ScoutingEntryBase) : Z :=
  orNum (orUndefined (lastCorrectedAt e) (timestamp e)) 0.

(** [e.lastCorrectedAt || e.timestamp], as the last branch of the loop
    computes the local time: without [|| 0] and without [Number], so
    that it is [undefined] for a record that has neither. *)
Definition correctionTimeRaw (e : ScoutingEntryBase) : option Z :=
  orUndefined (lastCorrectedAt e) (timestamp e).

(** [Math.abs(a - b) <= bound], where [a] may be [undefined]: the
    difference is then [NaN], and no comparison with [NaN] holds. *)
Definition absDiffAtMost (a : option Z) (b bound : Z) : bool :=
  match a with
  | Some v => Z.abs (v - b) <=? bound
  | None => false
  end.

(** [b > a], where [a] may be [undefined]: [undefined] converts to
    [NaN], and the comparison is false. *)
Definition greaterThan (b : Z) (a : option Z) : bool :=
  match a with
  | Some v => b >? v
  | None => false
  end.

Definition deterministicIdOf (e : ScoutingEntryBase) : string :=
  generateDeterministicEntryId (eventKey e) (matchKey e) (teamNumber e) (allianceColor e).

Definition pushImport (acc : ConflictDetectionResult) (e : ScoutingEntryBase) :=
  {| autoImport := autoImport acc ++ [e]; autoReplace := autoReplace acc;
     batchReview := batchReview acc; conflicts := conflicts acc |}.

Definition pushReplace (acc : ConflictDetectionResult) (e : ScoutingEntryBase) :=
  {| autoImport := autoImport acc; autoReplace := autoReplace acc ++ [e];
     batchReview := batchReview acc; conflicts := conflicts acc |}.

Definition pushBatch (acc : ConflictDetectionResult) (e : ScoutingEntryBase) :=
  {| autoImport := autoImport acc; autoReplace := autoReplace acc;
     batchReview := batchReview acc ++ [e]; conflicts := conflicts acc |}.

Definition pushConflict (acc : ConflictDetectionResult) (c : ConflictInfo) :=
  {| autoImport := autoImport acc; autoReplace := autoReplace acc;
     batchReview := batchReview acc; conflicts := conflicts acc ++ [c] |}.

Definition emptyResult : ConflictDetectionResult :=
  {| autoImport := []; autoReplace := []; batchReview := []; conflicts := [] |}.

Section Classifier.
Context {collator : Collator} {engine : Engine}.

(** The two lookups at the head of the loop body. *)
Definition findMatchingLocal
    (localEntriesById localEntriesByFields : gmap string ScoutingEntryBase)
    (incomingEntry : ScoutingEntryBase) : option ScoutingEntryBase :=
  match localEntriesById !! id incomingEntry with
  | Some l => Some l
  | None => localEntriesByFields !! deterministicIdOf incomingEntry
  end.

(** The loop body after a local record has been found. *)
Definition classifyMatched (acc : ConflictDetectionResult)
    (matchingLocal incomingEntry : ScoutingEntryBase) : ConflictDetectionResult :=
  let localIsCorrected := JS.truthyBool (isCorrected matchingLocal) in
  let incomingIsCorrected := JS.truthyBool (isCorrected incomingEntry) in
  let localFingerprint := generateDataFingerprint matchingLocal in
  let incomingFingerprint := generateDataFingerprint incomingEntry in
  let alreadySynced :=
    if localIsCorrected && incomingIsCorrected then
      let localCorrectionTime := correctionTime matchingLocal in
      let incomingCorrectionTime := correctionTime incomingEntry in
      String.eqb localFingerprint incomingFingerprint
      && (Z.abs (localCorrectionTime - incomingCorrectionTime) <=? 1000)
    else
      String.eqb localFingerprint incomingFingerprint
      && Bool.eqb localIsCorrected incomingIsCorrected in
  if alreadySynced then acc
  else if negb localIsCorrected && negb incomingIsCorrected then
    pushBatch acc incomingEntry
  else if negb localIsCorrected && incomingIsCorrected then
    pushReplace acc incomingEntry
  else if localIsCorrected && negb incomingIsCorrected then
    pushConflict acc
      {| incoming := incomingEntry; local := matchingLocal;
         conflictType := CorrectedVsUncorrected; isNewerIncoming := false;
         changedFields := computeChangedFields matchingLocal incomingEntry |}
  else if localIsCorrected && incomingIsCorrected then
    let localCorrectionTime := correctionTimeRaw matchingLocal in
    let incomingCorrectionTime := correctionTime incomingEntry in
    if absDiffAtMost localCorrectionTime incomingCorrectionTime 1000 then
      pushReplace acc incomingEntry
    else
      pushConflict acc
        {| incoming := incomingEntry; local := matchingLocal;
           conflictType := CorrectedVsCorrected;
           isNewerIncoming := greaterThan incomingCorrectionTime localCorrectionTime;
           changedFields := computeChangedFields matchingLocal incomingEntry |}
  else acc.

Definition classifyEntry
    (localEntriesById localEntriesByFields : gmap string ScoutingEntryBase)
    (acc : ConflictDetectionResult) (incomingEntry : ScoutingEntryBase)
  : ConflictDetectionResult :=
  match findMatchingLocal localEntriesById localEntriesByFields incomingEntry with
  | None => pushImport acc incomingEntry
  | Some matchingLocal => classifyMatched acc matchingLocal incomingEntry
  end.

Definition localEntriesById (allLocalEntries : list ScoutingEntryBase)
  : gmap string ScoutingEntryBase :=
  mapOfPairs (map (fun entry => (id entry, entry)) allLocalEntries).

Definition localEntriesByFields (allLocalEntries : list ScoutingEntryBase)
  : gmap string ScoutingEntryBase :=
  mapOfPairs (map (fun entry => (deterministicIdOf entry, entry)) allLocalEntries).

(** The local record that the classifier pairs with an incoming one. *)
Definition matchingLocalOf (allLocalEntries : list ScoutingEntryBase)
    (incomingEntry : ScoutingEntryBase) : option ScoutingEntryBase :=
  findMatchingLocal (localEntriesById allLocalEntries)
                    (localEntriesByFields allLocalEntries) incomingEntry.

Definition detectConflicts {T : Type} {table : Table T} (db : T) (incomingData : list ScoutingEntryBase)
  : ConflictDetectionResult :=
  let allLocalEntries := toArray db in
  fold_left (classifyEntry (localEntriesById allLocalEntries)
                           (localEntriesByFields allLocalEntries))
            incomingData emptyResult.
End Classifier.

(* ===================================================================== *)
(** * The upload handler (scoutingDataUploadHandler.ts) *)
(* ===================================================================== *)

Inductive UploadMode : Type := Append | Overwrite | SmartMerge.

(** What [handleScoutingDataUpload] inspects of its [unknown] argument:
    whether it is a non-null object, whether ["entries" in jsonData]
    holds, and whether that property is an array. *)
Inductive EntriesProperty : Type :=
| EntriesMissing
| EntriesNotArray
| EntriesArray (entries : list ScoutingEntryBase).

Inductive JsonData : Type :=
| NotAnObject
| AnObject (entries : EntriesProperty).

Inductive Toast : Type :=
| ToastError (message : string)
| ToastSuccess (message : string).

Record AutoProcessed : Type := { added : Z; replaced : Z }.

Record UploadResult : Type := {
  hasConflicts : bool;
  hasBatchReview : option bool;
  batchReviewEntries : option (list ScoutingEntryBase);
  uploadConflicts : option (list ConflictInfo);
  autoProcessed : option AutoProcessed
}.

Definition plainResult (hasConflicts : bool) : UploadResult :=
  {| hasConflicts := hasConflicts; hasBatchReview := None; batchReviewEntries := None;
     uploadConflicts := None; autoProcessed := None |}.

Definition lengthZ {A : Type} (l : list A) : Z := Z.of_nat (length l).

(** The four-field comparison that the apply paths use to find the
    local counterpart of an incoming record. *)
Definition sameMatchTeamAllianceEvent (entry e : ScoutingEntryBase) : bool :=
  (matchNumber e =? matchNumber entry)
  && (teamNumber e =? teamNumber entry)
  && String.eqb (allianceColor e) (allianceColor entry)
  && String.eqb (eventKey e) (eventKey entry).

Section Upload.
Context {collator : Collator} {engine : Engine} {T : Type} {table : Table T}.

(** One iteration of the auto-replace loop. *)
Definition autoReplaceOne (db : T) (entry : ScoutingEntryBase) : T :=
  let existingEntries := toArray db in
  let existing := List.find (sameMatchTeamAllianceEvent entry) existingEntries in
  let db := match existing with
            | Some e => delete (id e) db
            | None => db
            end in
  put entry db.

(** The result is the returned value, the table afterwards and the
    toasts shown, in order. *)
Definition handleScoutingDataUpload (jsonData : JsonData) (mode : UploadMode) (db : T)
  : UploadResult * T * list Toast :=
  match jsonData with
  | AnObject (EntriesArray newEntries) =>
      if lengthZ newEntries =? 0 then
        (plainResult false, db, [ToastError "No valid scouting data found"])
      else
        match mode with
        | Overwrite =>
            let db := bulkPut newEntries db in
            (plainResult false, db,
             [ToastSuccess ("Overwritten with " +:+ JS.stringOfInt (lengthZ newEntries)
                            +:+ " scouting entries")])
        | Append =>
            let existingScoutingData := toArray db in
            let combined := existingScoutingData ++ newEntries in
            let db := bulkPut combined db in
            (plainResult false, db,
             [ToastSuccess ("Uploaded " +:+ JS.stringOfInt (lengthZ newEntries)
                            +:+ " entries (" +:+ JS.stringOfInt (lengthZ existingScoutingData)
                            +:+ " existing). Total: " +:+ JS.stringOfInt (lengthZ combined)
                            +:+ " before deduplication.")])
        | SmartMerge =>
            let conflictResult := detectConflicts db newEntries in
            let db :=
              if lengthZ (autoImport conflictResult) >? 0
              then bulkPut (autoImport conflictResult) db else db in
            let added :=
              if lengthZ (autoImport conflictResult) >? 0
              then lengthZ (autoImport conflictResult) else 0 in
            let db :=
              if lengthZ (autoReplace conflictResult) >? 0
              then fold_left autoReplaceOne (autoReplace conflictResult) db else db in
            let replaced :=
              if lengthZ (autoReplace conflictResult) >? 0
              then lengthZ (autoReplace conflictResult) else 0 in
            let results := {| added := added; replaced := replaced |} in
            if (lengthZ (conflicts conflictResult) >? 0)
               || (lengthZ (batchReview conflictResult) >? 0) then
              let toasts :=
                if (added >? 0) || (replaced >? 0) then
                  let batchMessage :=
                    if lengthZ (batchReview conflictResult) >? 0
                    then " " +:+ JS.stringOfInt (lengthZ (batchReview conflictResult))
                         +:+ " duplicates need review."
                    else EmptyString in
                  let conflictMessage :=
                    if lengthZ (conflicts conflictResult) >? 0
                    then " " +:+ JS.stringOfInt (lengthZ (conflicts conflictResult))
                         +:+ " conflicts need review."
                    else EmptyString in
                  [ToastSuccess ("Imported " +:+ JS.stringOfInt added +:+ " new entries, "
                                 +:+ "Replaced " +:+ JS.stringOfInt replaced
                                 +:+ " existing entries." +:+ batchMessage
                                 +:+ conflictMessage)]
                else [] in
              if lengthZ (batchReview conflictResult) >? 0 then
                ({| hasConflicts := false; hasBatchReview := Some true;
                    batchReviewEntries := Some (batchReview conflictResult);
                    uploadConflicts :=
                      if lengthZ (conflicts conflictResult) >? 0
                      then Some (conflicts conflictResult) else None;
                    autoProcessed := Some results |}, db, toasts)
              else
                ({| hasConflicts := true; hasBatchReview := None;
                    batchReviewEntries := None;
                    uploadConflicts := Some (conflicts conflictResult);
                    autoProcessed := Some results |}, db, toasts)
            else
              let totalExisting := count db in
              ({| hasConflicts := false; hasBatchReview := None;
                  batchReviewEntries := None; uploadConflicts := None;
                  autoProcessed := Some results |}, db,
               [ToastSuccess ("Smart merge complete! " +:+ JS.stringOfInt added
                              +:+ " new entries added, " +:+ JS.stringOfInt replaced
                              +:+ " entries replaced (Total: "
                              +:+ JS.stringOfInt totalExisting +:+ ")")])
        end
  | _ =>
      (plainResult false, db,
       [ToastError "Invalid scouting data format. Expected { entries: ScoutingEntryBase[] }"])
  end.
End Upload.

(* ===================================================================== *)
(** * The resolution workflow (useConflictResolution.ts) *)
(* ===================================================================== *)

Inductive Action : Type := Replace | Skip.

Record HistoryEntry : Type := { index : nat; action : Action }.

(** The React state of the hook. *)
Record HookState : Type := {
  showConflictDialog : bool;
  currentConflicts : list ConflictInfo;
  currentConflictIndex : nat;
  conflictResolutions : gmap string Action;
  resolutionHistory : list HistoryEntry;
  isProcessing : bool
}.

Definition getConflictKey (conflict : ConflictInfo) : string :=
  JS.stringOfInt (matchNumber (local conflict)) +:+ "-"
  +:+ JS.stringOfInt (teamNumber (local conflict)) +:+ "-"
  +:+ eventKey (local conflict).

(** The state that the five [set...] calls at the end of an apply
    leave behind. *)
Definition resetState (s : HookState) : HookState :=
  {| showConflictDialog := false; currentConflicts := []; currentConflictIndex := 0%nat;
     conflictResolutions := ∅; resolutionHistory := []; isProcessing := isProcessing s |}.

(** A review session over [cs]: the initial state of the hook with the
    conflicts loaded and the dialog open. *)
Definition startSession (cs : list ConflictInfo) : HookState :=
  {| showConflictDialog := true; currentConflicts := cs; currentConflictIndex := 0%nat;
     conflictResolutions := ∅; resolutionHistory := []; isProcessing := false |}.

Section Workflow.
Context {T : Type} {table : Table T}.

Definition applyConflictResolutions (resolutionsMap : option (gmap string Action))
    (s : HookState) (db : T) : HookState * T * list Toast :=
  let resolutions := match resolutionsMap with
                     | Some m => m
                     | None => conflictResolutions s
                     end in
  let '(db, replaced, kept) :=
    fold_left
      (fun '(db, replaced, kept) conflict =>
         match resolutions !! getConflictKey conflict with
         | Some Replace =>
             (put (incoming conflict) (delete (id (local conflict)) db), replaced + 1, kept)
         | Some Skip => (db, replaced, kept + 1)
         | None => (db, replaced, kept)
         end)
      (currentConflicts s) (db, 0, 0) in
  (resetState s, db,
   [ToastSuccess ("Conflict resolution complete! " +:+ JS.stringOfInt replaced
                  +:+ " entries replaced, " +:+ JS.stringOfInt kept
                  +:+ " entries kept.")]).

Definition handleConflictResolution (action : Action) (s : HookState) (db : T)
  : HookState * T * list Toast :=
  match currentConflicts s !! currentConflictIndex s with
  | None => (s, db, [])
  | Some currentConflict =>
      let conflictKey := getConflictKey currentConflict in
      let updatedResolutions := <[conflictKey := action]> (conflictResolutions s) in
      let s :=
        {| showConflictDialog := showConflictDialog s;
           currentConflicts := currentConflicts s;
           currentConflictIndex := currentConflictIndex s;
           conflictResolutions := updatedResolutions;
           resolutionHistory :=
             resolutionHistory s
             ++ [ {| index := currentConflictIndex s; action := action |} ];
           isProcessing := isProcessing s |} in
      if Z.of_nat (currentConflictIndex s) <? lengthZ (currentConflicts s) - 1 then
        ({| showConflictDialog := showConflictDialog s;
            currentConflicts := currentConflicts s;
            currentConflictIndex := (currentConflictIndex s + 1)%nat;
            conflictResolutions := conflictResolutions s;
            resolutionHistory := resolutionHistory s;
            isProcessing := isProcessing s |}, db, [])
      else applyConflictResolutions (Some updatedResolutions) s db
  end.

Definition handleUndo (s : HookState) : HookState :=
  match last (resolutionHistory s) with
  | None => s
  | Some lastResolution =>
      match currentConflicts s !! index lastResolution with
      | None => s
      | Some lastConflict =>
          let conflictKey := getConflictKey lastConflict in
          let newResolutions := base.delete conflictKey (conflictResolutions s) in
          {| showConflictDialog := showConflictDialog s;
             currentConflicts := currentConflicts s;
             currentConflictIndex := index lastResolution;
             conflictResolutions := newResolutions;
             resolutionHistory := removelast (resolutionHistory s);
             isProcessing := isProcessing s |}
      end
  end.
End Workflow.

(* ===================================================================== *)
(** * The signaling relay (Netlify function [webrtc-signal]) *)
(* ===================================================================== *)

Module Relay.

Inductive MessageType : Type := Offer | Answer | IceCandidate | Join | Leave | Ping.
Inductive Role : Type := Lead | Scout.

#[export] Instance MessageType_eq_dec : EqDecision MessageType.
Proof. solve_decision. Defined.
#[export] Instance Role_eq_dec : EqDecision Role.
Proof. solve_decision. Defined.

(** [interface SignalingMessage]: every property but [type] is
    optional; a parsed body may lack [type] as well. *)
Record SignalingMessage : Type := {
  type : option MessageType;
  roomId : option string;
  peerId : option string;
  peerName : option string;
  role : option Role;
  targetPeerId : option string;
  data : option json;
  deliveredTo : option (gset string)
}.

Module Peer.
Record t : Type := { id : string; name : string; lastSeen : Z }.
End Peer.

(** A JavaScript [Map] with string keys, in insertion order. *)
Section JSMap.
Context {V : Type}.

Fixpoint mapSet (m : list (string * V)) (k : string) (v : V) : list (string * V) :=
  match m with
  | [] => [(k, v)]
  | (k', v') :: rest =>
      if String.eqb k' k then (k', v) :: rest else (k', v') :: mapSet rest k v
  end.

Definition mapDelete (m : list (string * V)) (k : string) : list (string * V) :=
  filter (fun kv => fst kv ≠ k) m.

Definition mapKeys (m : list (string * V)) : list string := map fst m.
Definition mapValues (m : list (string * V)) : list V := map snd m.
End JSMap.

(** [interface Room].  The array [messages] holds references to the
    message objects, which live in the relay's heap: a poll marks the
    objects in place and returns the very same objects. *)
Module Room.
Record t : Type := {
  id : string;
  lead : option Peer.t;
  scouts : list (string * Peer.t);
  messages : list nat;
  createdAt : Z
}.
End Room.

(** The module-level [rooms] map and the message objects allocated
    so far; [nextRef] is the next fresh reference. *)
Record State : Type := {
  rooms : gmap string Room.t;
  heap : gmap nat SignalingMessage;
  nextRef : nat
}.

Definition initialState : State := {| rooms := ∅; heap := ∅; nextRef := 0%nat |}.

Definition ROOM_TIMEOUT : Z := 30 * 60 * 1000.

(** The [setInterval] callback. *)
Definition sweep (now : Z) (st : State) : State :=
  {| rooms := filter (fun kv => ¬ (now - Room.createdAt (snd kv) > ROOM_TIMEOUT))
                     (rooms st);
     heap := heap st; nextRef := nextRef st |}.

Inductive ParsedBody : Type :=
| InvalidJson
| JsonNull
| JsonObject (message : SignalingMessage).

Record HandlerEvent : Type := {
  path : string;
  httpMethod : string;
  body : ParsedBody;
  queryRoomId : option string;
  queryPeerId : option string
}.

Record RoomSummary : Type := {
  summaryId : string;
  leadConnected : bool;
  scoutCount : Z;
  summaryScouts : list (string * string)
}.

Inductive ResponseBody : Type :=
| NotFound
| EmptyBody
| ErrorBody (error : string)
| Pong
| Success (room : RoomSummary)
| Messages (messages : list nat) (room : RoomSummary).

Record Response : Type := { statusCode : Z; responseBody : ResponseBody }.

Definition summaryOf (room : Room.t) (withScouts : bool) : RoomSummary :=
  {| summaryId := Room.id room;
     leadConnected := match Room.lead room with Some _ => true | None => false end;
     scoutCount := lengthZ (Room.scouts room);
     summaryScouts :=
       if withScouts
       then map (fun s => (Peer.id s, Peer.name s)) (mapValues (Room.scouts room))
       else [] |}.

(** [name || fallback]. *)
Definition orStr (name : option string) (fallback : string) : string :=
  match name with
  | Some n => if String.eqb n EmptyString then fallback else n
  | None => fallback
  end.

(** [room.messages.push({ ...message, data, deliveredTo: new Set() })]. *)
Definition stored (message : SignalingMessage) : SignalingMessage :=
  {| type := type message; roomId := roomId message; peerId := peerId message;
     peerName := peerName message; role := role message;
     targetPeerId := targetPeerId message; data := data message;
     deliveredTo := Some ∅ |}.

Definition pushMessage (message : SignalingMessage) (room : Room.t) (st : State)
  : Room.t * State :=
  let ref := nextRef st in
  ({| Room.id := Room.id room; Room.lead := Room.lead room;
      Room.scouts := Room.scouts room;
      Room.messages := Room.messages room ++ [ref];
      Room.createdAt := Room.createdAt room |},
   {| rooms := rooms st; heap := <[ref := stored message]> (heap st);
      nextRef := S ref |}).

Definition setLead (lead : option Peer.t) (room : Room.t) : Room.t :=
  {| Room.id := Room.id room; Room.lead := lead; Room.scouts := Room.scouts room;
     Room.messages := Room.messages room; Room.createdAt := Room.createdAt room |}.

Definition setScouts (scouts : list (string * Peer.t)) (room : Room.t) : Room.t :=
  {| Room.id := Room.id room; Room.lead := Room.lead room; Room.scouts := scouts;
     Room.messages := Room.messages room; Room.createdAt := Room.createdAt room |}.

Definition setMessages (messages : list nat) (room : Room.t) : Room.t :=
  {| Room.id := Room.id room; Room.lead := Room.lead room;
     Room.scouts := Room.scouts room;
     Room.messages := messages; Room.createdAt := Room.createdAt room |}.

Definition putRoom (roomId : string) (room : Room.t) (st : State) : State :=
  {| rooms := <[roomId := room]> (rooms st); heap := heap st; nextRef := nextRef st |}.

(** The [switch (type)] of the POST branch, on the room object. *)
Definition handleType (now : Z) (message : SignalingMessage) (peerId : string)
    (room : Room.t) (st : State) : Room.t * State :=
  match type message with
  | Some Join =>
      let room :=
        match role message with
        | Some Lead =>
            setLead (Some {| Peer.id := peerId;
                             Peer.name := orStr (peerName message) "Lead";
                             Peer.lastSeen := now |}) room
        | Some Scout =>
            setScouts (mapSet (Room.scouts room) peerId
                         {| Peer.id := peerId;
                            Peer.name := orStr (peerName message) "Scout";
                            Peer.lastSeen := now |}) room
        | None => room
        end in
      pushMessage message room st
  | Some Leave =>
      match role message with
      | Some Lead => (setLead None room, st)
      | _ => (setScouts (mapDelete (Room.scouts room) peerId) room, st)
      end
  | Some Offer | Some Answer | Some IceCandidate => pushMessage message room st
  | _ => (room, st)
  end.

Definition post (now : Z) (event : HandlerEvent) (st : State) : Response * State :=
  match body event with
  | InvalidJson => ({| statusCode := 400; responseBody := ErrorBody "Invalid JSON" |}, st)
  | JsonNull =>
      ({| statusCode := 500; responseBody := ErrorBody "Internal server error" |}, st)
  | JsonObject message =>
      if bool_decide (type message = Some Ping) then
        ({| statusCode := 200; responseBody := Pong |}, st)
      else
        match roomId message, peerId message with
        | Some roomId, Some peerId =>
            if String.eqb roomId EmptyString || String.eqb peerId EmptyString then
              ({| statusCode := 400;
                  responseBody := ErrorBody "Missing roomId or peerId" |}, st)
            else
              let room :=
                match rooms st !! roomId with
                | Some room => room
                | None => {| Room.id := roomId; Room.lead := None; Room.scouts := [];
                             Room.messages := []; Room.createdAt := now |}
                end in
              let '(room, st) := handleType now message peerId room st in
              ({| statusCode := 200; responseBody := Success (summaryOf room false) |},
               putRoom roomId room st)
        | _, _ =>
            ({| statusCode := 400;
                responseBody := ErrorBody "Missing roomId or peerId" |}, st)
        end
  end.

(** The predicate of the first [filter] of the GET branch. *)
Definition shouldInclude (peerId : string) (msg : SignalingMessage) : bool :=
  let isOwnMessage := bool_decide (Relay.peerId msg = Some peerId) in
  let alreadyDelivered :=
    match deliveredTo msg with
    | Some d => bool_decide (peerId ∈ d)
    | None => false
    end in
  let isTargetedToSomeoneElse :=
    JS.truthyStr (targetPeerId msg) && negb (bool_decide (targetPeerId msg = Some peerId)) in
  negb isOwnMessage && negb alreadyDelivered && negb isTargetedToSomeoneElse.

(** [msg.deliveredTo.add(peerId)], creating the set when it is missing. *)
Definition markDelivered (peerId : string) (msg : SignalingMessage) : SignalingMessage :=
  {| type := type msg; roomId := roomId msg; peerId := Relay.peerId msg;
     peerName := peerName msg; role := role msg; targetPeerId := targetPeerId msg;
     data := data msg;
     deliveredTo := Some (match deliveredTo msg with
                          | Some d => d ∪ {[peerId]}
                          | None => {[peerId]}
                          end) |}.

(** The predicate of the clean-up [filter]: [true] keeps the message. *)
Definition shouldKeep (room : Room.t) (msg : SignalingMessage) : bool :=
  match deliveredTo msg with
  | None => true
  | Some d =>
      if bool_decide (type msg = Some Join) && bool_decide (role msg = Some Scout) then
        match Room.lead room with
        | None => true
        | Some lead => negb (bool_decide (Peer.id lead ∈ d))
        end
      else if bool_decide (type msg = Some Join) && bool_decide (role msg = Some Lead) then
        existsb (fun scoutId => negb (bool_decide (scoutId ∈ d)))
                (mapKeys (Room.scouts room))
      else Z.of_nat (size d) <=? 1
  end.

(** A reference is looked up in the heap; the array only ever holds
    references to allocated objects. *)
Definition holds (h : gmap nat SignalingMessage) (p : SignalingMessage -> bool)
    (ref : nat) : bool :=
  match h !! ref with
  | Some msg => p msg
  | None => false
  end.

Definition get (event : HandlerEvent) (st : State) : Response * State :=
  match queryRoomId event, queryPeerId event with
  | Some roomId, Some peerId =>
      if String.eqb roomId EmptyString || String.eqb peerId EmptyString then
        ({| statusCode := 400; responseBody := ErrorBody "Missing roomId or peerId" |}, st)
      else
        match rooms st !! roomId with
        | None =>
            ({| statusCode := 200;
                responseBody :=
                  Messages [] {| summaryId := roomId; leadConnected := false;
                                 scoutCount := 0; summaryScouts := [] |} |}, st)
        | Some room =>
            let messages :=
              filter (fun ref => holds (heap st) (shouldInclude peerId) ref) (Room.messages room) in
            let heap' :=
              fold_left (fun h ref => alter (markDelivered peerId) ref h) messages (heap st) in
            let room :=
              setMessages (filter (fun ref => holds heap' (shouldKeep room) ref)
                                  (Room.messages room))
                          room in
            ({| statusCode := 200;
                responseBody := Messages messages (summaryOf room true) |},
             {| rooms := <[roomId := room]> (rooms st); heap := heap';
                nextRef := nextRef st |})
        end
  | _, _ =>
      ({| statusCode := 400; responseBody := ErrorBody "Missing roomId or peerId" |}, st)
  end.

Definition handler (now : Z) (event : HandlerEvent) (st : State) : Response * State :=
  if negb (String.prefix "/.netlify/functions/webrtc-signal" (path event)) then
    ({| statusCode := 404; responseBody := NotFound |}, st)
  else if String.eqb (httpMethod event) "OPTIONS" then
    ({| statusCode := 200; responseBody := EmptyBody |}, st)
  else if String.eqb (httpMethod event) "POST" then post now event st
  else if String.eqb (httpMethod event) "GET" then get event st
  else ({| statusCode := 405; responseBody := ErrorBody "Method not allowed" |}, st).

End Relay.

(* ===================================================================== *)
(** * Reference instances of the external collaborators *)
(* ===================================================================== *)

(** A collator that orders strings by code units. *)
Definition codeUnitCompare (a b : string) : Z :=
  match String.compare a b with
  | Lt => -1
  | Eq => 0
  | Gt => 1
  end.

Definition codeUnitCollator : Collator := {| localeCompare := codeUnitCompare |}.

(** A table kept as the list of its rows; a row is replaced when a row
    with the same primary key is put. *)
Definition listDelete (key : string) (rows : list ScoutingEntryBase) :=
  List.filter (fun e => negb (String.eqb (id e) key)) rows.

Definition listPut (e : ScoutingEntryBase) (rows : list ScoutingEntryBase) :=
  listDelete (id e) rows ++ [e].

Definition listTable : Table (list ScoutingEntryBase) :=
  {| toArray := fun rows => rows;
     put := listPut;
     delete := listDelete;
     bulkPut := fun es rows => fold_left (fun rows e => listPut e rows) es rows;
     count := fun rows => lengthZ rows |}.

(** The prototype chain of ECMAScript where no script has changed the
    built-in prototypes.  An object inherits from [Object.prototype]
    the functions named below and the accessor [__proto__], which
    answers the prototype of the object it is read on; a prototype
    that is an array also answers [length], its items and the
    functions of [Array.prototype].  [JSON.stringify] makes
    [undefined] of a function and ["{}"] of [Object.prototype]. *)
Definition objectPrototypeNames : list string :=
  ["constructor"; "hasOwnProperty"; "isPrototypeOf"; "propertyIsEnumerable";
   "toLocaleString"; "toString"; "valueOf"; "__defineGetter__"; "__defineSetter__";
   "__lookupGetter__"; "__lookupSetter__"].

Definition arrayPrototypeNames : list string :=
  ["at"; "concat"; "copyWithin"; "entries"; "every"; "fill"; "filter"; "find";
   "findIndex"; "findLast"; "findLastIndex"; "flat"; "flatMap"; "forEach"; "includes";
   "indexOf"; "join"; "keys"; "lastIndexOf"; "map"; "pop"; "push"; "reduce";
   "reduceRight"; "reverse"; "shift"; "slice"; "some"; "sort"; "splice"; "toReversed";
   "toSorted"; "toSpliced"; "unshift"; "values"; "with"].

Definition builtinFunction (names : list string) (key : string) : PropertyValue :=
  if existsb (String.eqb key) names then Foreign None else Undefined.

Definition standardInherited (p : Prototype) (key : string) : PropertyValue :=
  match p with
  | NullPrototype => Undefined
  | ObjectPrototype =>
      if String.eqb key "__proto__" then Foreign (Some "{}")
      else builtinFunction objectPrototypeNames key
  | PayloadPrototype (JObj props) =>
      match ownGet props key with
      | Some v => Data v
      | None =>
          if String.eqb key "__proto__" then Data (JObj props)
          else builtinFunction objectPrototypeNames key
      end
  | PayloadPrototype (JArr items) =>
      if String.eqb key "length" then Data (JNum (lengthZ items))
      else
        match arrayIndex key with
        | Some i =>
            match items !! Z.to_nat i with
            | Some v => Data v
            | None => Undefined
            end
        | None =>
            if String.eqb key "__proto__" then Data (JArr items)
            else builtinFunction (arrayPrototypeNames ++ objectPrototypeNames) key
        end
  | PayloadPrototype _ => Undefined
  end.

Definition standardEngine : Engine := {| inherited := standardInherited |}.

(** Records and conflicts used as examples. *)
Module Fixtures.

Definition entry (id : string) (corrected : option bool) (correctedAt : option Z)
    (payload : option (list (string * json))) : ScoutingEntryBase :=
  {| id := id; eventKey := "e"; matchKey := "qm1"; matchNumber := 1;
     teamNumber := 100; allianceColor := "red"; scoutName := "scout";
     timestamp := Some 500; isCorrected := corrected; lastCorrectedAt := correctedAt;
     gameData := payload |}.

Definition score (n : Z) : option (list (string * json)) := Some [("score", JNum n)].

Definition localCorrected := entry "e::qm1::100::red" (Some true) (Some 1000) (score 10).
Definition localUncorrected := entry "e::qm1::100::red" None None (score 10).
Definition incomingUncorrected := entry "b7" (Some false) None (score 12).
Definition incomingSame := entry "b7" None None (score 10).
Definition incomingCorrected := entry "b7" (Some true) (Some 1500) (score 12).
Definition incomingCorrectedSame := entry "b7" (Some true) (Some 1500) (score 10).
Definition incomingCorrectedLate := entry "b7" (Some true) (Some 9000) (score 12).
Definition localBare := entry "e::qm1::100::red" None None None.

(** A corrected record, as an imported file can hold it, that carries
    neither [lastCorrectedAt] nor [timestamp]. *)
Definition localUntimed : ScoutingEntryBase :=
  {| id := "e::qm1::100::red"; eventKey := "e"; matchKey := "qm1"; matchNumber := 1;
     teamNumber := 100; allianceColor := "red"; scoutName := "scout";
     timestamp := None; isCorrected := Some true; lastCorrectedAt := None;
     gameData := score 10 |}.

(** A corrected record without [lastCorrectedAt]: its correction time
    is its [timestamp], 500. *)
Definition incomingCorrectedEarly := entry "b7" (Some true) None (score 12).
Definition incomingBare := entry "b7" (Some false) None (Some []).

(** A conflict about team [team] of match 1. *)
Definition conflictAbout (team : Z) : ConflictInfo :=
  let l := {| id := "l" +:+ JS.stringOfInt team; eventKey := "e"; matchKey := "qm1";
              matchNumber := 1; teamNumber := team; allianceColor := "red";
              scoutName := "scout"; timestamp := Some 500; isCorrected := Some true;
              lastCorrectedAt := Some 1000; gameData := score 10 |} in
  let i := {| id := "i" +:+ JS.stringOfInt team; eventKey := "e"; matchKey := "qm1";
              matchNumber := 1; teamNumber := team; allianceColor := "red";
              scoutName := "scout"; timestamp := Some 700; isCorrected := None;
              lastCorrectedAt := None; gameData := score 12 |} in
  {| incoming := i; local := l; conflictType := CorrectedVsUncorrected;
     isNewerIncoming := false;
     changedFields := computeChangedFields (engine := standardEngine) l i |}.

Definition threeConflicts : list ConflictInfo :=
  [conflictAbout 100; conflictAbout 200; conflictAbout 300].

Definition classify (rows incomingData : list ScoutingEntryBase) :=
  detectConflicts (collator := codeUnitCollator) (engine := standardEngine)
                  (table := listTable) rows incomingData.

End Fixtures.

(* ===================================================================== *)
(** * Vocabulary of the properties *)
(* ===================================================================== *)

(** The number that a string of base-36 digits denotes. *)
Definition digitValue (c : ascii) : Z :=
  let n := Z.of_nat (nat_of_ascii c) in
  if n <? 58 then n - 48 else n - 87.

Fixpoint decode36_go (s : string) (value : Z) : Z :=
  match s with
  | EmptyString => value
  | String c rest => decode36_go rest (value * 36 + digitValue c)
  end.

Definition decode36 (s : string) : Z := decode36_go s 0.

Definition appendResult (a b : ConflictDetectionResult) : ConflictDetectionResult :=
  {| autoImport := autoImport a ++ autoImport b;
     autoReplace := autoReplace a ++ autoReplace b;
     batchReview := batchReview a ++ batchReview b;
     conflicts := conflicts a ++ conflicts b |}.

Section ClassifierVocabulary.
Context {collator : Collator} {engine : Engine}.

(** What one incoming record adds to the four buckets. *)
Definition contribution (byId byFields : gmap string ScoutingEntryBase)
    (e : ScoutingEntryBase) : ConflictDetectionResult :=
  classifyEntry byId byFields emptyResult e.

End ClassifierVocabulary.

(** [e] occurs in none of the four output buckets. *)
Definition inNoBucket (r : ConflictDetectionResult) (e : ScoutingEntryBase) : Prop :=
  (e ∉ autoImport r) /\ (e ∉ autoReplace r) /\ (e ∉ batchReview r)
  /\ forall c, c ∈ conflicts r -> incoming c <> e.

(** The classifier records a conflict between [l] and [e]. *)
Definition conflictRecorded (r : ConflictDetectionResult)
    (e l : ScoutingEntryBase) (ty : ConflictType) (newer : bool) : Prop :=
  (exists c, c ∈ conflicts r /\ incoming c = e /\ local c = l
             /\ conflictType c = ty /\ isNewerIncoming c = newer)
  /\ (forall c, c ∈ conflicts r -> incoming c = e ->
        local c = l /\ conflictType c = ty /\ isNewerIncoming c = newer).

(** The laws of a comparison that is a strict total order on strings:
    no string comes before itself, the order is transitive, and two
    different strings never tie. *)
Class LawfulCollator (collator : Collator) : Prop := {
  compare_irrefl : forall a, ~ (localeCompare a a < 0);
  compare_trans : forall a b c,
    localeCompare a b < 0 -> localeCompare b c < 0 -> localeCompare a c < 0;
  compare_total : forall a b, a <> b -> localeCompare a b < 0 \/ localeCompare b a < 0
}.

Section SortVocabulary.
Context {collator : Collator}.

(** The comparator that [generateDataFingerprint] passes to [sort]. *)
Definition byKey (a b : string * json) : Z := localeCompare (fst a) (fst b).

Definition keyBefore (a b : string * json) : Prop := byKey a b < 0.

End SortVocabulary.

(** The inputs that the validation at the head of
    [handleScoutingDataUpload] refuses: anything but an object whose
    [entries] property is an array, and an empty [entries] array. *)
Definition refused (jsonData : JsonData) : Prop :=
  (forall entries, jsonData <> AnObject (EntriesArray entries))
  \/ jsonData = AnObject (EntriesArray []).

(** What a user can do in a review session. *)
Inductive Op : Type :=
| OpResolve (a : Action)
| OpUndo.

(** The state of a session over [cs]: either the session has been
    applied and the state reset, or the first [k] conflicts have been
    stepped through, [k] being the length of the history, and every
    recorded decision belongs to one of them. *)
Definition sessionInv (cs : list ConflictInfo) (s : HookState) : Prop :=
  (resolutionHistory s = [] /\ currentConflictIndex s = 0%nat
   /\ conflictResolutions s = ∅
   /\ (currentConflicts s = [] \/ currentConflicts s = cs))
  \/ (currentConflicts s = cs
      /\ currentConflictIndex s = length (resolutionHistory s)
      /\ (length (resolutionHistory s) < length cs)%nat
      /\ (forall j e, resolutionHistory s !! j = Some e -> index e = j)
      /\ (forall key a, conflictResolutions s !! key = Some a ->
            exists j c, (j < length (resolutionHistory s))%nat
                        /\ cs !! j = Some c /\ getConflictKey c = key)).

Section WorkflowVocabulary.
Context {T : Type} {table : Table T}.

Definition resolveStep (sd : HookState * T) (a : Action) : HookState * T :=
  let '(s, db, _) := handleConflictResolution a (fst sd) (snd sd) in (s, db).

Definition stepOp (sd : HookState * T) (op : Op) : HookState * T :=
  match op with
  | OpResolve a => resolveStep sd a
  | OpUndo => (handleUndo (fst sd), snd sd)
  end.

End WorkflowVocabulary.

(** The vocabulary of the relay properties: polls, posts, runs. *)
Module RelayRun.
Import Relay.

(** [p] is in the [deliveredTo] set of [msg]. *)
Definition delivered (p : string) (msg : SignalingMessage) : Prop :=
  match deliveredTo msg with
  | Some d => p ∈ d
  | None => False
  end.

(** [msg] has no [targetPeerId]: the property is absent, or it is the
    empty string, which the relay's test [msg.targetPeerId && ...]
    treats like an absent one. *)
Definition untargeted (msg : SignalingMessage) : Prop :=
  JS.truthyStr (targetPeerId msg) = false.

(** The three conditions under which a poll of [p] returns [msg]. *)
Definition eligible (p : string) (msg : SignalingMessage) : Prop :=
  peerId msg <> Some p
  /\ ~ delivered p msg
  /\ (untargeted msg \/ targetPeerId msg = Some p).

(** The queue of room [rid]; a room that does not exist has none. *)
Definition queueOf (st : State) (rid : string) : list nat :=
  match rooms st !! rid with
  | Some room => Room.messages room
  | None => []
  end.

(** The step of the loop that marks the returned messages. *)
Definition markAll (p : string) (refs : list nat) (h : gmap nat SignalingMessage)
  : gmap nat SignalingMessage :=
  fold_left (fun h ref => alter (markDelivered p) ref h) refs h.

(** A well-formed request of each kind. *)
Definition signalPath : string := "/.netlify/functions/webrtc-signal".

Definition pollOf (rid p : string) : HandlerEvent :=
  {| path := signalPath; httpMethod := "GET"; body := InvalidJson;
     queryRoomId := Some rid; queryPeerId := Some p |}.

Definition postOf (message : SignalingMessage) : HandlerEvent :=
  {| path := signalPath; httpMethod := "POST"; body := JsonObject message;
     queryRoomId := None; queryPeerId := None |}.

Definition isPoll (event : HandlerEvent) (rid p : string) : Prop :=
  String.prefix signalPath (path event) = true
  /\ httpMethod event = "GET"
  /\ queryRoomId event = Some rid /\ queryPeerId event = Some p
  /\ rid <> EmptyString /\ p <> EmptyString.

Definition isPost (event : HandlerEvent) (message : SignalingMessage) (rid p : string)
  : Prop :=
  String.prefix signalPath (path event) = true
  /\ httpMethod event = "POST"
  /\ body event = JsonObject message
  /\ roomId message = Some rid /\ peerId message = Some p
  /\ rid <> EmptyString /\ p <> EmptyString.

(** The message types whose [case] pushes onto [room.messages]. *)
Definition enqueued (ty : option MessageType) : bool :=
  match ty with
  | Some Join | Some Offer | Some Answer | Some IceCandidate => true
  | _ => false
  end.

(** The room that a POST works on: the existing one, or a new one. *)
Definition roomOrNew (now : Z) (rid : string) (st : State) : Room.t :=
  match rooms st !! rid with
  | Some room => room
  | None => {| Room.id := rid; Room.lead := None; Room.scouts := [];
               Room.messages := []; Room.createdAt := now |}
  end.

(** The references that a response hands to the polling peer. *)
Definition returned (resp : Response) : list nat :=
  match responseBody resp with
  | Messages refs _ => refs
  | _ => []
  end.

(** Messages of room ["room"] used in the examples below. *)
Definition messageOf (ty : MessageType) (from : string) (r : Role)
    (target : option string) : SignalingMessage :=
  {| type := Some ty; roomId := Some "room"; peerId := Some from; peerName := None;
     role := Some r; targetPeerId := target; data := None; deliveredTo := None |}.

Definition offerAtoB : SignalingMessage := messageOf Offer "A" Lead (Some "B").
Definition leaveOfB : SignalingMessage := messageOf Leave "B" Scout None.

(** The relay after lead ["A"] has posted an offer for scout ["B"]. *)
Definition afterOffer : State := snd (handler 0 (postOf offerAtoB) initialState).

(** What happens to the relay: a request is handled, or the timer of
    the room sweep fires. *)
Inductive Step : Type :=
| Request (now : Z) (event : HandlerEvent)
| Sweep (now : Z).

(** The deliveries of one response: the polling peer paired with each
    message object returned to it. *)
Definition deliveries (event : HandlerEvent) (resp : Response) : list (string * nat) :=
  match queryPeerId event with
  | Some p => (fun ref => (p, ref)) <$> returned resp
  | None => []
  end.

(** The deliveries of a run, in order, and the state it ends in. *)
Fixpoint run (steps : list Step) (st : State) : list (string * nat) * State :=
  match steps with
  | [] => ([], st)
  | Request now event :: rest =>
      let '(resp, st') := handler now event st in
      let '(log, st'') := run rest st' in
      (deliveries event resp ++ log, st'')
  | Sweep now :: rest => run rest (sweep now st)
  end.

(** References are allocated in order, and a queue holds a reference
    at most once. *)
Definition wf (st : State) : Prop :=
  (forall ref msg, heap st !! ref = Some msg -> (ref < nextRef st)%nat)
  /\ (forall rid room, rooms st !! rid = Some room ->
        NoDup (Room.messages room)
        /\ forall ref, ref ∈ Room.messages room -> (ref < nextRef st)%nat).

(** A message object keeps its fields, and its [deliveredTo] set only
    grows. *)
Definition grows (h h' : gmap nat SignalingMessage) : Prop :=
  forall ref msg, h !! ref = Some msg ->
    exists msg', h' !! ref = Some msg' /\ stored msg' = stored msg
                 /\ forall q, delivered q msg -> delivered q msg'.

(** The offer for ["B"] is posted; a third peer ["C"] polls first,
    then ["B"] polls twice. *)
Definition exampleRun : list Step :=
  [Request 0 (postOf offerAtoB); Request 1 (pollOf "room" "C");
   Request 2 (pollOf "room" "B"); Request 3 (pollOf "room" "B")].

End RelayRun.

(* ===================================================================== *)
(** * Match keys and the data summary (scoutingDataUtils.ts) *)
(* ===================================================================== *)

Module MatchKeys.

(** [\d] of the regular expressions. *)
Definition isDigit (c : ascii) : bool :=
  let n := nat_of_ascii c in ((48 <=? n) && (n <=? 57))%nat.

(** The longest prefix of digits, [\d*], and what follows it. *)
Fixpoint takeDigits (s : string) : string * string :=
  match s with
  | EmptyString => (EmptyString, EmptyString)
  | String c rest =>
      if isDigit c then
        let '(digits, after) := takeDigits rest in (String c digits, after)
      else (EmptyString, s)
  end.

(** The number that a string of decimal digits denotes. *)
Fixpoint parseDigits (digits : string) (value : Z) : Z :=
  match digits with
  | EmptyString => value
  | String c rest => parseDigits rest (value * 10 + (Z.of_nat (nat_of_ascii c) - 48))
  end.

Definition decimalValue (digits : string) : Z := parseDigits digits 0.

(** [Number.parseInt(digits, 10)], which the code calls on non-empty
    strings of digits only, belongs to the engine.  Its result is a
    double: the number that the digits denote as long as that is at
    most 2^53, beyond that a double near it, so that two strings of
    digits that denote different numbers can give the same result.
    [parseInt digits] is that double, as the integer it is; where the
    engine answers [Infinity], for some three hundred digits and more,
    [parseInt digits] stands for it as one integer above every finite
    double. *)
Class NumberParser : Type := { parseInt : string -> Z }.

(** A literal prefix of a pattern with the [i] flag; [literal] is in
    lower case. *)
Fixpoint stripPrefixCI (literal s : string) : option string :=
  match literal, s with
  | EmptyString, _ => Some s
  | String a literal', String b s' =>
      if Ascii.eqb a (JS.lowerChar b) then stripPrefixCI literal' s' else None
  | String _ _, EmptyString => None
  end.

(** [keyPart.match(/^qm(\d+)$/i)]: the captured digits. *)
Definition matchQm (keyPart : string) : option string :=
  match stripPrefixCI "qm" keyPart with
  | Some rest =>
      let '(digits, after) := takeDigits rest in
      if negb (String.eqb digits EmptyString) && String.eqb after EmptyString
      then Some digits else None
  | None => None
  end.

(** [keyPart.match(/^<prefix>(\d+)m(\d+)$/i)] for [prefix] ["sf"] or
    ["f"]: the two captured digit strings. *)
Definition matchSetMatch (prefix keyPart : string) : option (string * string) :=
  match stripPrefixCI prefix keyPart with
  | Some rest =>
      let '(setDigits, after) := takeDigits rest in
      if String.eqb setDigits EmptyString then None
      else
        match stripPrefixCI "m" after with
        | Some rest' =>
            let '(matchDigits, after') := takeDigits rest' in
            if negb (String.eqb matchDigits EmptyString) && String.eqb after' EmptyString
            then Some (setDigits, matchDigits) else None
        | None => None
        end
  | None => None
  end.

(** The text before the first ['_'], and the text after it when there
    is one. *)
Fixpoint splitUnderscore (s : string) : string * option string :=
  match s with
  | EmptyString => (EmptyString, None)
  | String c rest =>
      if Ascii.eqb c "_" then (EmptyString, Some rest)
      else let '(head, tail) := splitUnderscore rest in (String c head, tail)
  end.

(** [raw.includes('_') ? (raw.split('_')[1] || raw) : raw]. *)
Definition keyPartOf (raw : string) : string :=
  match snd (splitUnderscore raw) with
  | Some rest =>
      let second := fst (splitUnderscore rest) in
      if String.eqb second EmptyString then raw else second
  | None => raw
  end.

(** [keyPart.replace(/\D/g, '')]. *)
Fixpoint digitsOnly (s : string) : string :=
  match s with
  | EmptyString => EmptyString
  | String c rest => if isDigit c then String c (digitsOnly rest) else digitsOnly rest
  end.

Definition MAX_SAFE_INTEGER : Z := 9007199254740991.

Record ParsedMatchKey : Type := {
  compOrder : Z;
  setNumber : Z;
  matchNumber : Z;
  raw : string
}.

Section Parse.
Context {parser : NumberParser}.

Definition parseMatchKeyForSort (matchKey : string) : ParsedMatchKey :=
  let raw := JS.trim matchKey in
  let keyPart := keyPartOf raw in
  match matchQm keyPart with
  | Some digits =>
      {| compOrder := 1; setNumber := 1; matchNumber := parseInt digits; raw := raw |}
  | None =>
      match matchSetMatch "sf" keyPart with
      | Some (setDigits, matchDigits) =>
          {| compOrder := 2; setNumber := parseInt setDigits;
             matchNumber := parseInt matchDigits; raw := raw |}
      | None =>
          match matchSetMatch "f" keyPart with
          | Some (setDigits, matchDigits) =>
              {| compOrder := 3; setNumber := parseInt setDigits;
                 matchNumber := parseInt matchDigits; raw := raw |}
          | None =>
              let numericOnly := digitsOnly keyPart in
              {| compOrder := 9; setNumber := 1;
                 matchNumber := if String.eqb numericOnly EmptyString
                                then MAX_SAFE_INTEGER else parseInt numericOnly;
                 raw := raw |}
          end
      end
  end.

End Parse.

Section Compare.
Context {parser : NumberParser} {collator : Collator}.

(** The differences are those of the code as long as the numbers are
    at most 2^53; beyond that the code's difference is the double
    nearest to the one given here, which has the same sign and is 0
    in the same cases. *)
Definition compareMatchKeys (a b : string) : Z :=
  let parsedA := parseMatchKeyForSort a in
  let parsedB := parseMatchKeyForSort b in
  if negb (compOrder parsedA =? compOrder parsedB) then
    compOrder parsedA - compOrder parsedB
  else if negb (setNumber parsedA =? setNumber parsedB) then
    setNumber parsedA - setNumber parsedB
  else if negb (matchNumber parsedA =? matchNumber parsedB) then
    matchNumber parsedA - matchNumber parsedB
  else localeCompare (raw parsedA) (raw parsedB).

End Compare.

End MatchKeys.

Module Summary.

(** [set.add(x)] on a [Set] kept in insertion order. *)
Definition setAdd {A : Type} (eqb : A -> A -> bool) (set : list A) (x : A) : list A :=
  if existsb (eqb x) set then set else set ++ [x].

Record DataSummary : Type := {
  totalEntries : Z;
  teams : list Z;
  matches : list string;
  scouts : list string;
  events : list string
}.

Section GetDataSummary.
Context {parser : MatchKeys.NumberParser} {collator : Collator} {T : Type} {table : Table T}.

(** [loadScoutingData]: the rows of the table. *)
Definition loadScoutingData (db : T) : list ScoutingEntryBase := toArray db.

(** [saveScoutingData]. *)
Definition saveScoutingData (entries : list ScoutingEntryBase) (db : T) : T :=
  bulkPut entries db.

(** The four sets after the [forEach]. *)
Definition teamSet (entries : list ScoutingEntryBase) : list Z :=
  fold_left (fun set entry =>
               if negb (teamNumber entry =? 0) then setAdd Z.eqb set (teamNumber entry)
               else set) entries [].

Definition stringSet (property : ScoutingEntryBase -> string)
    (entries : list ScoutingEntryBase) : list string :=
  fold_left (fun set entry =>
               if negb (String.eqb (property entry) EmptyString)
               then setAdd String.eqb set (property entry) else set) entries [].

Definition getDataSummary (db : T) : DataSummary :=
  let entries := loadScoutingData db in
  {| totalEntries := lengthZ entries;
     teams := JS.sort (fun a b => a - b) (teamSet entries);
     matches := JS.sort MatchKeys.compareMatchKeys (stringSet matchKey entries);
     scouts := JS.sort codeUnitCompare (stringSet scoutName entries);
     events := JS.sort codeUnitCompare (stringSet eventKey entries) |}.

End GetDataSummary.

End Summary.

(* ===================================================================== *)
(** * Applying decisions (scoutingDataUploadHandler.ts, useConflictResolution.ts) *)
(* ===================================================================== *)

#[export] Instance Action_eq_dec : EqDecision Action.
Proof. solve_decision. Defined.

(** The two store operations of a 'replace' decision. *)
Definition replaceLocal {T : Type} {table : Table T} (conflict : ConflictInfo) (db : T) : T :=
  put (incoming conflict) (delete (id (local conflict)) db).

Module UploadHandler.

Section Apply.
Context {T : Type} {table : Table T}.

(** [applyConflictResolutions] of the upload handler: the table
    afterwards and the two counters. *)
Definition applyConflictResolutions (conflicts : list ConflictInfo)
    (resolutions : gmap string Action) (db : T) : T * (Z * Z) :=
  fold_left
    (fun '(db, (replaced, skipped)) conflict =>
       let conflictKey := getConflictKey conflict in
       match resolutions !! conflictKey with
       | Some Replace =>
           (put (incoming conflict) (delete (id (local conflict)) db),
            (replaced + 1, skipped))
       | _ => (db, (replaced, skipped + 1))
       end)
    conflicts (db, (0, 0)).

End Apply.

End UploadHandler.

Section BatchResolve.
Context {T : Type} {table : Table T}.

(** [handleBatchResolve]: the decisions are recorded for the conflicts
    from [currentConflictIndex] on, those conflicts are applied, and
    the state is reset. *)
Definition handleBatchResolve (action : Action) (s : HookState) (db : T)
  : HookState * T * list Toast :=
  let remaining := drop (currentConflictIndex s) (currentConflicts s) in
  let newResolutions :=
    fold_left (fun m conflict => <[getConflictKey conflict := action]> m)
              remaining (conflictResolutions s) in
  let '(db, replaced, skipped) :=
    fold_left
      (fun '(db, replaced, skipped) conflict =>
         match newResolutions !! getConflictKey conflict with
         | Some Replace =>
             (put (incoming conflict) (delete (id (local conflict)) db),
              replaced + 1, skipped)
         | _ => (db, replaced, skipped + 1)
         end)
      remaining (db, 0, 0) in
  ({| showConflictDialog := false; currentConflicts := []; currentConflictIndex := 0%nat;
      conflictResolutions := ∅; resolutionHistory := []; isProcessing := false |},
   db,
   [ToastSuccess ("Batch operation complete! " +:+ JS.stringOfInt replaced
                  +:+ " entries replaced, " +:+ JS.stringOfInt skipped
                  +:+ " entries kept.")]).

End BatchResolve.

(* ===================================================================== *)
(** * Vocabulary of the further properties *)
(* ===================================================================== *)

(** Every code unit of [s] satisfies [p]. *)
Fixpoint allChars (p : ascii -> bool) (s : string) : bool :=
  match s with
  | EmptyString => true
  | String c rest => p c && allChars p rest
  end.

(** What the properties use of [Number.parseInt]: on a string of digits
    that denotes a number up to [Number.MAX_SAFE_INTEGER], its result
    is that number. *)
Class ExactParser (parser : MatchKeys.NumberParser) : Prop := {
  parseInt_exact : forall digits,
    digits <> EmptyString ->
    allChars MatchKeys.isDigit digits = true ->
    MatchKeys.decimalValue digits <= MatchKeys.MAX_SAFE_INTEGER ->
    MatchKeys.parseInt digits = MatchKeys.decimalValue digits
}.

(** A parser that is exact on every string of digits. *)
Definition decimalParser : MatchKeys.NumberParser :=
  {| MatchKeys.parseInt := MatchKeys.decimalValue |}.

(** [notAfter cmp a b]: the comparator [cmp] does not put [b] before
    [a]. *)
Definition notAfter {A : Type} (cmp : A -> A -> Z) (a b : A) : Prop := ~ cmp b a < 0.

(** The keys that The Blue Alliance gives to matches:
    [<event>_qm<n>], [<event>_sf<set>m<n>] and [<event>_f<set>m<n>]. *)
Module TbaKeys.

Definition notUnderscore (c : ascii) : bool := negb (Ascii.eqb c "_").

Definition plainChar (c : ascii) : bool := negb (JS.isSpace c) && notUnderscore c.

(** An event code: no white space, no underscore. *)
Definition plain (event : string) : Prop := allChars plainChar event = true.

Definition qualKey (event : string) (n : Z) : string :=
  event +:+ "_qm" +:+ JS.stringOfInt n.

Definition semiKey (event : string) (set n : Z) : string :=
  event +:+ "_sf" +:+ JS.stringOfInt set +:+ "m" +:+ JS.stringOfInt n.

Definition finalKey (event : string) (set n : Z) : string :=
  event +:+ "_f" +:+ JS.stringOfInt set +:+ "m" +:+ JS.stringOfInt n.

End TbaKeys.

(** What a decision does to the table. *)
Definition applyDecision {T : Type} {table : Table T} (db : T)
    (decided : ConflictInfo * Action) : T :=
  match snd decided with
  | Replace => replaceLocal (fst decided) db
  | Skip => db
  end.

(** The entries that [handleConflictResolution] appends to the history
    for the decisions [acts], the first one being taken at index [from]. *)
Fixpoint historyOf (from : nat) (acts : list Action) : list HistoryEntry :=
  match acts with
  | [] => []
  | a :: rest => {| index := from; action := a |} :: historyOf (S from) rest
  end.

(** The decisions recorded for the conflicts [cs], one action each. *)
Definition decisionsOf (cs : list ConflictInfo) (acts : list Action) : gmap string Action :=
  fold_left (fun m decided => <[getConflictKey (fst decided) := snd decided]> m)
            (zip cs acts) ∅.

(** A key without a colon, so that the separator ["::"] of a
    deterministic id cannot occur inside it. *)
Definition notColon (c : ascii) : bool := negb (Ascii.eqb c ":").

Definition colonFree (key : string) : Prop := allChars notColon key = true.

(** Records and requests used as further examples. *)
Module Examples.

Definition scored (id : string) (payload : list (string * json)) : ScoutingEntryBase :=
  Fixtures.entry id None None (Some payload).

Definition localAB : ScoutingEntryBase :=
  scored "e::qm1::100::red" [("auto", JNum 1); ("teleop", JNum 2)].

Definition incomingBA : ScoutingEntryBase :=
  scored "b7" [("teleop", JNum 2); ("auto", JNum 1)].

(** A row of match [matchKey]. *)
Definition rowOf (id matchKey : string) (team : Z) : ScoutingEntryBase :=
  {| id := id; eventKey := "2026casj"; matchKey := matchKey; matchNumber := 1;
     teamNumber := team; allianceColor := "red"; scoutName := "scout";
     timestamp := Some 500; isCorrected := None; lastCorrectedAt := None;
     gameData := Fixtures.score 1 |}.

Definition threeRows : list ScoutingEntryBase :=
  [rowOf "r1" "2026casj_sf1m1" 1781; rowOf "r2" "2026casj_qm10" 254;
   rowOf "r3" "2026casj_qm2" 1781].

End Examples.

(** [value !== null && typeof value === 'object' && !Array.isArray(value)]. *)
Definition isPlainObject (value : json) : bool :=
  match value with
  | JObj _ => true
  | _ => false
  end.

Section ChangedFieldsVocabulary.
Context {engine : Engine}.

(** The body of the loop of [computeChangedFields] over [allFields]. *)
Definition compareField (flattenedLocal flattenedIncoming : JSObject)
    (changes : list ChangedField) (field : string) : list ChangedField :=
  let localValue := objGet flattenedLocal field in
  let incomingValue := objGet flattenedIncoming field in
  if isNullish incomingValue then changes
  else if isNullish localValue then changes
  else if textsDiffer (stringifyValue localValue) (stringifyValue incomingValue)
       then changes ++ [ {| field := field; localValue := localValue;
                            incomingValue := incomingValue |} ]
       else changes.

(** [c] holds what the two flattened payloads answer when its field is
    read, neither answer is [null] or [undefined], and their JSON texts
    differ. *)
Definition reported (flattenedLocal flattenedIncoming : JSObject)
    (c : ChangedField) : Prop :=
  objGet flattenedLocal (field c) = localValue c
  /\ objGet flattenedIncoming (field c) = incomingValue c
  /\ isNullish (localValue c) = false /\ isNullish (incomingValue c) = false
  /\ stringifyValue (localValue c) <> stringifyValue (incomingValue c).

(** The prototype chain answers nothing under the names of the fields:
    a field that a flattened payload does not have itself reads as
    [undefined] there. *)
Definition nothingInherited (flattenedLocal flattenedIncoming : JSObject) : Prop :=
  forall key,
    key ∈ map fst (own flattenedLocal) ++ map fst (own flattenedIncoming) ->
    (ownGet (own flattenedLocal) key = None -> objGet flattenedLocal key = Undefined)
    /\ (ownGet (own flattenedIncoming) key = None
        -> objGet flattenedIncoming key = Undefined).

End ChangedFieldsVocabulary.

(** Both flattened payloads have the field of [c] themselves, with the
    values of [c], neither is [null], and their JSON texts differ. *)
Definition ownReported (flattenedLocal flattenedIncoming : JSObject)
    (c : ChangedField) : Prop :=
  exists lv iv,
    ownGet (own flattenedLocal) (field c) = Some lv
    /\ ownGet (own flattenedIncoming) (field c) = Some iv
    /\ localValue c = Data lv /\ incomingValue c = Data iv
    /\ lv <> JNull /\ iv <> JNull
    /\ Json.stringify lv <> Json.stringify iv.

(** The vocabulary of the properties of rooms. *)
Module RelayRooms.
Import Relay RelayRun.

(** The room that a request addresses, if any. *)
Definition addressedRoom (event : HandlerEvent) : option string :=
  if String.eqb (httpMethod event) "POST" then
    match body event with
    | JsonObject message => roomId message
    | _ => None
    end
  else queryRoomId event.

(** A run made of requests only: the timer of the sweep does not fire. *)
Definition requests (rs : list (Z * HandlerEvent)) : list Step :=
  map (fun r => Request (fst r) (snd r)) rs.

(** What the entries of the two maps say about their keys: a room is
    stored under its id, and so is a scout, each scout once. *)
Definition keyed (st : State) : Prop :=
  forall rid room, rooms st !! rid = Some room ->
    Room.id room = rid
    /\ NoDup (mapKeys (Room.scouts room))
    /\ forall k scout, (k, scout) ∈ Room.scouts room -> Peer.id scout = k.

(** Peer [q] has the message after a poll of [p]: it had it before, or
    it is [p] and the poll returns the message. *)
Definition received (p : string) (msg : SignalingMessage) (q : string) : Prop :=
  delivered q msg \/ (q = p /\ eligible p msg).

(** Rooms used as examples: lead ["A"] joins an empty room, then
    scout ["B"] joins it twice. *)
Definition joinOfLead : SignalingMessage := messageOf Join "A" Lead None.
Definition joinOfScout : SignalingMessage := messageOf Join "B" Scout None.
Definition leaveAsLead : SignalingMessage := messageOf Leave "B" Lead None.

Definition afterLeadJoin : State := snd (handler 0 (postOf joinOfLead) initialState).

Definition leadRoom : Room.t :=
  {| Room.id := "room";
     Room.lead := Some {| Peer.id := "A"; Peer.name := "Lead"; Peer.lastSeen := 0 |};
     Room.scouts := []; Room.messages := [0%nat]; Room.createdAt := 0 |}.

(** The room of [afterOffer]. *)
Definition offerRoom : Room.t :=
  {| Room.id := "room"; Room.lead := None; Room.scouts := [];
     Room.messages := [0%nat]; Room.createdAt := 0 |}.

Definition scoutJoinsTwice : list Step :=
  [Request 0 (postOf joinOfLead); Request 1 (postOf joinOfScout);
   Request 2 (postOf joinOfScout)].

End RelayRooms.

(* ===================================================================== *)
(** * The polling interval of the signaling client ([useWebRTCSignaling]) *)
(* ===================================================================== *)

Module SignalingClient.

Definition BASE_POLL_INTERVAL_MS : Z := 2000.
Definition MAX_POLL_INTERVAL_MS : Z := 15000.

(** The places of the hook that write [currentPollIntervalRef.current],
    and those that leave it alone. *)
Inductive ClientEvent : Type :=
| PollingStarted
    (** the effect that starts polling runs *)
| PollingRefreshed
    (** [refreshPolling], the page being visible and online *)
| MessageSent
    (** [sendMessage] got an ok response *)
| SendFailed
    (** [sendMessage] threw *)
| PollAnswered (messageCount : option Z)
    (** [poll] got an ok response; [data.messages] is an array of that
        length, or is no array *)
| PollFailed
    (** [poll] threw: the fetch failed or the response was not ok *)
| PollSkipped.
    (** [poll] returned at one of its guards *)

(** [Math.floor(current * 1.5)] on an integer. *)
Definition timesOneAndAHalf (current : Z) : Z := current * 3 / 2.

Definition nextInterval (current : Z) (event : ClientEvent) : Z :=
  match event with
  | PollingStarted | PollingRefreshed | MessageSent => BASE_POLL_INTERVAL_MS
  | PollAnswered (Some messageCount) =>
      if messageCount >? 0 then BASE_POLL_INTERVAL_MS
      else Z.min MAX_POLL_INTERVAL_MS (timesOneAndAHalf current)
  | PollFailed => Z.min MAX_POLL_INTERVAL_MS (current * 2)
  | SendFailed | PollAnswered None | PollSkipped => current
  end.

(** The interval after the events, the ref being initialised with
    [BASE_POLL_INTERVAL_MS]. *)
Definition intervalAfter (events : list ClientEvent) : Z :=
  fold_left nextInterval events BASE_POLL_INTERVAL_MS.

End SignalingClient.

(* ===================================================================== *)
(** * Properties of the JavaScript primitives *)
(* ===================================================================== *)

Lemma digitValue_digit36 d : 0 <= d < 36 -> digitValue (JS.digit36 d) = d.
Proof.
  intros Hd.
  assert (exists k : nat, d = Z.of_nat k /\ (k < 36)%nat) as (k & -> & Hk).
  { exists (Z.to_nat d). lia. }
  do 36 (destruct k as [|k]; [reflexivity|]). lia.
Qed.

(** The digits that [toString36_go] puts in front of [acc] denote [n],
    whenever the fuel covers the number of digits of [n]. *)
Lemma toString36_go_decode fuel :
  forall n acc, 0 <= n < 36 ^ Z.of_nat fuel ->
    decode36 (JS.toString36_go fuel n acc) = decode36_go acc n.
Proof.
  unfold decode36. induction fuel as [|fuel IH]; intros n acc Hn.
  - simpl in *. by replace n with 0 by lia.
  - rewrite Nat2Z.inj_succ, Z.pow_succ_r in Hn by lia. simpl.
    assert (0 <= n mod 36 < 36) as Hm by (apply Z.mod_pos_bound; lia).
    destruct (n / 36 =? 0) eqn:Hq.
    + apply Z.eqb_eq in Hq. simpl. rewrite digitValue_digit36 by done.
      f_equal. pose proof (Z.div_mod n 36). lia.
    + rewrite IH.
      * simpl. rewrite digitValue_digit36 by done.
        f_equal. pose proof (Z.div_mod n 36). lia.
      * split; [apply Z.div_pos; lia|]. apply Z.div_lt_upper_bound; lia.
Qed.

(** [toString(36)] is exact on unsigned 32-bit numbers: the seven
    digits of fuel are never used up. *)
Lemma toString36_decode n : 0 <= n < 2 ^ 32 -> decode36 (JS.toString36 n) = n.
Proof.
  intros Hn. unfold JS.toString36. rewrite toString36_go_decode; [done|].
  change (36 ^ Z.of_nat 7) with 78364164096. lia.
Qed.

Lemma toUint32_range z : 0 <= JS.toUint32 z < 2 ^ 32.
Proof. unfold JS.toUint32. apply Z.mod_pos_bound. lia. Qed.

Lemma toInt32_range z : - 2 ^ 31 <= JS.toInt32 z < 2 ^ 31.
Proof.
  unfold JS.toInt32. pose proof (Z.mod_pos_bound (z + 2 ^ 31) (2 ^ 32)). lia.
Qed.

(** A fingerprint is the base-36 numeral of the unsigned hash. *)
Lemma fingerprint_decode {collator : Collator} e :
  decode36 (generateDataFingerprint e) = JS.toUint32 (fnvHash (dataString e)).
Proof. unfold generateDataFingerprint. apply toString36_decode, toUint32_range. Qed.

(** X25.  Two fingerprints are equal exactly when the unsigned hashes are. *)
Lemma fingerprint_eq_hash {collator : Collator} e1 e2 :
  generateDataFingerprint e1 = generateDataFingerprint e2
  <-> JS.toUint32 (fnvHash (dataString e1)) = JS.toUint32 (fnvHash (dataString e2)).
Proof.
  split.
  - intros Heq. by rewrite <- !fingerprint_decode, Heq.
  - unfold generateDataFingerprint. by intros ->.
Qed.

(* ===================================================================== *)
(** * Properties of the classifier *)
(* ===================================================================== *)

Lemma appendResult_empty_r a : appendResult a emptyResult = a.
Proof. destruct a; unfold appendResult; simpl; by rewrite !app_nil_r. Qed.

Lemma appendResult_assoc a b c :
  appendResult (appendResult a b) c = appendResult a (appendResult b c).
Proof. unfold appendResult; simpl; by rewrite !app_assoc. Qed.

(** Where [lastCorrectedAt || timestamp] is a number, it is the time of
    the already-synced check. *)
Lemma correctionTimeRaw_Some e t : correctionTimeRaw e = Some t -> correctionTime e = t.
Proof.
  unfold correctionTimeRaw, correctionTime. intros ->. simpl.
  destruct (t =? 0) eqn:Ht; [apply Z.eqb_eq in Ht; lia | done].
Qed.

(** Where it is [undefined], the already-synced check computes with 0. *)
Lemma correctionTimeRaw_None e : correctionTimeRaw e = None -> correctionTime e = 0.
Proof. unfold correctionTimeRaw, correctionTime. by intros ->. Qed.

(** It is [undefined] exactly for a record without [timestamp] whose
    [lastCorrectedAt] is missing or 0. *)
Lemma correctionTimeRaw_None_iff e :
  correctionTimeRaw e = None
  <-> timestamp e = None /\ (lastCorrectedAt e = None \/ lastCorrectedAt e = Some 0).
Proof.
  unfold correctionTimeRaw, orUndefined. destruct (lastCorrectedAt e) as [v|].
  - destruct (v =? 0) eqn:Hv.
    + apply Z.eqb_eq in Hv as ->. split; [by intros ->; split; [|right] | by intros [-> _]].
    + apply Z.eqb_neq in Hv. split; [done|]. intros [_ [?|?]]; [done|]. congruence.
  - split; [by intros ->; split; [|left] | by intros [-> _]].
Qed.

(** A key of [new Map(pairs)] is bound to a value it is paired with. *)
Lemma mapOfPairs_lookup {V : Type} (pairs : list (string * V)) k v :
  mapOfPairs pairs !! k = Some v -> (k, v) ∈ pairs.
Proof.
  unfold mapOfPairs.
  assert (forall m : gmap string V,
            fold_left (fun m kv => <[fst kv := snd kv]> m) pairs m !! k = Some v ->
            (k, v) ∈ pairs \/ m !! k = Some v) as Hgen.
  { induction pairs as [|[k' v'] pairs IH]; intros m Hl; simpl in *; [by right|].
    destruct (IH _ Hl) as [Hin | Hm].
    - left. by apply list_elem_of_further.
    - destruct (decide (k' = k)) as [-> | Hne].
      + rewrite lookup_insert_eq in Hm. injection Hm as ->. left. apply list_elem_of_here.
      + rewrite lookup_insert_ne in Hm by done. by right. }
  intros Hl. destruct (Hgen ∅ Hl) as [? | Hm]; [done|]. by rewrite lookup_empty in Hm.
Qed.

(** The local record paired with an incoming one is a local record
    with the same primary id or the same deterministic id. *)
Lemma matchingLocalOf_sound allLocalEntries e l :
  matchingLocalOf allLocalEntries e = Some l ->
  l ∈ allLocalEntries /\ (id l = id e \/ deterministicIdOf l = deterministicIdOf e).
Proof.
  unfold matchingLocalOf, findMatchingLocal, localEntriesById, localEntriesByFields.
  destruct (mapOfPairs _ !! id e) as [l'|] eqn:Hid.
  - intros [= ->]. apply mapOfPairs_lookup in Hid.
    apply list_elem_of_fmap in Hid as (x & [= Hx ->] & Hin). auto.
  - intros Hf. apply mapOfPairs_lookup in Hf.
    apply list_elem_of_fmap in Hf as (x & [= Hx ->] & Hin). auto.
Qed.

Section ClassifierFacts.
Context {collator : Collator} {engine : Engine}.

Lemma classifyMatched_acc acc l e :
  classifyMatched acc l e = appendResult acc (classifyMatched emptyResult l e).
Proof.
  unfold classifyMatched.
  repeat case_match;
    rewrite ?appendResult_empty_r; try done;
    unfold appendResult, pushBatch, pushReplace, pushConflict, emptyResult; simpl;
    by rewrite ?app_nil_r.
Qed.

Lemma classifyEntry_acc byId byFields acc e :
  classifyEntry byId byFields acc e = appendResult acc (contribution byId byFields e).
Proof.
  unfold contribution, classifyEntry.
  destruct (findMatchingLocal byId byFields e).
  - apply classifyMatched_acc.
  - unfold appendResult, pushImport, emptyResult; simpl. by rewrite ?app_nil_r.
Qed.

Lemma fold_classify byId byFields es acc :
  fold_left (classifyEntry byId byFields) es acc
  = appendResult acc (fold_left (classifyEntry byId byFields) es emptyResult).
Proof.
  revert acc. induction es as [|e es IH]; intros acc; simpl.
  - by rewrite appendResult_empty_r.
  - rewrite IH. rewrite (IH (classifyEntry _ _ emptyResult e)).
    rewrite (classifyEntry_acc _ _ acc). by rewrite appendResult_assoc.
Qed.

(** Every bucket of the result is the concatenation of the
    contributions of the incoming records, in order. *)
Lemma fold_classify_cons byId byFields e es :
  fold_left (classifyEntry byId byFields) (e :: es) emptyResult
  = appendResult (contribution byId byFields e)
                 (fold_left (classifyEntry byId byFields) es emptyResult).
Proof. simpl. by rewrite fold_classify. Qed.

Section Buckets.
Context {B : Type} (bucket : ConflictDetectionResult -> list B).
Hypothesis bucket_app :
  forall a b, bucket (appendResult a b) = bucket a ++ bucket b.
Hypothesis bucket_empty : bucket emptyResult = [].

Lemma elem_of_bucket byId byFields es (x : B) :
  x ∈ bucket (fold_left (classifyEntry byId byFields) es emptyResult)
  <-> exists e, e ∈ es /\ x ∈ bucket (contribution byId byFields e).
Proof.
  induction es as [|e es IH].
  - simpl. rewrite bucket_empty. split.
    + intros Hx. by apply elem_of_nil in Hx.
    + intros (e & He & _). by apply elem_of_nil in He.
  - rewrite fold_classify_cons, bucket_app, elem_of_app, IH. split.
    + intros [Hx | (e' & He' & Hx)].
      * exists e. split; [apply list_elem_of_here | done].
      * exists e'. split; [by apply list_elem_of_further | done].
    + intros (e' & He' & Hx). apply elem_of_cons in He' as [-> | He'].
      * by left.
      * right. by exists e'.
Qed.
End Buckets.

Lemma elem_of_autoImport byId byFields es x :
  x ∈ autoImport (fold_left (classifyEntry byId byFields) es emptyResult)
  <-> exists e, e ∈ es /\ x ∈ autoImport (contribution byId byFields e).
Proof. by apply elem_of_bucket. Qed.

Lemma elem_of_autoReplace byId byFields es x :
  x ∈ autoReplace (fold_left (classifyEntry byId byFields) es emptyResult)
  <-> exists e, e ∈ es /\ x ∈ autoReplace (contribution byId byFields e).
Proof. by apply elem_of_bucket. Qed.

Lemma elem_of_batchReview byId byFields es x :
  x ∈ batchReview (fold_left (classifyEntry byId byFields) es emptyResult)
  <-> exists e, e ∈ es /\ x ∈ batchReview (contribution byId byFields e).
Proof. by apply elem_of_bucket. Qed.

Lemma elem_of_conflicts byId byFields es x :
  x ∈ conflicts (fold_left (classifyEntry byId byFields) es emptyResult)
  <-> exists e, e ∈ es /\ x ∈ conflicts (contribution byId byFields e).
Proof. by apply elem_of_bucket. Qed.

(** ** The contribution of a matched record, case by case *)

Lemma contribution_unmatched byId byFields e :
  findMatchingLocal byId byFields e = None ->
  contribution byId byFields e = pushImport emptyResult e.
Proof. intros Hm. unfold contribution, classifyEntry. by rewrite Hm. Qed.

Lemma contribution_matched byId byFields e l :
  findMatchingLocal byId byFields e = Some l ->
  contribution byId byFields e = classifyMatched emptyResult l e.
Proof. intros Hm. unfold contribution, classifyEntry. by rewrite Hm. Qed.

Lemma matched_corrected_uncorrected l e :
  JS.truthyBool (isCorrected l) = true ->
  JS.truthyBool (isCorrected e) = false ->
  classifyMatched emptyResult l e
  = pushConflict emptyResult
      {| incoming := e; local := l; conflictType := CorrectedVsUncorrected;
         isNewerIncoming := false;
         changedFields := computeChangedFields l e |}.
Proof.
  intros Hl He. unfold classifyMatched. rewrite Hl, He. simpl.
  by rewrite andb_false_r.
Qed.

Lemma matched_uncorrected_corrected l e :
  JS.truthyBool (isCorrected l) = false ->
  JS.truthyBool (isCorrected e) = true ->
  classifyMatched emptyResult l e = pushReplace emptyResult e.
Proof.
  intros Hl He. unfold classifyMatched. rewrite Hl, He. simpl.
  by rewrite andb_false_r.
Qed.

Lemma matched_uncorrected_same l e :
  JS.truthyBool (isCorrected l) = false ->
  JS.truthyBool (isCorrected e) = false ->
  generateDataFingerprint l = generateDataFingerprint e ->
  classifyMatched emptyResult l e = emptyResult.
Proof.
  intros Hl He Hfp. unfold classifyMatched. rewrite Hl, He, Hfp. simpl.
  by rewrite String.eqb_refl.
Qed.

Lemma matched_uncorrected_differ l e :
  JS.truthyBool (isCorrected l) = false ->
  JS.truthyBool (isCorrected e) = false ->
  generateDataFingerprint l <> generateDataFingerprint e ->
  classifyMatched emptyResult l e = pushBatch emptyResult e.
Proof.
  intros Hl He Hfp. unfold classifyMatched. rewrite Hl, He. simpl.
  apply String.eqb_neq in Hfp. by rewrite Hfp.
Qed.

Lemma matched_corrected_same_near l e :
  JS.truthyBool (isCorrected l) = true ->
  JS.truthyBool (isCorrected e) = true ->
  generateDataFingerprint l = generateDataFingerprint e ->
  Z.abs (correctionTime l - correctionTime e) <= 1000 ->
  classifyMatched emptyResult l e = emptyResult.
Proof.
  intros Hl He Hfp Ht. unfold classifyMatched. rewrite Hl, He, Hfp. simpl.
  rewrite String.eqb_refl. apply Z.leb_le in Ht. by rewrite Ht.
Qed.

Lemma matched_corrected_differ_near l e :
  JS.truthyBool (isCorrected l) = true ->
  JS.truthyBool (isCorrected e) = true ->
  is_Some (correctionTimeRaw l) ->
  generateDataFingerprint l <> generateDataFingerprint e ->
  Z.abs (correctionTime l - correctionTime e) <= 1000 ->
  classifyMatched emptyResult l e = pushReplace emptyResult e.
Proof.
  intros Hl He [t Hraw] Hfp Ht. unfold classifyMatched. rewrite Hl, He. simpl.
  apply String.eqb_neq in Hfp. rewrite Hfp. simpl.
  rewrite Hraw. simpl. rewrite (correctionTimeRaw_Some _ _ Hraw) in Ht.
  apply Z.leb_le in Ht. by rewrite Ht.
Qed.

Lemma matched_corrected_far l e :
  JS.truthyBool (isCorrected l) = true ->
  JS.truthyBool (isCorrected e) = true ->
  is_Some (correctionTimeRaw l) ->
  1000 < Z.abs (correctionTime l - correctionTime e) ->
  classifyMatched emptyResult l e
  = pushConflict emptyResult
      {| incoming := e; local := l; conflictType := CorrectedVsCorrected;
         isNewerIncoming := correctionTime e >? correctionTime l;
         changedFields := computeChangedFields l e |}.
Proof.
  intros Hl He [t Hraw] Ht. unfold classifyMatched. rewrite Hl, He. simpl.
  rewrite Hraw. simpl. rewrite (correctionTimeRaw_Some _ _ Hraw) in *.
  apply Z.leb_gt in Ht. rewrite Ht.
  by rewrite andb_false_r.
Qed.

(** A corrected local record for which [lastCorrectedAt || timestamp]
    is [undefined]: unless the pair is discarded as already
    synchronised, with 0 standing for the local time, the last branch
    of the loop compares with [NaN] and records a conflict that never
    says the incoming record is newer. *)
Lemma matched_corrected_untimed l e :
  JS.truthyBool (isCorrected l) = true ->
  JS.truthyBool (isCorrected e) = true ->
  correctionTimeRaw l = None ->
  generateDataFingerprint l <> generateDataFingerprint e
  \/ 1000 < Z.abs (correctionTime l - correctionTime e) ->
  classifyMatched emptyResult l e
  = pushConflict emptyResult
      {| incoming := e; local := l; conflictType := CorrectedVsCorrected;
         isNewerIncoming := false;
         changedFields := computeChangedFields l e |}.
Proof.
  intros Hl He Hraw Hd. unfold classifyMatched. rewrite Hl, He. simpl.
  rewrite Hraw. simpl.
  replace (String.eqb (generateDataFingerprint l) (generateDataFingerprint e)
           && (Z.abs (correctionTime l - correctionTime e) <=? 1000)) with false; [done|].
  symmetry. apply andb_false_iff. destruct Hd as [Hfp | Ht].
  - left. by apply String.eqb_neq.
  - right. by apply Z.leb_gt.
Qed.

(** ** Bucket membership for [detectConflicts] *)

Context {T : Type} {table : Table T}.

Lemma contribution_own byId byFields e' :
  (forall x, x ∈ autoImport (contribution byId byFields e') -> x = e')
  /\ (forall x, x ∈ autoReplace (contribution byId byFields e') -> x = e')
  /\ (forall x, x ∈ batchReview (contribution byId byFields e') -> x = e')
  /\ (forall c, c ∈ conflicts (contribution byId byFields e') -> incoming c = e').
Proof.
  unfold contribution, classifyEntry, classifyMatched.
  repeat case_match; simpl;
    (repeat split; intros x Hx;
     [ .. | ];
     try (by apply elem_of_nil in Hx);
     try (apply list_elem_of_singleton in Hx; by subst)).
Qed.

Lemma in_autoImport_own (db : T) es e :
  e ∈ autoImport (detectConflicts db es) ->
  e ∈ autoImport (contribution (localEntriesById (toArray db))
                               (localEntriesByFields (toArray db)) e).
Proof.
  unfold detectConflicts. rewrite elem_of_autoImport. intros (e' & _ & Hx).
  by rewrite <- (proj1 (contribution_own _ _ _) _ Hx) in Hx.
Qed.

Lemma in_autoReplace_own (db : T) es e :
  e ∈ autoReplace (detectConflicts db es) ->
  e ∈ autoReplace (contribution (localEntriesById (toArray db))
                                (localEntriesByFields (toArray db)) e).
Proof.
  unfold detectConflicts. rewrite elem_of_autoReplace. intros (e' & _ & Hx).
  by rewrite <- (proj1 (proj2 (contribution_own _ _ _)) _ Hx) in Hx.
Qed.

Lemma in_batchReview_own (db : T) es e :
  e ∈ batchReview (detectConflicts db es) ->
  e ∈ batchReview (contribution (localEntriesById (toArray db))
                                (localEntriesByFields (toArray db)) e).
Proof.
  unfold detectConflicts. rewrite elem_of_batchReview. intros (e' & _ & Hx).
  by rewrite <- (proj1 (proj2 (proj2 (contribution_own _ _ _))) _ Hx) in Hx.
Qed.

Lemma in_conflicts_own (db : T) es c :
  c ∈ conflicts (detectConflicts db es) ->
  c ∈ conflicts (contribution (localEntriesById (toArray db))
                              (localEntriesByFields (toArray db)) (incoming c)).
Proof.
  unfold detectConflicts. rewrite elem_of_conflicts. intros (e' & _ & Hx).
  by rewrite (proj2 (proj2 (proj2 (contribution_own _ _ _))) _ Hx).
Qed.

(** A record whose contribution is empty is in no bucket. *)
Lemma empty_contribution_inNoBucket (db : T) es e :
  contribution (localEntriesById (toArray db)) (localEntriesByFields (toArray db)) e
  = emptyResult ->
  inNoBucket (detectConflicts db es) e.
Proof.
  intros Hc. repeat split.
  - intros Hx%in_autoImport_own. rewrite Hc in Hx. by apply elem_of_nil in Hx.
  - intros Hx%in_autoReplace_own. rewrite Hc in Hx. by apply elem_of_nil in Hx.
  - intros Hx%in_batchReview_own. rewrite Hc in Hx. by apply elem_of_nil in Hx.
  - intros c Hx%in_conflicts_own <-. rewrite Hc in Hx. by apply elem_of_nil in Hx.
Qed.

Lemma in_result_conflicts (db : T) es e c :
  e ∈ es ->
  c ∈ conflicts (contribution (localEntriesById (toArray db))
                              (localEntriesByFields (toArray db)) e) ->
  c ∈ conflicts (detectConflicts db es).
Proof. intros He Hc. unfold detectConflicts. apply elem_of_conflicts. eauto. Qed.

Lemma in_result_autoReplace (db : T) es e x :
  e ∈ es ->
  x ∈ autoReplace (contribution (localEntriesById (toArray db))
                                (localEntriesByFields (toArray db)) e) ->
  x ∈ autoReplace (detectConflicts db es).
Proof. intros He Hc. unfold detectConflicts. apply elem_of_autoReplace. eauto. Qed.

Lemma in_result_batchReview (db : T) es e x :
  e ∈ es ->
  x ∈ batchReview (contribution (localEntriesById (toArray db))
                                (localEntriesByFields (toArray db)) e) ->
  x ∈ batchReview (detectConflicts db es).
Proof. intros He Hc. unfold detectConflicts. apply elem_of_batchReview. eauto. Qed.

Lemma conflict_contribution_recorded (db : T) es e l ty newer cf :
  e ∈ es ->
  contribution (localEntriesById (toArray db)) (localEntriesByFields (toArray db)) e
  = pushConflict emptyResult
      {| incoming := e; local := l; conflictType := ty; isNewerIncoming := newer;
         changedFields := cf |} ->
  conflictRecorded (detectConflicts db es) e l ty newer
  /\ (e ∉ autoImport (detectConflicts db es))
  /\ (e ∉ autoReplace (detectConflicts db es))
  /\ (e ∉ batchReview (detectConflicts db es)).
Proof.
  intros He Hc. split; [split|repeat split].
  - exists {| incoming := e; local := l; conflictType := ty; isNewerIncoming := newer;
              changedFields := cf |}.
    split; [|done]. eapply in_result_conflicts; [exact He|].
    rewrite Hc. simpl. apply list_elem_of_here.
  - intros c Hx%in_conflicts_own Hi. rewrite Hi, Hc in Hx. simpl in Hx.
    apply list_elem_of_singleton in Hx. by subst.
  - intros Hx%in_autoImport_own. rewrite Hc in Hx. by apply elem_of_nil in Hx.
  - intros Hx%in_autoReplace_own. rewrite Hc in Hx. by apply elem_of_nil in Hx.
  - intros Hx%in_batchReview_own. rewrite Hc in Hx. by apply elem_of_nil in Hx.
Qed.

Lemma replace_contribution_placed (db : T) es e :
  e ∈ es ->
  contribution (localEntriesById (toArray db)) (localEntriesByFields (toArray db)) e
  = pushReplace emptyResult e ->
  e ∈ autoReplace (detectConflicts db es)
  /\ (e ∉ autoImport (detectConflicts db es))
  /\ (e ∉ batchReview (detectConflicts db es))
  /\ (forall c, c ∈ conflicts (detectConflicts db es) -> incoming c <> e).
Proof.
  intros He Hc. repeat split.
  - eapply in_result_autoReplace; [exact He|]. rewrite Hc. apply list_elem_of_here.
  - intros Hx%in_autoImport_own. rewrite Hc in Hx. by apply elem_of_nil in Hx.
  - intros Hx%in_batchReview_own. rewrite Hc in Hx. by apply elem_of_nil in Hx.
  - intros c Hx%in_conflicts_own <-. rewrite Hc in Hx. by apply elem_of_nil in Hx.
Qed.

Lemma batch_contribution_placed (db : T) es e :
  e ∈ es ->
  contribution (localEntriesById (toArray db)) (localEntriesByFields (toArray db)) e
  = pushBatch emptyResult e ->
  e ∈ batchReview (detectConflicts db es)
  /\ (e ∉ autoImport (detectConflicts db es))
  /\ (e ∉ autoReplace (detectConflicts db es))
  /\ (forall c, c ∈ conflicts (detectConflicts db es) -> incoming c <> e).
Proof.
  intros He Hc. repeat split.
  - eapply in_result_batchReview; [exact He|]. rewrite Hc. apply list_elem_of_here.
  - intros Hx%in_autoImport_own. rewrite Hc in Hx. by apply elem_of_nil in Hx.
  - intros Hx%in_autoReplace_own. rewrite Hc in Hx. by apply elem_of_nil in Hx.
  - intros c Hx%in_conflicts_own <-. rewrite Hc in Hx. by apply elem_of_nil in Hx.
Qed.

Lemma matched_contribution (db : T) e l :
  matchingLocalOf (toArray db) e = Some l ->
  contribution (localEntriesById (toArray db)) (localEntriesByFields (toArray db)) e
  = classifyMatched emptyResult l e.
Proof. apply contribution_matched. Qed.

(** C1.  A matched pair with a corrected local record and an
    uncorrected incoming record is put in [conflicts] with type
    'corrected-vs-uncorrected' and [isNewerIncoming = false], and the
    incoming record is in none of [autoImport], [autoReplace],
    [batchReview]; with an uncorrected local record and a corrected
    incoming record, the incoming record is put in [autoReplace]. *)
Theorem correction_precedence (db : T) (incomingData : list ScoutingEntryBase)
    (e l : ScoutingEntryBase) :
  e ∈ incomingData ->
  matchingLocalOf (toArray db) e = Some l ->
  (JS.truthyBool (isCorrected l) = true ->
   JS.truthyBool (isCorrected e) = false ->
     conflictRecorded (detectConflicts db incomingData) e l CorrectedVsUncorrected false
     /\ (e ∉ autoImport (detectConflicts db incomingData))
     /\ (e ∉ autoReplace (detectConflicts db incomingData))
     /\ (e ∉ batchReview (detectConflicts db incomingData)))
  /\ (JS.truthyBool (isCorrected l) = false ->
      JS.truthyBool (isCorrected e) = true ->
        e ∈ autoReplace (detectConflicts db incomingData)).
Proof.
  intros He Hm. split; intros Hl Hi.
  - eapply conflict_contribution_recorded; [exact He|].
    rewrite (matched_contribution _ _ _ Hm).
    by apply matched_corrected_uncorrected.
  - eapply replace_contribution_placed; [exact He|].
    rewrite (matched_contribution _ _ _ Hm).
    by apply matched_uncorrected_corrected.
Qed.

(** A matched pair of corrected records, the correction time of a
    record being [lastCorrectedAt || timestamp || 0].  Equal
    fingerprints and times at most 1000 ms apart put the incoming
    record in no bucket.  Where the local record has a
    [lastCorrectedAt] other than 0 or a [timestamp], different
    fingerprints and times at most 1000 ms apart put the incoming
    record in [autoReplace], and different fingerprints and times more
    than 1000 ms apart give a 'corrected-vs-corrected' conflict whose
    [isNewerIncoming] says whether the incoming time is strictly
    greater than the local one.  Where the local record has neither,
    different fingerprints always give a 'corrected-vs-corrected'
    conflict, and its [isNewerIncoming] is false. *)
Lemma both_corrected (db : T) (incomingData : list ScoutingEntryBase)
    (e l : ScoutingEntryBase) :
  e ∈ incomingData ->
  matchingLocalOf (toArray db) e = Some l ->
  JS.truthyBool (isCorrected l) = true ->
  JS.truthyBool (isCorrected e) = true ->
  (generateDataFingerprint l = generateDataFingerprint e ->
   Z.abs (correctionTime l - correctionTime e) <= 1000 ->
     inNoBucket (detectConflicts db incomingData) e)
  /\ (is_Some (correctionTimeRaw l) ->
      generateDataFingerprint l <> generateDataFingerprint e ->
      Z.abs (correctionTime l - correctionTime e) <= 1000 ->
        e ∈ autoReplace (detectConflicts db incomingData))
  /\ (is_Some (correctionTimeRaw l) ->
      generateDataFingerprint l <> generateDataFingerprint e ->
      1000 < Z.abs (correctionTime l - correctionTime e) ->
        conflictRecorded (detectConflicts db incomingData) e l CorrectedVsCorrected
                         (correctionTime e >? correctionTime l)
        /\ ((correctionTime e >? correctionTime l) = true
            <-> correctionTime l < correctionTime e))
  /\ (correctionTimeRaw l = None ->
      generateDataFingerprint l <> generateDataFingerprint e ->
        conflictRecorded (detectConflicts db incomingData) e l CorrectedVsCorrected
                         false).
Proof.
  intros He Hm Hl Hi. split; [|split; [|split]].
  - intros Hfp Ht. apply empty_contribution_inNoBucket.
    rewrite (matched_contribution _ _ _ Hm).
    by apply matched_corrected_same_near.
  - intros Hraw Hfp Ht. eapply replace_contribution_placed; [exact He|].
    rewrite (matched_contribution _ _ _ Hm).
    by apply matched_corrected_differ_near.
  - intros Hraw Hfp Ht. split.
    + eapply conflict_contribution_recorded; [exact He|].
      rewrite (matched_contribution _ _ _ Hm).
      by apply matched_corrected_far.
    + rewrite Z.gtb_ltb, Z.ltb_lt. done.
  - intros Hraw Hfp. eapply conflict_contribution_recorded; [exact He|].
    rewrite (matched_contribution _ _ _ Hm).
    apply matched_corrected_untimed; [done..|by left].
Qed.

(** C3.  Where the code departs from the rule for two corrected
    records.  The corrected local record [Fixtures.localUntimed]
    carries neither [lastCorrectedAt] nor [timestamp]: its correction
    time is 0 where the already-synced check computes it, with
    [|| 0], and [undefined] where the last branch of the loop
    computes it, without.  Against a corrected incoming record with
    another payload and the correction time 500, at most 1000 ms from
    0, [detectConflicts] puts nothing in [autoReplace] and records a
    'corrected-vs-corrected' conflict; against one with the
    correction time 9000 it records a conflict whose
    [isNewerIncoming] is false, although 9000 is strictly greater
    than 0. *)
Theorem corrected_local_without_time :
  let l := Fixtures.localUntimed in
  let near := Fixtures.incomingCorrectedEarly in
  let far := Fixtures.incomingCorrectedLate in
  JS.truthyBool (isCorrected l) = true
  /\ JS.truthyBool (isCorrected near) = true
  /\ JS.truthyBool (isCorrected far) = true
  /\ matchingLocalOf [l] near = Some l
  /\ matchingLocalOf [l] far = Some l
  /\ generateDataFingerprint l <> generateDataFingerprint near
  /\ generateDataFingerprint l <> generateDataFingerprint far
  /\ correctionTime l = 0
  /\ correctionTime near = 500
  /\ correctionTime far = 9000
  /\ correctionTimeRaw l = None
  /\ detectConflicts (table := listTable) [l] [near]
     = {| autoImport := []; autoReplace := []; batchReview := [];
          conflicts := [ {| incoming := near; local := l;
                            conflictType := CorrectedVsCorrected;
                            isNewerIncoming := false;
                            changedFields :=
                              [ {| field := "score"; localValue := Data (JNum 10);
                                   incomingValue := Data (JNum 12) |} ] |} ] |}
  /\ detectConflicts (table := listTable) [l] [far]
     = {| autoImport := []; autoReplace := []; batchReview := [];
          conflicts := [ {| incoming := far; local := l;
                            conflictType := CorrectedVsCorrected;
                            isNewerIncoming := false;
                            changedFields :=
                              [ {| field := "score"; localValue := Data (JNum 10);
                                   incomingValue := Data (JNum 12) |} ] |} ] |}.
Proof.
  cbv zeta. repeat split; try reflexivity; try (vm_compute; discriminate);
    vm_compute; reflexivity.
Qed.

(** The fingerprint of a record without payload. *)
Lemma fingerprint_no_payload e :
  gameData e = None \/ gameData e = Some [] ->
  generateDataFingerprint e = JS.toString36 2166136261.
Proof.
  intros Hg. unfold generateDataFingerprint, dataString, sortedEntries, gameDataOrEmpty.
  by destruct Hg as [-> | ->].
Qed.

(** C4.  For a matched pair of uncorrected records: equal
    fingerprints put the incoming record in no bucket; different
    fingerprints put it in [batchReview] and in no other bucket. *)
Theorem both_uncorrected (db : T) (incomingData : list ScoutingEntryBase)
    (e l : ScoutingEntryBase) :
  e ∈ incomingData ->
  matchingLocalOf (toArray db) e = Some l ->
  JS.truthyBool (isCorrected l) = false ->
  JS.truthyBool (isCorrected e) = false ->
  (generateDataFingerprint l = generateDataFingerprint e ->
     inNoBucket (detectConflicts db incomingData) e)
  /\ (generateDataFingerprint l <> generateDataFingerprint e ->
        e ∈ batchReview (detectConflicts db incomingData)
        /\ (e ∉ autoImport (detectConflicts db incomingData))
        /\ (e ∉ autoReplace (detectConflicts db incomingData))
        /\ (forall c, c ∈ conflicts (detectConflicts db incomingData) ->
                      incoming c <> e)).
Proof.
  intros He Hm Hl Hi. split; intros Hfp.
  - apply empty_contribution_inNoBucket.
    rewrite (matched_contribution _ _ _ Hm).
    by apply matched_uncorrected_same.
  - eapply batch_contribution_placed; [exact He|].
    rewrite (matched_contribution _ _ _ Hm).
    by apply matched_uncorrected_differ.
Qed.

(** C10.  A record whose [gameData] is absent or the empty object has
    the fingerprint [(2166136261).toString(36)], whatever its other
    fields are; hence a matched pair of such records is discarded as
    already synchronised when both are uncorrected, and also when
    both are corrected with correction times at most 1000 ms apart. *)
Theorem payloadless_records_identical (db : T)
    (incomingData : list ScoutingEntryBase) (e l : ScoutingEntryBase) :
  gameData l = None \/ gameData l = Some [] ->
  gameData e = None \/ gameData e = Some [] ->
  generateDataFingerprint l = JS.toString36 2166136261
  /\ generateDataFingerprint e = JS.toString36 2166136261
  /\ JS.toString36 2166136261 = "ztntfp"
  /\ (e ∈ incomingData ->
      matchingLocalOf (toArray db) e = Some l ->
      (JS.truthyBool (isCorrected l) = false ->
       JS.truthyBool (isCorrected e) = false ->
         inNoBucket (detectConflicts db incomingData) e)
      /\ (JS.truthyBool (isCorrected l) = true ->
          JS.truthyBool (isCorrected e) = true ->
          Z.abs (correctionTime l - correctionTime e) <= 1000 ->
            inNoBucket (detectConflicts db incomingData) e)).
Proof.
  intros Hl He.
  pose proof (fingerprint_no_payload _ Hl) as Fl.
  pose proof (fingerprint_no_payload _ He) as Fe.
  split; [done|]. split; [done|]. split; [reflexivity|].
  intros Hin Hm. split.
  - intros Cl Ce. apply empty_contribution_inNoBucket.
    rewrite (matched_contribution _ _ _ Hm).
    apply matched_uncorrected_same; [done..|]. by rewrite Fl, Fe.
  - intros Cl Ce Ht. apply empty_contribution_inNoBucket.
    rewrite (matched_contribution _ _ _ Hm).
    apply matched_corrected_same_near; [done..| |done]. by rewrite Fl, Fe.
Qed.
End ClassifierFacts.

(* ===================================================================== *)
(** * Properties of the fingerprint *)
(* ===================================================================== *)

Section SortFacts.
Context {collator : Collator} {lawful : LawfulCollator collator}.

Lemma sortInsert_perm x acc : JS.sortInsert byKey x acc ≡ₚ x :: acc.
Proof.
  induction acc as [|y rest IH]; simpl; [done|].
  destruct (byKey x y <? 0); [done|].
  rewrite IH. apply Permutation_swap.
Qed.

Lemma sort_fold_perm l acc :
  fold_left (fun acc x => JS.sortInsert byKey x acc) l acc ≡ₚ l ++ acc.
Proof.
  revert acc. induction l as [|x l IH]; intros acc; simpl; [done|].
  rewrite IH, sortInsert_perm. by rewrite Permutation_middle.
Qed.

Lemma sortInsert_sorted x acc :
  StronglySorted keyBefore acc ->
  (forall y, y ∈ acc -> fst y <> fst x) ->
  StronglySorted keyBefore (JS.sortInsert byKey x acc).
Proof.
  induction acc as [|y rest IH]; intros Hs Hk; simpl.
  - by repeat constructor.
  - apply StronglySorted_cons in Hs as [Hy Hrest].
    destruct (byKey x y <? 0) eqn:Hlt.
    + apply Z.ltb_lt in Hlt. apply StronglySorted_cons. split.
      * constructor; [done|]. apply Forall_forall. intros z Hz.
        rewrite Forall_forall in Hy. unfold keyBefore, byKey in *.
        eapply compare_trans; [exact Hlt | by apply Hy].
      * by apply StronglySorted_cons.
    + apply Z.ltb_ge in Hlt. apply StronglySorted_cons. split.
      * apply Forall_forall. intros z Hz. rewrite sortInsert_perm in Hz.
        apply elem_of_cons in Hz as [-> | Hz].
        -- unfold keyBefore, byKey in *.
           destruct (compare_total (fst y) (fst x)) as [? | ?]; [|done|lia].
           apply Hk. apply list_elem_of_here.
        -- rewrite Forall_forall in Hy. by apply Hy.
      * apply IH; [done|]. intros z Hz. apply Hk. by apply list_elem_of_further.
Qed.

Lemma sort_fold_sorted l :
  forall acc,
    StronglySorted keyBefore acc ->
    NoDup (map fst (l ++ acc)) ->
    StronglySorted keyBefore (fold_left (fun acc x => JS.sortInsert byKey x acc) l acc).
Proof.
  induction l as [|x l IH]; intros acc Hs Hnd; simpl; [done|].
  simpl in Hnd. apply NoDup_cons in Hnd as [Hx Hnd].
  apply IH.
  - apply sortInsert_sorted; [done|]. intros y Hy Heq. apply Hx.
    rewrite <- Heq. apply (list_elem_of_fmap_2 fst). apply elem_of_app. by right.
  - assert (l ++ JS.sortInsert byKey x acc ≡ₚ x :: l ++ acc) as Hp.
    { rewrite sortInsert_perm. by rewrite Permutation_middle. }
    rewrite (fmap_Permutation fst _ _ Hp). simpl. by apply NoDup_cons.
Qed.

(** Sorting by key does not depend on the order in which the
    properties are listed, as long as no key occurs twice. *)
Lemma sort_permutation l1 l2 :
  NoDup (map fst l1) -> l1 ≡ₚ l2 -> JS.sort byKey l1 = JS.sort byKey l2.
Proof.
  intros Hnd Hp. unfold JS.sort.
  apply (StronglySorted_unique_strong keyBefore).
  - intros a b _ _ Hab Hba. exfalso. unfold keyBefore, byKey in *.
    eapply compare_irrefl. eapply compare_trans; [exact Hab | exact Hba].
  - apply sort_fold_sorted; [constructor|]. by rewrite app_nil_r.
  - apply sort_fold_sorted; [constructor|]. rewrite app_nil_r.
    by rewrite <- (fmap_Permutation fst _ _ Hp).
  - by rewrite !sort_fold_perm, !app_nil_r.
Qed.

(** The part of order independence that the code has: the fingerprint
    does not depend on the order of the top-level properties of
    [gameData]. *)
Lemma fingerprint_top_level_order e1 e2 :
  NoDup (map fst (gameDataOrEmpty e1)) ->
  gameDataOrEmpty e1 ≡ₚ gameDataOrEmpty e2 ->
  generateDataFingerprint e1 = generateDataFingerprint e2.
Proof.
  intros Hnd Hp. unfold generateDataFingerprint, dataString, sortedEntries.
  pose proof (sort_permutation _ _ Hnd Hp) as Hs. unfold byKey in Hs.
  by rewrite Hs.
Qed.
End SortFacts.

(** The code-unit collator is lawful. *)
Lemma string_compare_refl a : String.compare a a = Eq.
Proof.
  induction a as [|x a IH]; simpl; [done|].
  unfold Ascii.compare. by rewrite N.compare_refl.
Qed.

Lemma ascii_compare_lt_trans a b c :
  Ascii.compare a b = Lt -> Ascii.compare b c = Lt -> Ascii.compare a c = Lt.
Proof.
  unfold Ascii.compare. rewrite !N.compare_lt_iff. lia.
Qed.

Lemma string_compare_lt_trans a :
  forall b c, String.compare a b = Lt -> String.compare b c = Lt ->
              String.compare a c = Lt.
Proof.
  induction a as [|x a IH]; intros [|y b] [|z c]; simpl; try done.
  destruct (Ascii.compare x y) eqn:Hxy; [| |done].
  - apply Ascii.compare_eq_iff in Hxy as ->.
    destruct (Ascii.compare y z); [apply IH | done | done].
  - destruct (Ascii.compare y z) eqn:Hyz; [| |done].
    + apply Ascii.compare_eq_iff in Hyz as <-. by rewrite Hxy.
    + by rewrite (ascii_compare_lt_trans x y z).
Qed.

Lemma codeUnitCompare_lt a b : codeUnitCompare a b < 0 <-> String.compare a b = Lt.
Proof. unfold codeUnitCompare. destruct (String.compare a b); split; done || lia. Qed.

Lemma codeUnitCollator_lawful : LawfulCollator codeUnitCollator.
Proof.
  split; simpl.
  - intros a. rewrite codeUnitCompare_lt. by rewrite string_compare_refl.
  - intros a b c. rewrite !codeUnitCompare_lt. apply string_compare_lt_trans.
  - intros a b Hne. rewrite !codeUnitCompare_lt.
    destruct (String.compare a b) eqn:Hab.
    + by apply String.compare_eq_iff in Hab.
    + by left.
    + right. rewrite String.compare_antisym, Hab. done.
Qed.

(** The example of the specification: [{a: {b: 1}, c: 2}] has the same
    fingerprint in both key orders. *)
Lemma fingerprint_example_order :
  generateDataFingerprint (collator := codeUnitCollator)
    (Fixtures.entry "x" None None (Some [("a", JObj [("b", JNum 1)]); ("c", JNum 2)]))
  = generateDataFingerprint (collator := codeUnitCollator)
      (Fixtures.entry "x" None None (Some [("c", JNum 2); ("a", JObj [("b", JNum 1)])])).
Proof.
  apply (fingerprint_top_level_order (lawful := codeUnitCollator_lawful)).
  - simpl. apply NoDup_cons. split; [set_solver|]. apply NoDup_singleton.
  - simpl. apply Permutation_swap.
Qed.

Section NestedOrder.
Context {collator : Collator} {engine : Engine}.

(** C2 on a concrete pair.  Two records whose payloads are
    [{a: {b: 1, c: 2}}] and [{a: {c: 2, b: 1}}], the same object up to
    the key order of the nested object, get different fingerprints
    under every collator, although [computeChangedFields] finds no
    changed field between them; the classifier pairs them and, both
    being uncorrected, sends the incoming one to [batchReview]. *)
Theorem fingerprint_nested_key_order :
  let l := Fixtures.entry "e::qm1::100::red" None None
             (Some [("a", JObj [("b", JNum 1); ("c", JNum 2)])]) in
  let e := Fixtures.entry "b7" None None
             (Some [("a", JObj [("c", JNum 2); ("b", JNum 1)])]) in
  generateDataFingerprint l = "usc1og"
  /\ generateDataFingerprint e = "3f4gu4"
  /\ computeChangedFields l e = []
  /\ matchingLocalOf [l] e = Some l
  /\ batchReview (detectConflicts (table := listTable) [l] [e]) = [e].
Proof.
  intros l e. repeat split; by vm_compute.
Qed.
End NestedOrder.

(* ===================================================================== *)
(** * Instances of the classifier theorems *)
(* ===================================================================== *)

Lemma correction_precedence_witness :
  conflictRecorded
    (Fixtures.classify [Fixtures.localCorrected] [Fixtures.incomingUncorrected])
    Fixtures.incomingUncorrected Fixtures.localCorrected CorrectedVsUncorrected false
  /\ Fixtures.incomingCorrected
     ∈ autoReplace (Fixtures.classify [Fixtures.localUncorrected] [Fixtures.incomingCorrected]).
Proof.
  split.
  - apply (correction_precedence (collator := codeUnitCollator) (engine := standardEngine)
             (table := listTable)
             [Fixtures.localCorrected] [Fixtures.incomingUncorrected]
             Fixtures.incomingUncorrected Fixtures.localCorrected);
      [apply list_elem_of_here | vm_compute; reflexivity | reflexivity | reflexivity].
  - apply (correction_precedence (collator := codeUnitCollator) (engine := standardEngine)
             (table := listTable)
             [Fixtures.localUncorrected] [Fixtures.incomingCorrected]
             Fixtures.incomingCorrected Fixtures.localUncorrected);
      [apply list_elem_of_here | vm_compute; reflexivity | reflexivity | reflexivity].
Defined.

Lemma both_corrected_witness :
  inNoBucket (Fixtures.classify [Fixtures.localCorrected] [Fixtures.incomingCorrectedSame])
             Fixtures.incomingCorrectedSame
  /\ Fixtures.incomingCorrected
     ∈ autoReplace (Fixtures.classify [Fixtures.localCorrected] [Fixtures.incomingCorrected])
  /\ conflictRecorded
       (Fixtures.classify [Fixtures.localCorrected] [Fixtures.incomingCorrectedLate])
       Fixtures.incomingCorrectedLate Fixtures.localCorrected CorrectedVsCorrected true.
Proof.
  split; [|split].
  - apply (both_corrected (collator := codeUnitCollator) (engine := standardEngine)
             (table := listTable)
             [Fixtures.localCorrected] [Fixtures.incomingCorrectedSame]
             Fixtures.incomingCorrectedSame Fixtures.localCorrected);
      [apply list_elem_of_here | vm_compute; reflexivity | reflexivity | reflexivity
      | vm_compute; reflexivity | vm_compute; discriminate].
  - apply (both_corrected (collator := codeUnitCollator) (engine := standardEngine)
             (table := listTable)
             [Fixtures.localCorrected] [Fixtures.incomingCorrected]
             Fixtures.incomingCorrected Fixtures.localCorrected);
      [apply list_elem_of_here | vm_compute; reflexivity | reflexivity | reflexivity
      | by eexists | vm_compute; discriminate | vm_compute; discriminate].
  - apply (both_corrected (collator := codeUnitCollator) (engine := standardEngine)
             (table := listTable)
             [Fixtures.localCorrected] [Fixtures.incomingCorrectedLate]
             Fixtures.incomingCorrectedLate Fixtures.localCorrected);
      [apply list_elem_of_here | vm_compute; reflexivity | reflexivity | reflexivity
      | by eexists | vm_compute; discriminate | vm_compute; reflexivity].
Defined.

Lemma both_uncorrected_witness :
  inNoBucket (Fixtures.classify [Fixtures.localUncorrected] [Fixtures.incomingSame])
             Fixtures.incomingSame
  /\ Fixtures.incomingUncorrected
     ∈ batchReview (Fixtures.classify [Fixtures.localUncorrected]
                                      [Fixtures.incomingUncorrected]).
Proof.
  split.
  - apply (both_uncorrected (collator := codeUnitCollator) (engine := standardEngine)
             (table := listTable)
             [Fixtures.localUncorrected] [Fixtures.incomingSame]
             Fixtures.incomingSame Fixtures.localUncorrected);
      [apply list_elem_of_here | vm_compute; reflexivity | reflexivity | reflexivity
      | vm_compute; reflexivity].
  - apply (both_uncorrected (collator := codeUnitCollator) (engine := standardEngine)
             (table := listTable)
             [Fixtures.localUncorrected] [Fixtures.incomingUncorrected]
             Fixtures.incomingUncorrected Fixtures.localUncorrected);
      [apply list_elem_of_here | vm_compute; reflexivity | reflexivity | reflexivity
      | vm_compute; discriminate].
Defined.

Lemma payloadless_records_identical_witness :
  generateDataFingerprint (collator := codeUnitCollator) Fixtures.localBare = "ztntfp"
  /\ generateDataFingerprint (collator := codeUnitCollator) Fixtures.incomingBare = "ztntfp"
  /\ inNoBucket (Fixtures.classify [Fixtures.localBare] [Fixtures.incomingBare])
                Fixtures.incomingBare.
Proof.
  destruct (payloadless_records_identical (collator := codeUnitCollator)
              (engine := standardEngine) (table := listTable) [Fixtures.localBare] [Fixtures.incomingBare]
              Fixtures.incomingBare Fixtures.localBare
              (or_introl eq_refl) (or_intror eq_refl)) as (Fl & Fe & _ & Hc).
  split; [exact Fl|]. split; [exact Fe|].
  refine (proj1 (Hc _ _) _ _);
    [apply list_elem_of_here | vm_compute; reflexivity | reflexivity | reflexivity].
Defined.

(* ===================================================================== *)
(** * Properties of the upload handler *)
(* ===================================================================== *)

Section UploadFacts.
Context {collator : Collator} {engine : Engine} {T : Type} {table : Table T}.

(** C8.  On a refused input the handler, in every mode, shows one error
    toast, returns [{hasConflicts: false}] and hands back the table it
    was given: no table operation is applied. *)
Theorem upload_rejects_malformed (jsonData : JsonData) (mode : UploadMode) (db : T) :
  refused jsonData ->
  exists message,
    (message = "Invalid scouting data format. Expected { entries: ScoutingEntryBase[] }"
     \/ message = "No valid scouting data found")
    /\ handleScoutingDataUpload jsonData mode db
       = ({| hasConflicts := false; hasBatchReview := None; batchReviewEntries := None;
             uploadConflicts := None; autoProcessed := None |},
          db, [ToastError message]).
Proof.
  intros [Hshape | ->].
  - destruct jsonData as [|[| |entries]]; simpl; eauto.
    by destruct (Hshape entries).
  - simpl. eauto.
Qed.
End UploadFacts.

Lemma upload_rejects_malformed_witness :
  (exists message,
     handleScoutingDataUpload (collator := codeUnitCollator) (engine := standardEngine)
             (table := listTable)
       NotAnObject SmartMerge [Fixtures.localCorrected]
     = (plainResult false, [Fixtures.localCorrected], [ToastError message]))
  /\ (exists message,
        handleScoutingDataUpload (collator := codeUnitCollator) (engine := standardEngine)
             (table := listTable)
          (AnObject (EntriesArray [])) Overwrite [Fixtures.localCorrected]
        = (plainResult false, [Fixtures.localCorrected], [ToastError message])).
Proof.
  split.
  - destruct (upload_rejects_malformed (collator := codeUnitCollator) (engine := standardEngine)
             (table := listTable)
                NotAnObject SmartMerge [Fixtures.localCorrected]) as (message & _ & Heq).
    + left. intros entries. discriminate.
    + exists message. exact Heq.
  - destruct (upload_rejects_malformed (collator := codeUnitCollator) (engine := standardEngine)
             (table := listTable)
                (AnObject (EntriesArray [])) Overwrite [Fixtures.localCorrected])
      as (message & _ & Heq).
    + right. reflexivity.
    + exists message. exact Heq.
Defined.

(* ===================================================================== *)
(** * Properties of the resolution workflow *)
(* ===================================================================== *)

Section WorkflowFacts.
Context {T : Type} {table : Table T}.

Lemma handleUndo_empty s : resolutionHistory s = [] -> handleUndo s = s.
Proof. intros Hh. unfold handleUndo. by rewrite Hh. Qed.

Lemma handleUndo_snoc s h e c :
  resolutionHistory s = h ++ [e] ->
  currentConflicts s !! index e = Some c ->
  handleUndo s
  = {| showConflictDialog := showConflictDialog s;
       currentConflicts := currentConflicts s;
       currentConflictIndex := index e;
       conflictResolutions := base.delete (getConflictKey c) (conflictResolutions s);
       resolutionHistory := h;
       isProcessing := isProcessing s |}.
Proof.
  intros Hh Hc. unfold handleUndo. rewrite Hh, last_snoc, Hc.
  by rewrite removelast_last.
Qed.

Lemma apply_resets m s (db : T) :
  fst (fst (applyConflictResolutions m s db)) = resetState s.
Proof.
  unfold applyConflictResolutions.
  by destruct (fold_left _ _ _) as [[? ?] ?].
Qed.

Lemma sessionInv_start cs : sessionInv cs (startSession cs).
Proof. left. simpl. auto. Qed.

Lemma sessionInv_reset cs s : sessionInv cs (resetState s).
Proof. left. simpl. auto. Qed.

Lemma sessionInv_resolve cs s (db : T) a :
  sessionInv cs s -> sessionInv cs (fst (resolveStep (s, db) a)).
Proof.
  intros Hinv. unfold resolveStep, handleConflictResolution. simpl.
  destruct (currentConflicts s !! currentConflictIndex s) as [c|] eqn:Hc; [|done].
  simpl.
  destruct (Z.of_nat (currentConflictIndex s) <? lengthZ (currentConflicts s) - 1) eqn:Hlt.
  - simpl. apply Z.ltb_lt in Hlt. unfold lengthZ in Hlt. right.
    assert (currentConflicts s = cs) as Hcs.
    { destruct Hinv as [(_ & _ & _ & [Hn | Hn]) | (Hn & _)]; [|done..].
      rewrite Hn in Hc. by rewrite lookup_nil in Hc. }
    assert (currentConflictIndex s = length (resolutionHistory s)) as Hidx.
    { destruct Hinv as [(Hh & Hi & _) | (_ & Hi & _)]; [|done].
      by rewrite Hh, Hi. }
    assert (forall j e, resolutionHistory s !! j = Some e -> index e = j) as Hord.
    { destruct Hinv as [(Hh & _) | (_ & _ & _ & Ho & _)]; [|done].
      intros j e. rewrite Hh. by rewrite lookup_nil. }
    assert (forall key a', conflictResolutions s !! key = Some a' ->
              exists j c', (j < length (resolutionHistory s))%nat
                           /\ cs !! j = Some c' /\ getConflictKey c' = key) as Hdom.
    { destruct Hinv as [(_ & _ & He & _) | (_ & _ & _ & _ & Hd)]; [|done].
      intros key a'. rewrite He. by rewrite lookup_empty. }
    rewrite Hcs in *. simpl. repeat split.
    + rewrite length_app. simpl. lia.
    + rewrite length_app. simpl. lia.
    + intros j e Hj. apply lookup_snoc_Some in Hj as [[_ Hj] | [Hj <-]].
      * by apply Hord.
      * simpl. lia.
    + intros key a' Hk. rewrite length_app. simpl.
      destruct (decide (getConflictKey c = key)) as [<- | Hne].
      * exists (currentConflictIndex s), c. repeat split; [lia | done].
      * rewrite lookup_insert_ne in Hk by done.
        destruct (Hdom _ _ Hk) as (j & c' & Hj & Hc' & Hkey).
        exists j, c'. repeat split; [lia | done..].
  - destruct (applyConflictResolutions _ _ db) as [[s' db'] ts] eqn:Happ.
    simpl. pose proof (apply_resets
      (Some (<[getConflictKey c:=a]> (conflictResolutions s)))
      {| showConflictDialog := showConflictDialog s;
         currentConflicts := currentConflicts s;
         currentConflictIndex := currentConflictIndex s;
         conflictResolutions := <[getConflictKey c:=a]> (conflictResolutions s);
         resolutionHistory :=
           resolutionHistory s ++ [{| index := currentConflictIndex s; action := a |}];
         isProcessing := isProcessing s |} db) as Hr.
    rewrite Happ in Hr. simpl in Hr. rewrite Hr. apply sessionInv_reset.
Qed.

Lemma sessionInv_undo cs s :
  sessionInv cs s -> sessionInv cs (handleUndo s).
Proof.
  intros Hinv. destruct Hinv as [(Hh & Hrest) | (Hcs & Hidx & Hlen & Hord & Hdom)].
  - rewrite handleUndo_empty by done. by left.
  - destruct (resolutionHistory s) as [|e0 h0] eqn:Hh using rev_ind.
    + rewrite handleUndo_empty by done. right. by rewrite Hh.
    + clear IHh0. rewrite length_app in Hlen. simpl in Hlen.
      assert (index e0 = length h0) as He0.
      { apply Hord. by rewrite lookup_app_r, Nat.sub_diag. }
      destruct (lookup_lt_is_Some_2 cs (length h0)) as [c Hc]; [lia|].
      rewrite (handleUndo_snoc s h0 e0 c Hh) by (by rewrite Hcs, He0).
      right. simpl. repeat split; [done | done | lia | |].
      * intros j e Hj. apply Hord. by apply lookup_app_l_Some.
      * intros key a Hk.
        destruct (decide (getConflictKey c = key)) as [<- | Hne].
        { by rewrite lookup_delete_eq in Hk. }
        rewrite lookup_delete_ne in Hk by done.
        destruct (Hdom _ _ Hk) as (j & c' & Hj & Hc' & Hkey).
        rewrite length_app in Hj. simpl in Hj.
        exists j, c'. repeat split; [|done..].
        destruct (decide (j = length h0)) as [-> | ?]; [|lia].
        rewrite Hc in Hc'. congruence.
Qed.

Lemma history_resolve s (db : T) a :
  (length (resolutionHistory (fst (resolveStep (s, db) a)))
   <= S (length (resolutionHistory s)))%nat.
Proof.
  unfold resolveStep, handleConflictResolution. simpl.
  destruct (currentConflicts s !! currentConflictIndex s) as [c|]; [|simpl; lia].
  simpl. destruct (_ <? _).
  - simpl. rewrite length_app. simpl. lia.
  - destruct (applyConflictResolutions _ _ db) as [[s' db'] ts] eqn:Happ.
    simpl. pose proof (apply_resets
      (Some (<[getConflictKey c:=a]> (conflictResolutions s)))
      {| showConflictDialog := showConflictDialog s;
         currentConflicts := currentConflicts s;
         currentConflictIndex := currentConflictIndex s;
         conflictResolutions := <[getConflictKey c:=a]> (conflictResolutions s);
         resolutionHistory :=
           resolutionHistory s ++ [{| index := currentConflictIndex s; action := a |}];
         isProcessing := isProcessing s |} db) as Hr.
    rewrite Happ in Hr. simpl in Hr. rewrite Hr. simpl. lia.
Qed.

Lemma history_undo cs s :
  sessionInv cs s ->
  length (resolutionHistory (handleUndo s)) = pred (length (resolutionHistory s)).
Proof.
  intros [(Hh & _) | (Hcs & Hidx & Hlen & Hord & _)].
  - rewrite handleUndo_empty by done. by rewrite Hh.
  - destruct (resolutionHistory s) as [|e0 h0] eqn:Hh using rev_ind.
    + rewrite handleUndo_empty by done. by rewrite Hh.
    + clear IHh0. rewrite length_app in Hlen. simpl in Hlen.
      assert (index e0 = length h0) as He0.
      { apply Hord. by rewrite lookup_app_r, Nat.sub_diag. }
      destruct (lookup_lt_is_Some_2 cs (length h0)) as [c Hc]; [lia|].
      rewrite (handleUndo_snoc s h0 e0 c Hh) by (by rewrite Hcs, He0).
      simpl. rewrite length_app. simpl. lia.
Qed.

Lemma resolves_inv cs acts (sd : HookState * T) :
  sessionInv cs (fst sd) ->
  sessionInv cs (fst (fold_left resolveStep acts sd))
  /\ (length (resolutionHistory (fst (fold_left resolveStep acts sd)))
      <= length (resolutionHistory (fst sd)) + length acts)%nat.
Proof.
  revert sd. induction acts as [|a acts IH]; intros [s db] Hinv; simpl.
  - split; [done | lia].
  - destruct (IH (resolveStep (s, db) a)) as [Hi Hl].
    { by apply sessionInv_resolve. }
    split; [done|]. pose proof (history_resolve s db a). simpl in *. lia.
Qed.

Lemma ops_inv cs ops (sd : HookState * T) :
  sessionInv cs (fst sd) -> sessionInv cs (fst (fold_left stepOp ops sd)).
Proof.
  revert sd. induction ops as [|op ops IH]; intros [s db] Hinv; simpl; [done|].
  apply IH. destruct op as [a|]; simpl.
  - by apply sessionInv_resolve.
  - by apply sessionInv_undo.
Qed.

Lemma undos_inv cs n s :
  sessionInv cs s ->
  sessionInv cs (Nat.iter n handleUndo s)
  /\ length (resolutionHistory (Nat.iter n handleUndo s))
     = (length (resolutionHistory s) - n)%nat.
Proof.
  intros Hinv. induction n as [|n [IHi IHl]]; simpl.
  - split; [done | lia].
  - split; [by apply sessionInv_undo|].
    rewrite (history_undo cs) by done. lia.
Qed.

Lemma sessionInv_rewound cs s :
  sessionInv cs s -> resolutionHistory s = [] ->
  currentConflictIndex s = 0%nat /\ conflictResolutions s = ∅.
Proof.
  intros [(_ & Hi & He & _) | (_ & Hi & _ & _ & Hd)] Hh; [done|].
  rewrite Hh in *. split; [done|].
  apply map_empty. intros key.
  destruct (conflictResolutions s !! key) as [a|] eqn:Hk; [|done].
  destruct (Hd _ _ Hk) as (j & _ & Hj & _). simpl in Hj. lia.
Qed.

(** C9.  In a review session over any conflict list: resolving [N]
    conflicts one at a time and then undoing [N] times leaves
    [currentConflictIndex] at 0 and [conflictResolutions] empty; an
    undo on an empty history changes nothing; and in every state that
    a session reaches, an undo removes the last history entry, deletes
    the decision of the conflict at that entry's index and moves
    [currentConflictIndex] back to that index. *)
Theorem undo_round_trip (cs : list ConflictInfo) (db : T) :
  (forall acts : list Action,
     let s := fst (fold_left resolveStep acts (startSession cs, db)) in
     let s' := Nat.iter (length acts) handleUndo s in
     currentConflictIndex s' = 0%nat /\ conflictResolutions s' = ∅)
  /\ (forall s, resolutionHistory s = [] -> handleUndo s = s)
  /\ (forall (ops : list Op) (h : list HistoryEntry) (e : HistoryEntry),
        let s := fst (fold_left stepOp ops (startSession cs, db)) in
        resolutionHistory s = h ++ [e] ->
        exists c,
          currentConflicts s !! index e = Some c
          /\ handleUndo s
             = {| showConflictDialog := showConflictDialog s;
                  currentConflicts := currentConflicts s;
                  currentConflictIndex := index e;
                  conflictResolutions :=
                    base.delete (getConflictKey c) (conflictResolutions s);
                  resolutionHistory := h;
                  isProcessing := isProcessing s |}).
Proof.
  split; [|split].
  - intros acts s s'.
    destruct (resolves_inv cs acts (startSession cs, db) (sessionInv_start cs))
      as [Hinv Hlen].
    fold s in Hinv, Hlen. simpl in Hlen.
    destruct (undos_inv cs (length acts) s Hinv) as [Hinv' Hlen'].
    fold s' in Hinv', Hlen'.
    apply (sessionInv_rewound cs); [done|].
    apply length_zero_iff_nil. lia.
  - apply handleUndo_empty.
  - intros ops h e s Hh.
    pose proof (ops_inv cs ops (startSession cs, db) (sessionInv_start cs)) as Hinv.
    fold s in Hinv.
    destruct Hinv as [(Hn & _) | (Hcs & _ & Hlen & Hord & _)].
    + rewrite Hn in Hh. by destruct h.
    + rewrite Hh, length_app in Hlen. simpl in Hlen.
      assert (index e = length h) as He.
      { apply Hord. by rewrite Hh, lookup_app_r, Nat.sub_diag. }
      destruct (lookup_lt_is_Some_2 cs (length h)) as [c Hc]; [lia|].
      exists c. split; [by rewrite Hcs, He|].
      apply handleUndo_snoc; [done|]. by rewrite Hcs, He.
Qed.
End WorkflowFacts.

Lemma undo_round_trip_witness :
  (let s := fst (fold_left (resolveStep (table := listTable)) [Replace; Skip]
                           (startSession Fixtures.threeConflicts, [])) in
   currentConflictIndex s = 2%nat
   /\ currentConflictIndex (handleUndo s) = 1%nat
   /\ currentConflictIndex (handleUndo (handleUndo s)) = 0%nat
   /\ conflictResolutions (handleUndo (handleUndo s)) = ∅)
  /\ (let s := fst (fold_left (stepOp (table := listTable))
                              [OpResolve Replace; OpResolve Skip]
                              (startSession Fixtures.threeConflicts, [])) in
      exists c,
        currentConflicts s !! 1%nat = Some c
        /\ resolutionHistory (handleUndo s) = [ {| index := 0; action := Replace |} ]
        /\ conflictResolutions (handleUndo s)
           = base.delete (getConflictKey c) (conflictResolutions s)).
Proof.
  pose proof (undo_round_trip (table := listTable) Fixtures.threeConflicts [])
    as (Hround & _ & Hpop).
  split.
  - split; [reflexivity|]. split; [reflexivity|].
    exact (Hround [Replace; Skip]).
  - destruct (Hpop [OpResolve Replace; OpResolve Skip]
                   [ {| index := 0; action := Replace |} ]
                   {| index := 1; action := Skip |} eq_refl) as (c & Hc & Hu).
    exists c. split; [exact Hc|]. rewrite Hu. split; reflexivity.
Defined.

(* ===================================================================== *)
(** * Properties of the signaling relay *)
(* ===================================================================== *)

Module RelayFacts.
Import Relay RelayRun.

Lemma shouldInclude_eligible p msg :
  shouldInclude p msg = true <-> eligible p msg.
Proof.
  unfold shouldInclude, eligible, delivered, untargeted.
  rewrite !andb_true_iff, !negb_true_iff, andb_false_iff, negb_false_iff.
  rewrite !bool_decide_eq_false, bool_decide_eq_true.
  destruct (deliveredTo msg) as [d|].
  - rewrite bool_decide_eq_false. tauto.
  - intuition.
Qed.

Lemma markDelivered_delivered p msg : delivered p (markDelivered p msg).
Proof. unfold delivered, markDelivered; simpl. destruct (deliveredTo msg); set_solver. Qed.

Lemma markDelivered_keeps p q msg : delivered q msg -> delivered q (markDelivered p msg).
Proof. unfold delivered, markDelivered; simpl. destruct (deliveredTo msg); set_solver. Qed.

Lemma markDelivered_inv p q msg :
  delivered q (markDelivered p msg) -> q = p \/ delivered q msg.
Proof. unfold delivered, markDelivered; simpl. destruct (deliveredTo msg); set_solver. Qed.

Lemma markDelivered_stored p msg : stored (markDelivered p msg) = stored msg.
Proof. done. Qed.

Lemma markDelivered_idem p msg :
  markDelivered p (markDelivered p msg) = markDelivered p msg.
Proof.
  unfold markDelivered; simpl. f_equal. f_equal.
  destruct (deliveredTo msg); set_solver.
Qed.

Lemma markAll_lookup p refs h ref :
  markAll p refs h !! ref
  = if decide (ref ∈ refs) then markDelivered p <$> h !! ref else h !! ref.
Proof.
  revert h. induction refs as [|r refs IH]; intros h.
  - unfold markAll. cbn [fold_left].
    destruct (decide (ref ∈ [])) as [Hin|]; [by apply elem_of_nil in Hin | done].
  - change (markAll p (r :: refs) h)
      with (markAll p refs (alter (markDelivered p) r h)).
    rewrite IH. destruct (decide (ref = r)) as [-> | Hne].
    + rewrite lookup_alter_eq.
      destruct (decide (r ∈ r :: refs)) as [_ | Hn];
        [|destruct Hn; apply list_elem_of_here].
      case_decide; [|done].
      destruct (h !! r); simpl; [|done]. by rewrite markDelivered_idem.
    + rewrite lookup_alter_ne by done.
      destruct (decide (ref ∈ refs)) as [Hin | Hin];
        destruct (decide (ref ∈ r :: refs)) as [Hin' | Hin']; try done.
      * destruct Hin'. by apply list_elem_of_further.
      * apply elem_of_cons in Hin' as [? | ?]; done.
Qed.

(** The GET branch on an existing room, in one equation. *)
Lemma handler_poll now event rid p st room :
  isPoll event rid p ->
  rooms st !! rid = Some room ->
  let returned :=
    filter (fun ref => holds (heap st) (shouldInclude p) ref) (Room.messages room) in
  let heap' := markAll p returned (heap st) in
  let room' :=
    setMessages (filter (fun ref => holds heap' (shouldKeep room) ref)
                        (Room.messages room)) room in
  handler now event st
  = ({| statusCode := 200; responseBody := Messages returned (summaryOf room' true) |},
     {| rooms := <[rid := room']> (rooms st); heap := heap'; nextRef := nextRef st |}).
Proof.
  intros (Hpath & Hm & Hr & Hp & Hrid & Hpid) Hroom. unfold handler, signalPath in *.
  rewrite Hpath, Hm. simpl. unfold get. rewrite Hr, Hp.
  apply String.eqb_neq in Hrid, Hpid. rewrite Hrid, Hpid. simpl.
  by rewrite Hroom.
Qed.

(** The POST branch for a message that is not a ping, in one equation. *)
Lemma handler_post now event message rid p st :
  isPost event message rid p ->
  type message <> Some Ping ->
  handler now event st
  = let '(room, st') := handleType now message p (roomOrNew now rid st) st in
    ({| statusCode := 200; responseBody := Success (summaryOf room false) |},
     putRoom rid room st').
Proof.
  intros (Hpath & Hm & Hb & Hr & Hp & Hrid & Hpid) Hty. unfold handler, signalPath in *.
  rewrite Hpath, Hm. simpl. unfold post. rewrite Hb.
  rewrite bool_decide_eq_false_2 by done. rewrite Hr, Hp.
  apply String.eqb_neq in Hrid, Hpid. rewrite Hrid, Hpid. simpl.
  unfold roomOrNew. by destruct (rooms st !! rid).
Qed.

Lemma handleType_enqueued now message p room st :
  enqueued (type message) = true ->
  exists room',
    handleType now message p room st
    = (room', {| rooms := rooms st;
                 heap := <[nextRef st := stored message]> (heap st);
                 nextRef := S (nextRef st) |})
    /\ Room.messages room' = Room.messages room ++ [nextRef st].
Proof.
  unfold handleType, enqueued, pushMessage.
  destruct (type message) as [[]|]; try done; intros _.
  4: destruct (role message) as [[]|].
  all: eexists; split; [reflexivity | done].
Qed.

Lemma handleType_not_enqueued now message p room st :
  enqueued (type message) = false ->
  exists room',
    handleType now message p room st = (room', st)
    /\ Room.messages room' = Room.messages room.
Proof.
  unfold handleType, enqueued.
  destruct (type message) as [[]|]; try done; intros _.
  1: destruct (role message) as [[]|].
  all: eexists; split; [reflexivity | done].
Qed.

Lemma queueOf_putRoom rid room st : queueOf (putRoom rid room st) rid = Room.messages room.
Proof. unfold queueOf, putRoom; simpl. by rewrite lookup_insert_eq. Qed.

Lemma queueOf_roomOrNew now rid st :
  Room.messages (roomOrNew now rid st) = queueOf st rid.
Proof. unfold roomOrNew, queueOf. by destruct (rooms st !! rid). Qed.

(** C7, as the code has it.  A POST of type join, offer, answer or
    ice-candidate that carries a room id and a peer id appends the
    message, with an empty [deliveredTo] set, to the queue of the room,
    which grows by exactly one; a POST of type leave leaves the queue
    and the stored messages as they were. *)
Theorem post_appends_message (now : Z) (event : HandlerEvent)
    (message : SignalingMessage) (rid p : string) (st : State) :
  isPost event message rid p ->
  let st' := snd (handler now event st) in
  (enqueued (type message) = true ->
     queueOf st' rid = queueOf st rid ++ [nextRef st]
     /\ heap st' !! nextRef st = Some (stored message)
     /\ deliveredTo (stored message) = Some ∅
     /\ length (queueOf st' rid) = S (length (queueOf st rid)))
  /\ (type message = Some Leave ->
        queueOf st' rid = queueOf st rid /\ heap st' = heap st).
Proof.
  intros Hpost st'. split.
  - intros Hty.
    assert (type message <> Some Ping) as Hping by (intros E; by rewrite E in Hty).
    subst st'. rewrite (handler_post _ _ _ _ _ _ Hpost Hping).
    destruct (handleType_enqueued now message p (roomOrNew now rid st) st Hty)
      as (room' & -> & Hq).
    simpl. rewrite queueOf_putRoom, Hq, queueOf_roomOrNew.
    repeat split; [by rewrite lookup_insert_eq|].
    rewrite length_app. simpl. lia.
  - intros Hty.
    assert (type message <> Some Ping) as Hping by (by rewrite Hty).
    subst st'. rewrite (handler_post _ _ _ _ _ _ Hpost Hping).
    destruct (handleType_not_enqueued now message p (roomOrNew now rid st) st)
      as (room' & -> & Hq); [by rewrite Hty|].
    simpl. by rewrite queueOf_putRoom, Hq, queueOf_roomOrNew.
Qed.

Lemma isPost_postOf message rid p :
  roomId message = Some rid -> peerId message = Some p ->
  rid <> EmptyString -> p <> EmptyString ->
  isPost (postOf message) message rid p.
Proof. intros. by repeat split. Qed.

Lemma isPoll_pollOf rid p :
  rid <> EmptyString -> p <> EmptyString -> isPoll (pollOf rid p) rid p.
Proof. intros. by repeat split. Qed.

(** C7, as the specification states it, fails for a leave: the request
    is not a ping and carries a room id and a peer id, yet the queue of
    the room keeps its length. *)
Lemma post_leave_not_enqueued :
  isPost (postOf leaveOfB) leaveOfB "room" "B"
  /\ type leaveOfB <> Some Ping
  /\ queueOf afterOffer "room" = [0%nat]
  /\ queueOf (snd (handler 1 (postOf leaveOfB) afterOffer)) "room" = [0%nat]
  /\ length (queueOf (snd (handler 1 (postOf leaveOfB) afterOffer)) "room")
     <> S (length (queueOf afterOffer "room")).
Proof.
  split; [by apply isPost_postOf|]. split; [done|].
  split; [by vm_compute|]. split; [by vm_compute|]. by vm_compute.
Qed.

Lemma post_appends_message_witness :
  queueOf afterOffer "room" = queueOf initialState "room" ++ [0%nat]
  /\ heap afterOffer !! 0%nat = Some (stored offerAtoB)
  /\ queueOf (snd (handler 1 (postOf leaveOfB) afterOffer)) "room"
     = queueOf afterOffer "room".
Proof.
  pose proof (post_appends_message 0 (postOf offerAtoB) offerAtoB "room" "A" initialState)
    as [Hpush _]; [by apply isPost_postOf|].
  pose proof (post_appends_message 1 (postOf leaveOfB) leaveOfB "room" "B" afterOffer)
    as [_ Hleave]; [by apply isPost_postOf|].
  destruct (Hpush eq_refl) as (Hq & Hh & _).
  destruct (Hleave eq_refl) as (Hq' & _).
  split; [exact Hq|]. split; [exact Hh|]. exact Hq'.
Defined.

(** The clean-up keeps a message that is not a join as long as its
    [deliveredTo] set has at most one element. *)
Lemma shouldKeep_other room msg d :
  deliveredTo msg = Some d ->
  type msg <> Some Join ->
  shouldKeep room msg = (Z.of_nat (size d) <=? 1).
Proof.
  intros Hd Hty. unfold shouldKeep. rewrite Hd.
  by rewrite !bool_decide_eq_false_2 by done.
Qed.

(** X26.  The first delivery of an offer, answer or ice-candidate message
    does not remove it: the poll that returns it also keeps it in the
    queue, its [deliveredTo] set having just one element. *)
Lemma first_delivery_kept now event rid p st room ref msg :
  isPoll event rid p ->
  rooms st !! rid = Some room ->
  ref ∈ Room.messages room ->
  heap st !! ref = Some msg ->
  type msg <> Some Join ->
  deliveredTo msg = Some ∅ ->
  eligible p msg ->
  ref ∈ returned (fst (handler now event st))
  /\ ref ∈ queueOf (snd (handler now event st)) rid.
Proof.
  intros Hpoll Hroom Hin Hmsg Hty Hd Hel.
  rewrite (handler_poll now event rid p st room Hpoll Hroom). simpl.
  assert (ref ∈ filter (fun ref => holds (heap st) (shouldInclude p) ref)
                       (Room.messages room)) as Hret.
  { apply list_elem_of_filter. split; [|done]. unfold holds. rewrite Hmsg.
    apply Is_true_true. by apply shouldInclude_eligible. }
  split; [done|].
  unfold queueOf. simpl. rewrite lookup_insert_eq. simpl.
  apply list_elem_of_filter. split; [|done]. unfold holds.
  rewrite markAll_lookup, decide_True by done. rewrite Hmsg. simpl.
  apply Is_true_true.
  rewrite (shouldKeep_other _ _ ({[p]})); [| |done].
  - rewrite size_singleton. done.
  - unfold markDelivered. simpl. rewrite Hd. f_equal. set_solver.
Qed.

(** C6 on a concrete run.  Lead ["A"] posts an offer for scout ["B"];
    the next poll of ["B"] returns it, marks it delivered to ["B"] and
    nevertheless keeps it in the queue of the room; it is still there
    after further polls of ["B"] and of a third peer ["C"]. *)
Theorem delivered_offer_stays_queued :
  let poll1 := handler 1 (pollOf "room" "B") afterOffer in
  let poll2 := handler 2 (pollOf "room" "C") (snd poll1) in
  let poll3 := handler 3 (pollOf "room" "B") (snd poll2) in
  queueOf afterOffer "room" = [0%nat]
  /\ returned (fst poll1) = [0%nat]
  /\ (exists msg, heap (snd poll1) !! 0%nat = Some msg
                  /\ type msg = Some Offer /\ peerId msg = Some "A"
                  /\ deliveredTo msg = Some {["B"]})
  /\ queueOf (snd poll1) "room" = [0%nat]
  /\ returned (fst poll2) = [] /\ queueOf (snd poll2) "room" = [0%nat]
  /\ returned (fst poll3) = [] /\ queueOf (snd poll3) "room" = [0%nat].
Proof.
  repeat split; try (by vm_compute).
  eexists. split; [by vm_compute|]. repeat split; by vm_compute.
Qed.

(** ** Runs of the relay *)

Lemma grows_refl h : grows h h.
Proof. intros ref msg Hm. by exists msg. Qed.

Lemma grows_trans h1 h2 h3 : grows h1 h2 -> grows h2 h3 -> grows h1 h3.
Proof.
  intros H12 H23 ref msg Hm.
  destruct (H12 _ _ Hm) as (m2 & Hm2 & Hs2 & Hd2).
  destruct (H23 _ _ Hm2) as (m3 & Hm3 & Hs3 & Hd3).
  exists m3. split; [done|]. split; [congruence | auto].
Qed.

Lemma markAll_grows p refs h : grows h (markAll p refs h).
Proof.
  intros ref msg Hm. rewrite markAll_lookup, Hm. case_decide; simpl.
  - exists (markDelivered p msg). split; [done|]. split; [done|].
    intros q. apply markDelivered_keeps.
  - by exists msg.
Qed.

Lemma markAll_dom p refs h ref msg' :
  markAll p refs h !! ref = Some msg' -> exists msg, h !! ref = Some msg.
Proof.
  rewrite markAll_lookup. destruct (h !! ref) as [msg|]; [eauto|].
  by case_decide.
Qed.

Lemma wf_initial : wf initialState.
Proof.
  split.
  - intros ref msg. simpl. by rewrite lookup_empty.
  - intros rid room. simpl. by rewrite lookup_empty.
Qed.

Lemma wf_sweep now st : wf st -> wf (sweep now st).
Proof.
  intros [Hh Hr]. split; [done|]. intros rid room Hl. simpl in Hl.
  apply map_lookup_filter_Some in Hl as [Hl _]. by apply (Hr rid).
Qed.

(** Every request either changes nothing and returns no message, or is
    a poll of an existing room, or is a POST that is not a ping. *)
Lemma handler_cases now event st :
  (snd (handler now event st) = st /\ returned (fst (handler now event st)) = [])
  \/ (exists rid p room, isPoll event rid p /\ rooms st !! rid = Some room)
  \/ (exists message rid p, isPost event message rid p /\ type message <> Some Ping).
Proof.
  unfold handler.
  destruct (String.prefix _ (path event)) eqn:Hpath; simpl; [|by left].
  destruct (String.eqb (httpMethod event) "OPTIONS"); [by left|].
  destruct (String.eqb (httpMethod event) "POST") eqn:Hpost.
  - apply String.eqb_eq in Hpost. unfold post.
    destruct (body event) as [| |message] eqn:Hb; [by left..|].
    case_bool_decide as Hty; [by left|].
    destruct (roomId message) as [rid|] eqn:Hr; [|by left].
    destruct (peerId message) as [p|] eqn:Hp; [|by left].
    destruct (String.eqb rid EmptyString) eqn:Hrid; [by left|].
    destruct (String.eqb p EmptyString) eqn:Hpid; [by left|].
    right. right. exists message, rid, p.
    apply String.eqb_neq in Hrid, Hpid. by repeat split.
  - destruct (String.eqb (httpMethod event) "GET") eqn:Hget; [|by left].
    apply String.eqb_eq in Hget. unfold get.
    destruct (queryRoomId event) as [rid|] eqn:Hr; [|by left].
    destruct (queryPeerId event) as [p|] eqn:Hp; [|by left].
    destruct (String.eqb rid EmptyString) eqn:Hrid; [by left|].
    destruct (String.eqb p EmptyString) eqn:Hpid; [by left|].
    destruct (rooms st !! rid) as [room|] eqn:Hroom; [|by left].
    right. left. exists rid, p, room.
    apply String.eqb_neq in Hrid, Hpid. by repeat split.
Qed.

Lemma returned_in_queue now event rid p st room ref :
  isPoll event rid p ->
  rooms st !! rid = Some room ->
  ref ∈ returned (fst (handler now event st))
  <-> ref ∈ Room.messages room
      /\ exists msg, heap st !! ref = Some msg /\ eligible p msg.
Proof.
  intros Hpoll Hroom.
  rewrite (handler_poll now event rid p st room Hpoll Hroom). simpl.
  unfold returned. simpl. rewrite list_elem_of_filter. unfold holds.
  split.
  - intros [Hh Hin]. split; [done|]. destruct (heap st !! ref) as [msg|]; [|done].
    exists msg. split; [done|]. apply shouldInclude_eligible. by apply Is_true_true.
  - intros [Hin (msg & -> & Hel)]. split; [|done].
    apply Is_true_true. by apply shouldInclude_eligible.
Qed.

Lemma returned_marked now event rid p st room ref msg :
  isPoll event rid p ->
  rooms st !! rid = Some room ->
  ref ∈ returned (fst (handler now event st)) ->
  heap st !! ref = Some msg ->
  heap (snd (handler now event st)) !! ref = Some (markDelivered p msg).
Proof.
  intros Hpoll Hroom.
  rewrite (handler_poll now event rid p st room Hpoll Hroom). simpl.
  unfold returned. simpl. intros Hin Hm.
  by rewrite markAll_lookup, decide_True, Hm by done.
Qed.

Lemma poll_step now event rid p st room :
  wf st ->
  isPoll event rid p ->
  rooms st !! rid = Some room ->
  wf (snd (handler now event st))
  /\ grows (heap st) (heap (snd (handler now event st)))
  /\ NoDup (returned (fst (handler now event st))).
Proof.
  intros [Hh Hr] Hpoll Hroom.
  rewrite (handler_poll now event rid p st room Hpoll Hroom). simpl.
  destruct (Hr _ _ Hroom) as [Hnd Hlt].
  split; [split|split].
  - simpl. intros ref msg' Hm. apply markAll_dom in Hm as [msg Hm]. by eapply Hh.
  - simpl. intros rid' room' Hl.
    destruct (decide (rid = rid')) as [<- | Hne].
    + rewrite lookup_insert_eq in Hl. injection Hl as <-. simpl. split.
      * by apply NoDup_filter.
      * intros ref Hin. apply list_elem_of_filter in Hin as [_ Hin]. by apply Hlt.
    + rewrite lookup_insert_ne in Hl by done. by apply (Hr rid').
  - apply markAll_grows.
  - unfold returned. simpl. by apply NoDup_filter.
Qed.

Lemma post_step now event message rid p st :
  wf st ->
  isPost event message rid p ->
  type message <> Some Ping ->
  wf (snd (handler now event st))
  /\ grows (heap st) (heap (snd (handler now event st)))
  /\ returned (fst (handler now event st)) = [].
Proof.
  intros [Hh Hr] Hpost Hty.
  rewrite (handler_post now event message rid p st Hpost Hty).
  assert (NoDup (Room.messages (roomOrNew now rid st))
          /\ forall ref, ref ∈ Room.messages (roomOrNew now rid st)
                         -> (ref < nextRef st)%nat) as [Hnd Hlt].
  { unfold roomOrNew. destruct (rooms st !! rid) as [room|] eqn:Hroom.
    - by apply (Hr rid).
    - simpl. split; [constructor|]. intros ref Hin. by apply elem_of_nil in Hin. }
  destruct (enqueued (type message)) eqn:Hen.
  - destruct (handleType_enqueued now message p (roomOrNew now rid st) st Hen)
      as (room' & -> & Hq).
    simpl. split; [split|split; [|done]].
    + simpl. intros ref msg Hm.
      destruct (decide (nextRef st = ref)) as [<- | Hne]; [lia|].
      rewrite lookup_insert_ne in Hm by done. apply Hh in Hm. lia.
    + simpl. intros rid' room'' Hl.
      destruct (decide (rid = rid')) as [<- | Hne].
      * rewrite lookup_insert_eq in Hl. injection Hl as <-. rewrite Hq. split.
        -- apply NoDup_app. split; [done|]. split; [|apply NoDup_singleton].
           intros ref Hin Hin'. apply list_elem_of_singleton in Hin'.
           apply Hlt in Hin. lia.
        -- intros ref Hin. apply elem_of_app in Hin as [Hin | Hin].
           ++ apply Hlt in Hin. lia.
           ++ apply list_elem_of_singleton in Hin. lia.
      * rewrite lookup_insert_ne in Hl by done.
        destruct (Hr _ _ Hl) as [Hnd' Hlt']. split; [done|].
        intros ref Hin. apply Hlt' in Hin. lia.
    + intros ref msg Hm. exists msg.
      rewrite lookup_insert_ne; [done|]. apply Hh in Hm. lia.
  - destruct (handleType_not_enqueued now message p (roomOrNew now rid st) st Hen)
      as (room' & -> & Hq).
    simpl. split; [split|split; [apply grows_refl|done]].
    + done.
    + simpl. intros rid' room'' Hl.
      destruct (decide (rid = rid')) as [<- | Hne].
      * rewrite lookup_insert_eq in Hl. injection Hl as <-. by rewrite Hq.
      * rewrite lookup_insert_ne in Hl by done. by apply (Hr rid').
Qed.

(** One request, as a step of a run. *)
Lemma handler_step now event st :
  wf st ->
  wf (snd (handler now event st))
  /\ grows (heap st) (heap (snd (handler now event st)))
  /\ NoDup (deliveries event (fst (handler now event st)))
  /\ forall p ref, (p, ref) ∈ deliveries event (fst (handler now event st)) ->
        (exists msg, heap st !! ref = Some msg /\ eligible p msg)
        /\ (exists msg', heap (snd (handler now event st)) !! ref = Some msg'
                         /\ delivered p msg').
Proof.
  intros Hwf.
  destruct (handler_cases now event st)
    as [[Hst Hret] | [(rid & p & room & Hpoll & Hroom) | (m & rid & p & Hpost & Hty)]].
  - rewrite Hst. unfold deliveries. rewrite Hret.
    split; [done|]. split; [apply grows_refl|].
    destruct (queryPeerId event); simpl; (split; [constructor|]);
      intros q ref Hin; by apply elem_of_nil in Hin.
  - destruct (poll_step now event rid p st room Hwf Hpoll Hroom) as (Hwf' & Hg & Hnd).
    split; [done|]. split; [done|].
    unfold deliveries. pose proof Hpoll as (_ & _ & _ & Hq & _). rewrite Hq.
    split.
    + apply NoDup_fmap_2; [|done]. by intros x y [= ->].
    + intros q ref Hin. apply list_elem_of_fmap in Hin as (ref' & [= -> ->] & Hin).
      pose proof Hin as Hin'.
      apply (returned_in_queue now event rid p st room ref' Hpoll Hroom) in Hin'
        as (_ & msg & Hm & Hel).
      split; [by exists msg|].
      exists (markDelivered p msg). split; [|apply markDelivered_delivered].
      by apply (returned_marked now event rid p st room).
  - destruct (post_step now event m rid p st Hwf Hpost Hty) as (Hwf' & Hg & Hret).
    split; [done|]. split; [done|]. unfold deliveries. rewrite Hret.
    destruct (queryPeerId event); simpl; (split; [constructor|]);
      intros q ref Hin; by apply elem_of_nil in Hin.
Qed.

Lemma stored_fields msg msg' :
  stored msg' = stored msg ->
  peerId msg' = peerId msg /\ targetPeerId msg' = targetPeerId msg.
Proof. intros Hs. by injection Hs. Qed.

(** The deliveries of a run from a well-formed state. *)
Lemma run_facts steps :
  forall st, wf st ->
    wf (snd (run steps st))
    /\ grows (heap st) (heap (snd (run steps st)))
    /\ NoDup (fst (run steps st))
    /\ forall p ref, (p, ref) ∈ fst (run steps st) ->
          (forall msg, heap st !! ref = Some msg -> ~ delivered p msg)
          /\ exists msg', heap (snd (run steps st)) !! ref = Some msg'
                          /\ delivered p msg'
                          /\ peerId msg' <> Some p
                          /\ (untargeted msg' \/ targetPeerId msg' = Some p).
Proof.
  induction steps as [|[now event | now] rest IH]; intros st Hwf.
  - simpl. split; [done|]. split; [apply grows_refl|]. split; [constructor|].
    intros p ref Hin. by apply elem_of_nil in Hin.
  - simpl. destruct (handler_step now event st Hwf) as (Hwf1 & Hg1 & Hnd1 & Hd1).
    destruct (handler now event st) as [resp st1]. simpl in *.
    destruct (IH st1 Hwf1) as (Hwf2 & Hg2 & Hnd2 & Hd2).
    destruct (run rest st1) as [log st2]. simpl in *.
    split; [done|]. split; [by eapply grows_trans|]. split.
    + apply NoDup_app. split; [done|]. split; [|done].
      intros [p ref] Hin Hin'.
      destruct (Hd1 _ _ Hin) as (_ & msg1 & Hm1 & Hdel).
      destruct (Hd2 _ _ Hin') as (Hnot & _). by apply (Hnot msg1).
    + intros p ref Hin. apply elem_of_app in Hin as [Hin | Hin].
      * destruct (Hd1 _ _ Hin) as ((msg & Hm & Hne & Hnot & Htgt) & msg1 & Hm1 & Hdel).
        split.
        { intros msg0 Hm0. rewrite Hm in Hm0. by injection Hm0 as <-. }
        destruct (Hg1 _ _ Hm) as (msg1' & Hm1' & Hs1 & _).
        rewrite Hm1 in Hm1'. injection Hm1' as <-.
        destruct (Hg2 _ _ Hm1) as (msg2 & Hm2 & Hs2 & Hk2).
        exists msg2. split; [done|]. split; [by apply Hk2|].
        destruct (stored_fields _ _ Hs1) as [Hp1 Ht1].
        destruct (stored_fields _ _ Hs2) as [Hp2 Ht2].
        unfold untargeted in *. rewrite Hp2, Hp1, Ht2, Ht1. done.
      * destruct (Hd2 _ _ Hin) as (Hnot & Hfin). split; [|done].
        intros msg Hm Hdel.
        destruct (Hg1 _ _ Hm) as (msg1 & Hm1 & _ & Hk1).
        apply (Hnot msg1 Hm1). by apply Hk1.
  - simpl. destruct (IH (sweep now st) (wf_sweep now st Hwf)) as (Hwf2 & Hg2 & Hrest).
    split; [done|]. split; [done|]. done.
Qed.

(** The GET branch on a room that does not exist. *)
Lemma handler_poll_unknown now event rid p st :
  isPoll event rid p ->
  rooms st !! rid = None ->
  handler now event st
  = ({| statusCode := 200;
        responseBody := Messages [] {| summaryId := rid; leadConnected := false;
                                       scoutCount := 0; summaryScouts := [] |} |}, st).
Proof.
  intros (Hpath & Hm & Hr & Hp & Hrid & Hpid) Hroom. unfold handler, signalPath in *.
  rewrite Hpath, Hm. simpl. unfold get. rewrite Hr, Hp.
  apply String.eqb_neq in Hrid, Hpid. rewrite Hrid, Hpid. simpl.
  by rewrite Hroom.
Qed.

(** C5.  A poll of peer [p] on room [rid] answers 200 and returns
    exactly the queued messages that [p] did not send, that are not yet
    delivered to [p] and that have no target or have [p] as target, and
    marks each of them delivered to [p].  Hence, in every run of the
    relay from its initial state, no message object is returned twice
    to the same peer, none is returned to its sender, and a targeted
    one is returned to its target only. *)
Theorem poll_delivers_once :
  (forall now event rid p st,
     isPoll event rid p ->
     statusCode (fst (handler now event st)) = 200
     /\ (forall ref,
           ref ∈ returned (fst (handler now event st))
           <-> ref ∈ queueOf st rid
               /\ exists msg, heap st !! ref = Some msg /\ eligible p msg)
     /\ (forall ref msg,
           ref ∈ returned (fst (handler now event st)) ->
           heap st !! ref = Some msg ->
           heap (snd (handler now event st)) !! ref = Some (markDelivered p msg)
           /\ delivered p (markDelivered p msg)))
  /\ (forall steps,
        NoDup (fst (run steps initialState))
        /\ forall p ref, (p, ref) ∈ fst (run steps initialState) ->
              exists msg, heap (snd (run steps initialState)) !! ref = Some msg
                          /\ delivered p msg
                          /\ peerId msg <> Some p
                          /\ (untargeted msg \/ targetPeerId msg = Some p)).
Proof.
  split.
  - intros now event rid p st Hpoll. unfold queueOf.
    destruct (rooms st !! rid) as [room|] eqn:Hroom.
    + split; [|split].
      * by rewrite (handler_poll now event rid p st room Hpoll Hroom).
      * intros ref. by apply (returned_in_queue now event rid p st room).
      * intros ref msg Hin Hm. split; [|apply markDelivered_delivered].
        by apply (returned_marked now event rid p st room).
    + rewrite (handler_poll_unknown now event rid p st Hpoll Hroom). simpl.
      split; [done|]. unfold returned. simpl. split.
      * intros ref. split.
        -- intros Hin. by apply elem_of_nil in Hin.
        -- intros [Hin _]. by apply elem_of_nil in Hin.
      * intros ref msg Hin. by apply elem_of_nil in Hin.
  - intros steps.
    destruct (run_facts steps initialState wf_initial) as (_ & _ & Hnd & Hd).
    split; [done|]. intros p ref Hin. by apply Hd.
Qed.

Lemma poll_delivers_once_witness :
  fst (run exampleRun initialState) = [("B", 0%nat)]
  /\ NoDup (fst (run exampleRun initialState))
  /\ returned (fst (handler 1 (pollOf "room" "B") afterOffer)) = [0%nat]
  /\ (exists msg, heap afterOffer !! 0%nat = Some msg /\ eligible "B" msg)
  /\ returned (fst (handler 1 (pollOf "room" "C") afterOffer)) = [].
Proof.
  destruct poll_delivers_once as [Hpoll Hrun].
  split; [by vm_compute|]. split; [apply (Hrun exampleRun)|].
  split; [by vm_compute|]. split; [|by vm_compute].
  destruct (Hpoll 1 (pollOf "room" "B") "room" "B" afterOffer) as (_ & Hiff & _);
    [by apply isPoll_pollOf|].
  apply (Hiff 0%nat). vm_compute. apply list_elem_of_here.
Defined.
End RelayFacts.

(* ===================================================================== *)
(** * Properties of match keys and of the data summary *)
(* ===================================================================== *)

Module MatchKeyFacts.
Import MatchKeys TbaKeys.

Lemma parseDigits_acc d :
  forall acc : positive,
    parseDigits (NilEmpty.string_of_uint d) (Z.pos acc) = Z.pos (Pos.of_uint_acc d acc).
Proof.
  induction d; intros acc; simpl; try done; rewrite <- IHd; f_equal;
    match goal with
    | |- context [Z.of_nat (nat_of_ascii ?c)] =>
        let v := eval vm_compute in (Z.of_nat (nat_of_ascii c)) in
        change (Z.of_nat (nat_of_ascii c)) with v
    end; lia.
Qed.

Lemma parseDigits_uint d :
  parseDigits (NilEmpty.string_of_uint d) 0 = Z.of_N (Pos.of_uint d).
Proof.
  induction d; simpl; try done; by rewrite <- parseDigits_acc.
Qed.

Lemma decimalValue_uint d : decimalValue (NilZero.string_of_uint d) = Z.of_uint d.
Proof.
  unfold decimalValue, Z.of_uint, NilZero.string_of_uint.
  destruct d; try apply parseDigits_uint. done.
Qed.

(** The digits that [String] prints denote the number printed. *)
Lemma decimalValue_stringOfInt n : 0 <= n -> decimalValue (JS.stringOfInt n) = n.
Proof.
  intros Hn. unfold JS.stringOfInt.
  rewrite <- (DecimalZ.of_to n) at 2.
  destruct n as [|p|p]; simpl; [done | apply decimalValue_uint | lia].
Qed.

Lemma allDigits_uint d : allChars isDigit (NilEmpty.string_of_uint d) = true.
Proof. induction d; simpl; done. Qed.

Lemma allDigits_stringOfInt n :
  0 <= n ->
  allChars isDigit (JS.stringOfInt n) = true /\ JS.stringOfInt n <> EmptyString.
Proof.
  intros Hn. unfold JS.stringOfInt. destruct n as [|p|p]; [done| |lia].
  simpl. unfold NilZero.string_of_uint.
  destruct (Pos.to_uint p) eqn:Hd; simpl; try done;
    (split; [apply allDigits_uint | done]).
Qed.

(** [parseInt] reads back what [String] prints, up to
    [Number.MAX_SAFE_INTEGER]. *)
Lemma parseInt_stringOfInt {parser : NumberParser} {exact : ExactParser parser} n :
  0 <= n <= MAX_SAFE_INTEGER -> parseInt (JS.stringOfInt n) = n.
Proof.
  intros Hn. destruct (allDigits_stringOfInt n) as [Hd Hne]; [lia|].
  rewrite parseInt_exact; [|done|done|]; rewrite decimalValue_stringOfInt; lia.
Qed.

Lemma decimalParser_exact : ExactParser decimalParser.
Proof. by split. Qed.

Lemma allChars_Forall p s :
  allChars p s = true <-> Forall (fun c => p c = true) (list_ascii_of_string s).
Proof.
  induction s as [|c s IH]; simpl.
  - split; [constructor | done].
  - rewrite andb_true_iff, Forall_cons, IH. done.
Qed.

Lemma allChars_app p a b : allChars p (a +:+ b) = allChars p a && allChars p b.
Proof. induction a as [|c a IH]; simpl; [done|]. by rewrite IH, andb_assoc. Qed.

Lemma allChars_cons p c s : allChars p (String c s) = p c && allChars p s.
Proof. done. Qed.

Lemma allChars_impl (p q : ascii -> bool) s :
  (forall c, p c = true -> q c = true) -> allChars p s = true -> allChars q s = true.
Proof.
  intros Hpq. induction s as [|c s IH]; simpl; [done|].
  rewrite !andb_true_iff. intros [Hc Hs]. auto.
Qed.

Lemma strRev_involutive s : JS.strRev (JS.strRev s) = s.
Proof.
  unfold JS.strRev.
  by rewrite list_ascii_of_string_of_list_ascii, rev_involutive,
    string_of_list_ascii_of_string.
Qed.

Lemma allChars_strRev p s : allChars p s = true -> allChars p (JS.strRev s) = true.
Proof.
  rewrite !allChars_Forall. unfold JS.strRev.
  rewrite list_ascii_of_string_of_list_ascii. intros Hs.
  apply Forall_forall. intros c Hc. rewrite Forall_forall in Hs.
  apply Hs. apply list_elem_of_In. apply list_elem_of_In in Hc.
  by apply in_rev.
Qed.

Lemma trimStart_noSpace s :
  allChars (fun c => negb (JS.isSpace c)) s = true -> JS.trimStart s = s.
Proof.
  destruct s as [|c s]; simpl; [done|]. rewrite andb_true_iff. intros [Hc _].
  apply negb_true_iff in Hc. by rewrite Hc.
Qed.

(** A string without white space is its own [trim]. *)
Lemma trim_noSpace s :
  allChars (fun c => negb (JS.isSpace c)) s = true -> JS.trim s = s.
Proof.
  intros Hs. unfold JS.trim. rewrite (trimStart_noSpace s Hs).
  rewrite trimStart_noSpace by (by apply allChars_strRev).
  apply strRev_involutive.
Qed.

Lemma splitUnderscore_none s :
  allChars notUnderscore s = true -> splitUnderscore s = (s, None).
Proof.
  induction s as [|c s IH]; simpl; [done|]. rewrite andb_true_iff. intros [Hc Hs].
  unfold notUnderscore in Hc. apply negb_true_iff in Hc. rewrite Hc.
  by rewrite IH.
Qed.

Lemma splitUnderscore_first a b :
  allChars notUnderscore a = true ->
  splitUnderscore (a +:+ String "_" b) = (a, Some b).
Proof.
  induction a as [|c a IH]; simpl; [done|]. rewrite andb_true_iff. intros [Hc Ha].
  unfold notUnderscore in Hc. apply negb_true_iff in Hc. rewrite Hc.
  by rewrite IH.
Qed.

(** The key part of [<event>_<part>] is [<part>]. *)
Lemma keyPartOf_event event part :
  allChars notUnderscore event = true ->
  allChars notUnderscore part = true ->
  part <> EmptyString ->
  keyPartOf (event +:+ String "_" part) = part.
Proof.
  intros He Hp Hne. unfold keyPartOf.
  rewrite splitUnderscore_first by done. simpl.
  rewrite splitUnderscore_none by done. simpl.
  apply String.eqb_neq in Hne. by rewrite Hne.
Qed.

Lemma takeDigits_all digits after :
  allChars isDigit digits = true ->
  (forall c rest, after = String c rest -> isDigit c = false) ->
  takeDigits (digits +:+ after) = (digits, after).
Proof.
  intros Hd Ha. induction digits as [|c digits IH]; simpl.
  - destruct after as [|c rest]; [done|]. simpl. by rewrite (Ha c rest).
  - simpl in Hd. apply andb_true_iff in Hd as [Hc Hd]. rewrite Hc.
    by rewrite IH.
Qed.

Lemma takeDigits_end digits :
  allChars isDigit digits = true -> takeDigits digits = (digits, EmptyString).
Proof.
  intros Hd. induction digits as [|c digits IH]; simpl; [done|].
  simpl in Hd. apply andb_true_iff in Hd as [Hc Hd]. rewrite Hc. by rewrite IH.
Qed.

Lemma digit_plain c : isDigit c = true -> notUnderscore c = true /\ JS.isSpace c = false.
Proof.
  unfold isDigit, notUnderscore, JS.isSpace.
  destruct c as [[] [] [] [] [] [] [] []]; simpl; try done.
Qed.

Lemma plain_parts event :
  plain event ->
  allChars notUnderscore event = true
  /\ allChars (fun c => negb (JS.isSpace c)) event = true.
Proof.
  intros Hp. split; (eapply allChars_impl; [|exact Hp]); intros c;
    unfold plainChar; rewrite andb_true_iff; tauto.
Qed.

Lemma digits_parts digits :
  allChars isDigit digits = true ->
  allChars notUnderscore digits = true
  /\ allChars (fun c => negb (JS.isSpace c)) digits = true.
Proof.
  intros Hd. split; (eapply allChars_impl; [|exact Hd]); intros c Hc;
    destruct (digit_plain c Hc) as [Hu Hs]; [done | by rewrite Hs].
Qed.

(** What [parseMatchKeyForSort] reads in a key [<event>_<part>] whose
    part has neither white space nor underscore. *)
Lemma parse_event_part event part :
  plain event ->
  allChars notUnderscore part = true ->
  allChars (fun c => negb (JS.isSpace c)) part = true ->
  part <> EmptyString ->
  JS.trim (event +:+ String "_" part) = event +:+ String "_" part
  /\ keyPartOf (JS.trim (event +:+ String "_" part)) = part.
Proof.
  intros Hp Hu Hs Hne. destruct (plain_parts event Hp) as [Heu Hes].
  assert (JS.trim (event +:+ String "_" part) = event +:+ String "_" part) as Ht.
  { apply trim_noSpace. rewrite allChars_app, Hes. simpl. by rewrite Hs. }
  split; [done|]. rewrite Ht. by apply keyPartOf_event.
Qed.

Lemma matchQm_digits digits :
  allChars isDigit digits = true -> digits <> EmptyString ->
  matchQm (String "q" (String "m" digits)) = Some digits.
Proof.
  intros Hd Hne. unfold matchQm. simpl. rewrite takeDigits_end by done.
  apply String.eqb_neq in Hne. by rewrite Hne.
Qed.

Lemma matchSetMatch_digits (prefix : string) setDigits matchDigits :
  allChars isDigit setDigits = true -> setDigits <> EmptyString ->
  allChars isDigit matchDigits = true -> matchDigits <> EmptyString ->
  stripPrefixCI prefix (prefix +:+ setDigits +:+ String "m" matchDigits)
  = Some (setDigits +:+ String "m" matchDigits) ->
  matchSetMatch prefix (prefix +:+ setDigits +:+ String "m" matchDigits)
  = Some (setDigits, matchDigits).
Proof.
  intros Hs Hsne Hm Hmne Hstrip. unfold matchSetMatch. rewrite Hstrip.
  rewrite takeDigits_all; [|done|by intros c rest [= <- _]].
  apply String.eqb_neq in Hsne. rewrite Hsne. simpl.
  rewrite takeDigits_end by done.
  apply String.eqb_neq in Hmne. by rewrite Hmne.
Qed.

Section ParseFacts.
Context {parser : NumberParser} {exact : ExactParser parser}.

Lemma parse_qualKey event n :
  plain event -> 0 <= n <= MAX_SAFE_INTEGER ->
  parseMatchKeyForSort (qualKey event n)
  = {| compOrder := 1; setNumber := 1; matchNumber := n; raw := qualKey event n |}.
Proof.
  intros Hp Hn. destruct (allDigits_stringOfInt n (proj1 Hn)) as [Hd Hne].
  destruct (digits_parts _ Hd) as [Hdu Hds].
  unfold parseMatchKeyForSort, qualKey.
  change (event +:+ "_qm" +:+ JS.stringOfInt n)
    with (event +:+ String "_" (String "q" (String "m" (JS.stringOfInt n)))).
  destruct (parse_event_part event (String "q" (String "m" (JS.stringOfInt n))))
    as [-> ->]; [done | by simpl | by simpl | done |].
  rewrite matchQm_digits by done. by rewrite parseInt_stringOfInt.
Qed.

Lemma parse_semiKey event set n :
  plain event -> 0 <= set <= MAX_SAFE_INTEGER -> 0 <= n <= MAX_SAFE_INTEGER ->
  parseMatchKeyForSort (semiKey event set n)
  = {| compOrder := 2; setNumber := set; matchNumber := n;
       raw := semiKey event set n |}.
Proof.
  intros Hp Hs Hn.
  destruct (allDigits_stringOfInt set (proj1 Hs)) as [Hsd Hsne].
  destruct (allDigits_stringOfInt n (proj1 Hn)) as [Hd Hne].
  destruct (digits_parts _ Hsd) as [Hsu Hss].
  destruct (digits_parts _ Hd) as [Hdu Hds].
  unfold parseMatchKeyForSort, semiKey.
  change (event +:+ "_sf" +:+ JS.stringOfInt set +:+ "m" +:+ JS.stringOfInt n)
    with (event +:+ String "_"
            ("sf" +:+ JS.stringOfInt set +:+ String "m" (JS.stringOfInt n))).
  destruct (parse_event_part event
              ("sf" +:+ JS.stringOfInt set +:+ String "m" (JS.stringOfInt n)))
    as [-> ->]; [done | | | done |].
  - by rewrite !allChars_app, !allChars_cons, Hsu, Hdu.
  - by rewrite !allChars_app, !allChars_cons, Hss, Hds.
  - change (matchQm ("sf" +:+ _)) with (@None string).
    rewrite matchSetMatch_digits by done.
    by rewrite !parseInt_stringOfInt.
Qed.

Lemma parse_finalKey event set n :
  plain event -> 0 <= set <= MAX_SAFE_INTEGER -> 0 <= n <= MAX_SAFE_INTEGER ->
  parseMatchKeyForSort (finalKey event set n)
  = {| compOrder := 3; setNumber := set; matchNumber := n;
       raw := finalKey event set n |}.
Proof.
  intros Hp Hs Hn.
  destruct (allDigits_stringOfInt set (proj1 Hs)) as [Hsd Hsne].
  destruct (allDigits_stringOfInt n (proj1 Hn)) as [Hd Hne].
  destruct (digits_parts _ Hsd) as [Hsu Hss].
  destruct (digits_parts _ Hd) as [Hdu Hds].
  unfold parseMatchKeyForSort, finalKey.
  change (event +:+ "_f" +:+ JS.stringOfInt set +:+ "m" +:+ JS.stringOfInt n)
    with (event +:+ String "_"
            ("f" +:+ JS.stringOfInt set +:+ String "m" (JS.stringOfInt n))).
  destruct (parse_event_part event
              ("f" +:+ JS.stringOfInt set +:+ String "m" (JS.stringOfInt n)))
    as [-> ->]; [done | | | done |].
  - by rewrite !allChars_app, !allChars_cons, Hsu, Hdu.
  - by rewrite !allChars_app, !allChars_cons, Hss, Hds.
  - change (matchQm ("f" +:+ _)) with (@None string).
    change (matchSetMatch "sf" ("f" +:+ _)) with (@None (string * string)).
    rewrite matchSetMatch_digits by done.
    by rewrite !parseInt_stringOfInt.
Qed.

End ParseFacts.

Section CompareFacts.
Context {parser : NumberParser} {collator : Collator}.

(** X1.  Keys of the three levels of a competition, with set and match
    numbers up to [Number.MAX_SAFE_INTEGER], on which
    [Number.parseInt] is exact, sort qualification first, then
    semifinals, then finals, whatever the event codes; within a level
    the numbers decide, compared as numbers ([qm2] comes before
    [qm10]) and, in the playoffs, the set number first. *)
Theorem tba_keys_order {exact : ExactParser parser}
    (event1 event2 : string) (set1 set2 n m : Z) :
  plain event1 -> plain event2 ->
  0 <= set1 <= MAX_SAFE_INTEGER -> 0 <= set2 <= MAX_SAFE_INTEGER ->
  0 <= n <= MAX_SAFE_INTEGER -> 0 <= m <= MAX_SAFE_INTEGER ->
  (n <> m -> compareMatchKeys (qualKey event1 n) (qualKey event2 m) = n - m)
  /\ compareMatchKeys (qualKey event1 n) (semiKey event2 set2 m) < 0
  /\ compareMatchKeys (semiKey event1 set1 n) (finalKey event2 set2 m) < 0
  /\ (set1 <> set2 ->
      compareMatchKeys (semiKey event1 set1 n) (semiKey event2 set2 m) = set1 - set2
      /\ compareMatchKeys (finalKey event1 set1 n) (finalKey event2 set2 m) = set1 - set2)
  /\ (n <> m ->
      compareMatchKeys (semiKey event1 set1 n) (semiKey event2 set1 m) = n - m
      /\ compareMatchKeys (finalKey event1 set1 n) (finalKey event2 set1 m) = n - m).
Proof.
  intros Hp1 Hp2 Hs1 Hs2 Hn Hm. unfold compareMatchKeys.
  rewrite !parse_qualKey, !parse_semiKey, !parse_finalKey by done. simpl.
  split; [|split; [|split; [|split]]].
  - intros Hne. apply Z.eqb_neq in Hne. by rewrite Hne.
  - lia.
  - lia.
  - intros Hne. apply Z.eqb_neq in Hne. by rewrite Hne.
  - intros Hne. rewrite Z.eqb_refl. simpl. apply Z.eqb_neq in Hne. by rewrite Hne.
Qed.

(** [compareMatchKeys a b < 0], spelled out. *)
Lemma compareMatchKeys_lt a b :
  compareMatchKeys a b < 0 <->
  let pa := parseMatchKeyForSort a in
  let pb := parseMatchKeyForSort b in
  compOrder pa < compOrder pb
  \/ (compOrder pa = compOrder pb
      /\ (setNumber pa < setNumber pb
          \/ (setNumber pa = setNumber pb
              /\ (matchNumber pa < matchNumber pb
                  \/ (matchNumber pa = matchNumber pb
                      /\ localeCompare (raw pa) (raw pb) < 0))))).
Proof.
  unfold compareMatchKeys. simpl.
  destruct (compOrder _ =? compOrder _) eqn:H1; simpl;
    [apply Z.eqb_eq in H1 | apply Z.eqb_neq in H1; lia].
  destruct (setNumber _ =? setNumber _) eqn:H2; simpl;
    [apply Z.eqb_eq in H2 | apply Z.eqb_neq in H2; lia].
  destruct (matchNumber _ =? matchNumber _) eqn:H3; simpl;
    [apply Z.eqb_eq in H3 | apply Z.eqb_neq in H3; lia].
  lia.
Qed.

Context {lawful : LawfulCollator collator}.

Lemma compareMatchKeys_irrefl a : ~ compareMatchKeys a a < 0.
Proof.
  rewrite compareMatchKeys_lt. simpl.
  pose proof (compare_irrefl (raw (parseMatchKeyForSort a))). lia.
Qed.

Lemma compareMatchKeys_trans a b c :
  compareMatchKeys a b < 0 -> compareMatchKeys b c < 0 -> compareMatchKeys a c < 0.
Proof.
  rewrite !compareMatchKeys_lt. simpl. intros Hab Hbc.
  assert (localeCompare (raw (parseMatchKeyForSort a)) (raw (parseMatchKeyForSort b)) < 0 ->
          localeCompare (raw (parseMatchKeyForSort b)) (raw (parseMatchKeyForSort c)) < 0 ->
          localeCompare (raw (parseMatchKeyForSort a)) (raw (parseMatchKeyForSort c)) < 0)
    as Ht by apply compare_trans.
  lia.
Qed.
End CompareFacts.
End MatchKeyFacts.

Lemma tba_keys_order_witness :
  MatchKeys.compareMatchKeys (parser := decimalParser) (collator := codeUnitCollator)
    (TbaKeys.qualKey "2026casj" 2) (TbaKeys.qualKey "2026mil" 10) = 2 - 10
  /\ MatchKeys.compareMatchKeys (parser := decimalParser) (collator := codeUnitCollator)
       (TbaKeys.semiKey "2026casj" 2 2) (TbaKeys.finalKey "2026mil" 1 10) < 0
  /\ MatchKeys.compareMatchKeys (parser := decimalParser) (collator := codeUnitCollator)
       (TbaKeys.semiKey "2026casj" 2 2) (TbaKeys.semiKey "2026mil" 1 10) = 2 - 1.
Proof.
  destruct (MatchKeyFacts.tba_keys_order (parser := decimalParser)
              (collator := codeUnitCollator) (exact := MatchKeyFacts.decimalParser_exact)
              "2026casj" "2026mil" 2 1 2 10) as (Hq & _ & Hsf & Hset & _);
    [reflexivity | reflexivity | done | done | done | done |].
  split; [apply Hq; lia|]. split; [exact Hsf|]. apply Hset. lia.
Defined.

(** ** [Array.prototype.sort] with a consistent comparator *)

Section SortedBy.
Context {A : Type} (cmp : A -> A -> Z).
Hypothesis cmp_irrefl : forall x, ~ cmp x x < 0.
Hypothesis cmp_trans : forall x y z, cmp x y < 0 -> cmp y z < 0 -> cmp x z < 0.

Lemma sortInsert_permutation x acc : JS.sortInsert cmp x acc ≡ₚ x :: acc.
Proof.
  induction acc as [|y rest IH]; simpl; [done|].
  destruct (cmp x y <? 0); [done|]. rewrite IH. apply Permutation_swap.
Qed.

Lemma sort_permutation_of l : JS.sort cmp l ≡ₚ l.
Proof.
  unfold JS.sort.
  assert (forall acc, fold_left (fun acc x => JS.sortInsert cmp x acc) l acc ≡ₚ l ++ acc)
    as Hgen.
  { induction l as [|x l IH]; intros acc; simpl; [done|].
    rewrite IH, sortInsert_permutation. by rewrite Permutation_middle. }
  by rewrite Hgen, app_nil_r.
Qed.

Lemma sortInsert_notAfter x acc :
  StronglySorted (notAfter cmp) acc -> StronglySorted (notAfter cmp) (JS.sortInsert cmp x acc).
Proof.
  induction acc as [|y rest IH]; intros Hs; simpl.
  - by repeat constructor.
  - apply StronglySorted_cons in Hs as [Hy Hrest].
    destruct (cmp x y <? 0) eqn:Hlt.
    + apply Z.ltb_lt in Hlt. apply StronglySorted_cons. split.
      * constructor.
        -- intros Hyx. apply (cmp_irrefl x). by eapply cmp_trans.
        -- apply Forall_forall. intros z Hz Hzx.
           rewrite Forall_forall in Hy. apply (Hy z Hz). by eapply cmp_trans.
      * by apply StronglySorted_cons.
    + apply Z.ltb_ge in Hlt. apply StronglySorted_cons. split.
      * apply Forall_forall. intros z Hz. rewrite sortInsert_permutation in Hz.
        apply elem_of_cons in Hz as [-> | Hz].
        -- unfold notAfter. lia.
        -- rewrite Forall_forall in Hy. by apply Hy.
      * by apply IH.
Qed.

(** The result of [sort] is ordered: no element is put before an
    earlier one by the comparator. *)
Lemma sort_notAfter l : StronglySorted (notAfter cmp) (JS.sort cmp l).
Proof.
  unfold JS.sort.
  assert (forall acc, StronglySorted (notAfter cmp) acc ->
            StronglySorted (notAfter cmp)
              (fold_left (fun acc x => JS.sortInsert cmp x acc) l acc)) as Hgen.
  { induction l as [|x l IH]; intros acc Hs; simpl; [done|].
    apply IH. by apply sortInsert_notAfter. }
  apply Hgen. constructor.
Qed.
End SortedBy.

Module SummaryFacts.
Import Summary.

Section SetFacts.
Context {A B : Type} (eqb : B -> B -> bool).
Hypothesis eqb_spec : forall x y, eqb x y = true <-> x = y.

Lemma existsb_eqb x set : existsb (eqb x) set = true <-> x ∈ set.
Proof.
  rewrite existsb_exists. split.
  - intros (y & Hy & He). apply eqb_spec in He as ->. by apply list_elem_of_In.
  - intros Hx. exists x. split; [by apply list_elem_of_In | by apply eqb_spec].
Qed.

Lemma setAdd_spec set x :
  NoDup set ->
  NoDup (setAdd eqb set x) /\ forall y, y ∈ setAdd eqb set x <-> y ∈ set \/ y = x.
Proof.
  intros Hnd. unfold setAdd. destruct (existsb (eqb x) set) eqn:Hex.
  - apply existsb_eqb in Hex. split; [done|]. intros y. split; [by left|].
    intros [? | ->]; done.
  - assert (x ∉ set) as Hx.
    { intros Hin. apply existsb_eqb in Hin. congruence. }
    split.
    + apply NoDup_app. split; [done|]. split; [|apply NoDup_singleton].
      intros y Hy Hy'. apply list_elem_of_singleton in Hy' as ->. done.
    + intros y. rewrite elem_of_app, list_elem_of_singleton. done.
Qed.

(** The loop that fills a set from the rows: the set has no duplicate
    and holds exactly the selected values. *)
Lemma collect_spec (keep : A -> bool) (value : A -> B) rows :
  forall set, NoDup set ->
    let result :=
      fold_left (fun set row => if keep row then setAdd eqb set (value row) else set)
                rows set in
    NoDup result
    /\ forall y, y ∈ result
                 <-> y ∈ set \/ exists row, row ∈ rows /\ keep row = true /\ value row = y.
Proof.
  induction rows as [|row rows IH]; intros set Hnd; simpl.
  - split; [done|]. intros y. split; [by left|].
    intros [? | (row & Hin & _)]; [done | by apply elem_of_nil in Hin].
  - destruct (keep row) eqn:Hk.
    + destruct (setAdd_spec set (value row) Hnd) as [Hnd' Hmem].
      destruct (IH _ Hnd') as [Hnd'' Hmem'']. split; [done|].
      intros y. rewrite Hmem'', Hmem. split.
      * intros [[? | ->] | (r & Hin & Hkr & Hv)]; [by left | |].
        -- right. exists row. split; [apply list_elem_of_here | done].
        -- right. exists r. split; [by apply list_elem_of_further | done].
      * intros [? | (r & Hin & Hkr & Hv)]; [by left; left|].
        apply elem_of_cons in Hin as [-> | Hin].
        -- left. by right.
        -- right. by exists r.
    + destruct (IH _ Hnd) as [Hnd'' Hmem'']. split; [done|].
      intros y. rewrite Hmem''. split.
      * intros [? | (r & Hin & Hkr & Hv)]; [by left|].
        right. exists r. split; [by apply list_elem_of_further | done].
      * intros [? | (r & Hin & Hkr & Hv)]; [by left|].
        apply elem_of_cons in Hin as [-> | Hin]; [congruence|].
        right. by exists r.
Qed.
End SetFacts.

Lemma StronglySorted_strict {A : Type} (R R' : A -> A -> Prop) l :
  (forall a b, R a b -> a <> b -> R' a b) ->
  StronglySorted R l -> NoDup l -> StronglySorted R' l.
Proof.
  intros Hstrict Hs. induction Hs as [|x l Hs IH Hx]; intros Hnd; [constructor|].
  apply NoDup_cons in Hnd as [Hnx Hnd]. constructor; [by apply IH|].
  rewrite Forall_forall in *. intros y Hy. apply Hstrict; [by apply Hx|].
  by intros ->.
Qed.

Lemma Zeqb_spec x y : (x =? y) = true <-> x = y.
Proof. apply Z.eqb_eq. Qed.

Lemma Seqb_spec x y : String.eqb x y = true <-> x = y.
Proof. apply String.eqb_eq. Qed.

Section SummaryOf.
Context {parser : MatchKeys.NumberParser} {collator : Collator} {T : Type} {table : Table T}.

Lemma stringSet_spec (property : ScoutingEntryBase -> string) rows :
  NoDup (stringSet property rows)
  /\ forall k, k ∈ stringSet property rows
               <-> k <> EmptyString /\ exists e, e ∈ rows /\ property e = k.
Proof.
  destruct (collect_spec String.eqb Seqb_spec
              (fun e => negb (String.eqb (property e) EmptyString)) property rows []
              (NoDup_nil_2)) as [Hnd Hmem].
  split; [exact Hnd|]. intros k. unfold stringSet. rewrite Hmem. split.
  - intros [Hin | (e & Hin & Hk & <-)]; [by apply elem_of_nil in Hin|].
    apply negb_true_iff, String.eqb_neq in Hk. eauto.
  - intros [Hne (e & Hin & <-)]. right. exists e. split; [done|]. split; [|done].
    by apply negb_true_iff, String.eqb_neq.
Qed.

Lemma sorted_strings rows (property : ScoutingEntryBase -> string) :
  (forall k, k ∈ JS.sort codeUnitCompare (stringSet property rows)
             <-> k <> EmptyString /\ exists e, e ∈ rows /\ property e = k)
  /\ StronglySorted (fun a b => String.compare a b = Lt)
                    (JS.sort codeUnitCompare (stringSet property rows)).
Proof.
  destruct (stringSet_spec property rows) as [Hnd Hmem]. split.
  - intros k. by rewrite (sort_permutation_of codeUnitCompare), Hmem.
  - apply (StronglySorted_strict (notAfter codeUnitCompare)).
    + intros a b Hab Hne. apply codeUnitCompare_lt.
      destruct (compare_total (LawfulCollator := codeUnitCollator_lawful) a b Hne)
        as [? | Hba]; [done | by destruct Hab].
    + apply sort_notAfter.
      * apply (compare_irrefl (LawfulCollator := codeUnitCollator_lawful)).
      * apply (compare_trans (LawfulCollator := codeUnitCollator_lawful)).
    + by rewrite (sort_permutation_of codeUnitCompare).
Qed.

(** X2.  The summary counts the rows; its team list holds the non-zero team
    numbers of the rows, each once, in ascending order; its scout and
    event lists hold the non-empty names and event keys of the rows,
    each once, in code-unit order; its match list holds the non-empty
    match keys of the rows, each once. *)
Theorem summary_contents (db : T) :
  totalEntries (getDataSummary db) = lengthZ (toArray db)
  /\ (forall t, t ∈ teams (getDataSummary db)
                <-> t <> 0 /\ exists e, e ∈ toArray db /\ teamNumber e = t)
  /\ StronglySorted Z.lt (teams (getDataSummary db))
  /\ (forall k, k ∈ matches (getDataSummary db)
                <-> k <> EmptyString /\ exists e, e ∈ toArray db /\ matchKey e = k)
  /\ NoDup (matches (getDataSummary db))
  /\ (forall k, k ∈ scouts (getDataSummary db)
                <-> k <> EmptyString /\ exists e, e ∈ toArray db /\ scoutName e = k)
  /\ StronglySorted (fun a b => String.compare a b = Lt) (scouts (getDataSummary db))
  /\ (forall k, k ∈ events (getDataSummary db)
                <-> k <> EmptyString /\ exists e, e ∈ toArray db /\ eventKey e = k)
  /\ StronglySorted (fun a b => String.compare a b = Lt) (events (getDataSummary db)).
Proof.
  unfold getDataSummary, loadScoutingData. simpl.
  destruct (collect_spec Z.eqb Zeqb_spec (fun e => negb (teamNumber e =? 0)) teamNumber
              (toArray db) [] (NoDup_nil_2)) as [Htnd Htmem].
  fold (teamSet (toArray db)) in Htnd, Htmem.
  destruct (stringSet_spec matchKey (toArray db)) as [Hmnd Hmmem].
  destruct (sorted_strings (toArray db) scoutName) as [Hsmem Hssorted].
  destruct (sorted_strings (toArray db) eventKey) as [Hemem Hesorted].
  split; [done|]. split; [|split; [|split; [|split]]].
  - intros t. rewrite (sort_permutation_of (fun a b => a - b)), Htmem. split.
    + intros [Hin | (e & Hin & Hk & <-)]; [by apply elem_of_nil in Hin|].
      apply negb_true_iff, Z.eqb_neq in Hk. eauto.
    + intros [Hne (e & Hin & <-)]. right. exists e. split; [done|]. split; [|done].
      by apply negb_true_iff, Z.eqb_neq.
  - apply (StronglySorted_strict (notAfter (fun a b => a - b))).
    + unfold notAfter. intros a b Hab Hne. lia.
    + apply sort_notAfter; intros; lia.
    + by rewrite (sort_permutation_of (fun a b => a - b)).
  - intros k. by rewrite (sort_permutation_of MatchKeys.compareMatchKeys), Hmmem.
  - by rewrite (sort_permutation_of MatchKeys.compareMatchKeys).
  - done.
Qed.

(** X3.  With a collator that is a strict total order, the match list of
    the summary is ordered by [compareMatchKeys]: no key is put before
    an earlier one. *)
Theorem summary_matches_sorted {lawful : LawfulCollator collator} (db : T) :
  StronglySorted (notAfter MatchKeys.compareMatchKeys) (matches (getDataSummary db)).
Proof.
  unfold getDataSummary. simpl. apply sort_notAfter.
  - apply MatchKeyFacts.compareMatchKeys_irrefl.
  - apply MatchKeyFacts.compareMatchKeys_trans.
Qed.
End SummaryOf.
End SummaryFacts.

Lemma summary_matches_sorted_witness :
  StronglySorted (notAfter (MatchKeys.compareMatchKeys (parser := decimalParser)
                               (collator := codeUnitCollator)))
    (Summary.matches
       (Summary.getDataSummary (parser := decimalParser) (collator := codeUnitCollator)
          (table := listTable)
          Examples.threeRows))
  /\ Summary.matches
       (Summary.getDataSummary (parser := decimalParser) (collator := codeUnitCollator)
          (table := listTable)
          Examples.threeRows)
     = ["2026casj_qm2"; "2026casj_qm10"; "2026casj_sf1m1"].
Proof.
  split; [|by vm_compute].
  exact (SummaryFacts.summary_matches_sorted (parser := decimalParser)
           (lawful := codeUnitCollator_lawful)
           (table := listTable) Examples.threeRows).
Defined.

(* ===================================================================== *)
(** * Properties of applying decisions *)
(* ===================================================================== *)

Section ApplyFacts.
Context {T : Type} {table : Table T}.

(** The loop of the upload handler's [applyConflictResolutions], with
    its accumulator made explicit. *)
Lemma upload_apply_fold conflicts (resolutions : gmap string Action) :
  forall (db : T) (replaced skipped : Z),
    fold_left
      (fun '(db, (replaced, skipped)) conflict =>
         match resolutions !! getConflictKey conflict with
         | Some Replace =>
             (put (incoming conflict) (delete (id (local conflict)) db),
              (replaced + 1, skipped))
         | _ => (db, (replaced, skipped + 1))
         end)
      conflicts (db, (replaced, skipped))
    = (fold_left (fun db c => match resolutions !! getConflictKey c with
                              | Some Replace => replaceLocal c db
                              | _ => db
                              end) conflicts db,
       (replaced
        + lengthZ (filter (fun c => resolutions !! getConflictKey c = Some Replace) conflicts),
        skipped
        + lengthZ (filter (fun c => resolutions !! getConflictKey c <> Some Replace)
                          conflicts))).
Proof.
  induction conflicts as [|c cs IH]; intros db replaced skipped; simpl.
  - unfold lengthZ. simpl. by rewrite !Z.add_0_r.
  - rewrite !filter_cons.
    destruct (resolutions !! getConflictKey c) as [[]|] eqn:Hd; rewrite IH;
      unfold replaceLocal, lengthZ.
    + rewrite decide_True by done. rewrite decide_False by (by intros ?).
      simpl. f_equal. f_equal; lia.
    + rewrite decide_False by done. rewrite decide_True by done.
      simpl. f_equal. f_equal; lia.
    + rewrite decide_False by done. rewrite decide_True by done.
      simpl. f_equal. f_equal; lia.
Qed.

Lemma filter_complement_length {A : Type} (P : A -> Prop) `{forall x, Decision (P x)}
    (l : list A) :
  (length (filter P l) + length (filter (fun x => ~ P x) l) = length l)%nat.
Proof.
  induction l as [|x l IH]; [done|]. rewrite !filter_cons.
  destruct (decide (P x)).
  - rewrite decide_False by tauto. simpl. lia.
  - rewrite decide_True by done. simpl. lia.
Qed.

(** X13.  The upload handler's [applyConflictResolutions] counts every
    conflict exactly once, as replaced or as skipped; it deletes and
    puts for the conflicts decided 'replace', in order, and does
    nothing else to the table: without a 'replace' decision the table
    is returned as it was. *)
Theorem upload_apply_counts (conflicts : list ConflictInfo)
    (resolutions : gmap string Action) (db : T) :
  let result := UploadHandler.applyConflictResolutions conflicts resolutions db in
  fst (snd result) + snd (snd result) = lengthZ conflicts
  /\ fst (snd result)
     = lengthZ (filter (fun c => resolutions !! getConflictKey c = Some Replace) conflicts)
  /\ fst result
     = fold_left (fun db c => match resolutions !! getConflictKey c with
                              | Some Replace => replaceLocal c db
                              | _ => db
                              end) conflicts db
  /\ ((forall c, c ∈ conflicts -> resolutions !! getConflictKey c <> Some Replace) ->
      fst result = db /\ fst (snd result) = 0).
Proof.
  unfold UploadHandler.applyConflictResolutions. rewrite upload_apply_fold. simpl.
  split; [|split; [done|split; [done|]]].
  - pose proof (filter_complement_length
                  (fun c => resolutions !! getConflictKey c = Some Replace) conflicts).
    unfold lengthZ. lia.
  - intros Hnone. split.
    + induction conflicts as [|c cs IH]; simpl; [done|].
      destruct (resolutions !! getConflictKey c) as [[]|] eqn:Hd.
      * destruct (Hnone c); [apply list_elem_of_here | done].
      * apply IH. intros c' Hc'. apply Hnone. by apply list_elem_of_further.
      * apply IH. intros c' Hc'. apply Hnone. by apply list_elem_of_further.
    + clear -Hnone. induction conflicts as [|c cs IH]; [done|].
      rewrite filter_cons, decide_False.
      * apply IH. intros c' Hc'. apply Hnone. by apply list_elem_of_further.
      * apply Hnone. apply list_elem_of_here.
Qed.

Lemma hook_apply_fold conflicts (resolutions : gmap string Action) :
  forall (db : T) (replaced kept : Z),
    fst (fst (fold_left
           (fun '(db, replaced, kept) conflict =>
              match resolutions !! getConflictKey conflict with
              | Some Replace =>
                  (put (incoming conflict) (delete (id (local conflict)) db),
                   replaced + 1, kept)
              | Some Skip => (db, replaced, kept + 1)
              | None => (db, replaced, kept)
              end)
           conflicts (db, replaced, kept)))
    = fold_left (fun db c => match resolutions !! getConflictKey c with
                             | Some Replace => replaceLocal c db
                             | _ => db
                             end) conflicts db.
Proof.
  induction conflicts as [|c cs IH]; intros db replaced kept; simpl; [done|].
  destruct (resolutions !! getConflictKey c) as [[]|]; by rewrite IH.
Qed.

(** X14.  The hook's [applyConflictResolutions] and the upload handler's
    function of the same name leave the same table behind. *)
Theorem apply_functions_agree (resolutions : gmap string Action)
    (s : HookState) (db : T) :
  snd (fst (applyConflictResolutions (Some resolutions) s db))
  = fst (UploadHandler.applyConflictResolutions (currentConflicts s) resolutions db).
Proof.
  unfold UploadHandler.applyConflictResolutions. rewrite upload_apply_fold. simpl.
  unfold applyConflictResolutions.
  pose proof (hook_apply_fold (currentConflicts s) resolutions db 0 0) as Hf.
  destruct (fold_left _ (currentConflicts s) (db, 0, 0)) as [[db' r] k].
  simpl in *. done.
Qed.

Lemma batch_resolutions_keep action l :
  forall (m : gmap string Action) k,
    m !! k = Some action ->
    fold_left (fun m c => <[getConflictKey c := action]> m) l m !! k = Some action.
Proof.
  induction l as [|c l IH]; intros m k Hk; simpl; [done|].
  apply IH. destruct (decide (getConflictKey c = k)) as [<- | Hne].
  - by rewrite lookup_insert_eq.
  - by rewrite lookup_insert_ne.
Qed.

Lemma batch_resolutions_lookup action l :
  forall (m : gmap string Action) c,
    c ∈ l ->
    fold_left (fun m c => <[getConflictKey c := action]> m) l m !! getConflictKey c
    = Some action.
Proof.
  induction l as [|c0 l IH]; intros m c Hc; [by apply elem_of_nil in Hc|].
  simpl. apply elem_of_cons in Hc as [-> | Hc].
  - apply batch_resolutions_keep. by rewrite lookup_insert_eq.
  - by apply IH.
Qed.

Lemma batch_fold action (decision : ConflictInfo -> option Action) l :
  (forall c, c ∈ l -> decision c = Some action) ->
  forall (db : T) (replaced skipped : Z),
    fold_left
      (fun '(db, replaced, skipped) conflict =>
         match decision conflict with
         | Some Replace =>
             (put (incoming conflict) (delete (id (local conflict)) db),
              replaced + 1, skipped)
         | _ => (db, replaced, skipped + 1)
         end)
      l (db, replaced, skipped)
    = (fold_left (fun db c => applyDecision db (c, action)) l db,
       replaced + (if decide (action = Replace) then lengthZ l else 0),
       skipped + (if decide (action = Replace) then 0 else lengthZ l)).
Proof.
  induction l as [|c l IH]; intros Hall db replaced skipped; simpl.
  - unfold lengthZ. simpl. destruct (decide _); by rewrite !Z.add_0_r.
  - rewrite (Hall c) by apply list_elem_of_here.
    assert (forall c', c' ∈ l -> decision c' = Some action) as Hall'.
    { intros c' Hc'. apply Hall. by apply list_elem_of_further. }
    destruct action; rewrite (IH Hall').
    + rewrite !decide_True by done. unfold lengthZ. simpl length.
      match goal with
      | |- (?a, ?b, ?c) = (?a', ?b', ?c') =>
          replace b with b' by lia; replace c with c' by lia
      end. done.
    + rewrite !decide_False by done. unfold lengthZ. simpl length.
      match goal with
      | |- (?a, ?b, ?c) = (?a', ?b', ?c') =>
          replace b with b' by lia; replace c with c' by lia
      end. done.
Qed.

(** X15.  [handleBatchResolve] gives the chosen action to every conflict
    from [currentConflictIndex] on, whatever was recorded before, and
    applies these conflicts only: with 'skip' the table is returned as
    it was, with 'replace' each remaining conflict is deleted and put,
    in order.  The decisions recorded for the conflicts before
    [currentConflictIndex] are dropped without being applied, and the
    state is reset. *)
Theorem batch_resolve_remaining (action : Action) (s : HookState) (db : T) :
  let remaining := drop (currentConflictIndex s) (currentConflicts s) in
  handleBatchResolve action s db
  = ({| showConflictDialog := false; currentConflicts := []; currentConflictIndex := 0%nat;
        conflictResolutions := ∅; resolutionHistory := []; isProcessing := false |},
     fold_left (fun db c => applyDecision db (c, action)) remaining db,
     [ToastSuccess
        ("Batch operation complete! "
         +:+ JS.stringOfInt (if decide (action = Replace) then lengthZ remaining else 0)
         +:+ " entries replaced, "
         +:+ JS.stringOfInt (if decide (action = Replace) then 0 else lengthZ remaining)
         +:+ " entries kept.")])
  /\ (action = Skip -> snd (fst (handleBatchResolve action s db)) = db).
Proof.
  intros remaining.
  assert (handleBatchResolve action s db
          = ({| showConflictDialog := false; currentConflicts := [];
                currentConflictIndex := 0%nat; conflictResolutions := ∅;
                resolutionHistory := []; isProcessing := false |},
             fold_left (fun db c => applyDecision db (c, action)) remaining db,
             [ToastSuccess
                ("Batch operation complete! "
                 +:+ JS.stringOfInt (if decide (action = Replace)
                                     then lengthZ remaining else 0)
                 +:+ " entries replaced, "
                 +:+ JS.stringOfInt (if decide (action = Replace)
                                     then 0 else lengthZ remaining)
                 +:+ " entries kept.")])) as Heq.
  { unfold handleBatchResolve. fold remaining.
    rewrite (batch_fold action
               (fun c => fold_left (fun m c => <[getConflictKey c := action]> m)
                                   remaining (conflictResolutions s)
                         !! getConflictKey c) remaining).
    - by rewrite !Z.add_0_l.
    - intros c Hc. by apply batch_resolutions_lookup. }
  split; [exact Heq|]. intros ->. rewrite Heq. simpl.
  clear Heq. generalize db. induction remaining as [|c l IH]; intros db0; simpl; [done|].
  apply IH.
Qed.
End ApplyFacts.

(* ===================================================================== *)
(** * Properties of the deterministic id *)
(* ===================================================================== *)

Module IdFacts.
Import MatchKeys MatchKeyFacts.

Lemma lowerChar_idem c : JS.lowerChar (JS.lowerChar c) = JS.lowerChar c.
Proof. destruct c as [[] [] [] [] [] [] [] []]; reflexivity. Qed.

Lemma isSpace_lowerChar c : JS.isSpace (JS.lowerChar c) = JS.isSpace c.
Proof. destruct c as [[] [] [] [] [] [] [] []]; reflexivity. Qed.

Lemma notColon_lowerChar c : notColon (JS.lowerChar c) = notColon c.
Proof. destruct c as [[] [] [] [] [] [] [] []]; reflexivity. Qed.

Lemma toLowerCase_idem s : JS.toLowerCase (JS.toLowerCase s) = JS.toLowerCase s.
Proof. induction s as [|c s IH]; simpl; [done|]. by rewrite lowerChar_idem, IH. Qed.

Lemma toLowerCase_app a b :
  JS.toLowerCase (a +:+ b) = JS.toLowerCase a +:+ JS.toLowerCase b.
Proof. induction a as [|c a IH]; simpl; [done|]. by rewrite IH. Qed.

Lemma toLowerCase_trimStart s :
  JS.toLowerCase (JS.trimStart s) = JS.trimStart (JS.toLowerCase s).
Proof.
  induction s as [|c s IH]; simpl; [done|]. rewrite isSpace_lowerChar.
  by destruct (JS.isSpace c).
Qed.

Lemma string_of_list_app l1 l2 :
  string_of_list_ascii (l1 ++ l2) = string_of_list_ascii l1 +:+ string_of_list_ascii l2.
Proof. induction l1 as [|c l1 IH]; simpl; [done|]. by rewrite IH. Qed.

Lemma strRev_cons c s : JS.strRev (String c s) = JS.strRev s +:+ String c EmptyString.
Proof. unfold JS.strRev. simpl. by rewrite string_of_list_app. Qed.

Lemma strRev_snoc c s : JS.strRev (s +:+ String c EmptyString) = String c (JS.strRev s).
Proof.
  rewrite <- (strRev_involutive s) at 1. rewrite <- strRev_cons.
  apply strRev_involutive.
Qed.

Lemma toLowerCase_strRev s :
  JS.toLowerCase (JS.strRev s) = JS.strRev (JS.toLowerCase s).
Proof.
  induction s as [|c s IH]; simpl; [done|].
  by rewrite !strRev_cons, toLowerCase_app, IH.
Qed.

Lemma toLowerCase_trim s : JS.toLowerCase (JS.trim s) = JS.trim (JS.toLowerCase s).
Proof.
  unfold JS.trim.
  by rewrite toLowerCase_strRev, toLowerCase_trimStart, toLowerCase_strRev,
    toLowerCase_trimStart.
Qed.

Lemma trimStart_idem s : JS.trimStart (JS.trimStart s) = JS.trimStart s.
Proof.
  induction s as [|c s IH]; simpl; [done|].
  destruct (JS.isSpace c) eqn:Hc; [done|]. simpl. by rewrite Hc.
Qed.

Lemma trimStart_head s c r : JS.trimStart s = String c r -> JS.isSpace c = false.
Proof.
  induction s as [|c' s IH]; simpl; [done|].
  destruct (JS.isSpace c') eqn:Hc; [done|]. by intros [= <- _].
Qed.

Lemma trimStart_snoc a c :
  JS.isSpace c = false ->
  JS.trimStart (a +:+ String c EmptyString) = JS.trimStart a +:+ String c EmptyString.
Proof.
  intros Hc. induction a as [|c' a IH]; simpl; [by rewrite Hc|].
  by destruct (JS.isSpace c').
Qed.

(** What [trim] leaves of a string that starts with a character that
    is not white space. *)
Lemma trim_cons c r :
  JS.isSpace c = false ->
  JS.trim (String c r) = String c (JS.strRev (JS.trimStart (JS.strRev r))).
Proof.
  intros Hc. unfold JS.trim. simpl. rewrite Hc.
  by rewrite strRev_cons, trimStart_snoc, strRev_snoc.
Qed.

Lemma trim_idem s : JS.trim (JS.trim s) = JS.trim s.
Proof.
  destruct (JS.trimStart s) as [|c r] eqn:Hs.
  - unfold JS.trim. rewrite Hs. done.
  - pose proof (trimStart_head _ _ _ Hs) as Hc.
    assert (JS.trim s = JS.trim (String c r)) as ->.
    { unfold JS.trim. rewrite <- Hs. by rewrite trimStart_idem. }
    rewrite !trim_cons by done. f_equal.
    by rewrite strRev_involutive, trimStart_idem.
Qed.

Lemma allChars_trimStart p s : allChars p s = true -> allChars p (JS.trimStart s) = true.
Proof.
  induction s as [|c s IH]; simpl; [done|]. rewrite andb_true_iff. intros [Hc Hs].
  destruct (JS.isSpace c); [auto|]. simpl. by rewrite Hc, Hs.
Qed.

Lemma allChars_trim p s : allChars p s = true -> allChars p (JS.trim s) = true.
Proof.
  intros Hs. unfold JS.trim.
  by apply allChars_strRev, allChars_trimStart, allChars_strRev, allChars_trimStart.
Qed.

Lemma allChars_toLowerCase p s :
  (forall c, p (JS.lowerChar c) = p c) ->
  allChars p (JS.toLowerCase s) = allChars p s.
Proof. intros Hp. induction s as [|c s IH]; simpl; [done|]. by rewrite Hp, IH. Qed.

Lemma colonFree_normalize key : colonFree key -> colonFree (normalizeEventKey key).
Proof.
  unfold colonFree, normalizeEventKey. intros Hk. apply allChars_trim.
  by rewrite allChars_toLowerCase by apply notColon_lowerChar.
Qed.

(** The text before the first separator. *)
Lemma split_sep (sep : ascii) a a' r r' :
  allChars (fun c => negb (Ascii.eqb c sep)) a = true ->
  allChars (fun c => negb (Ascii.eqb c sep)) a' = true ->
  a +:+ String sep r = a' +:+ String sep r' -> a = a' /\ r = r'.
Proof.
  revert a'. induction a as [|c a IH]; intros [|c' a']; simpl.
  - by intros _ _ [= ->].
  - rewrite andb_true_iff. intros _ [Hc _] [= <- _]. by rewrite Ascii.eqb_refl in Hc.
  - rewrite andb_true_iff. intros [Hc _] _ [= -> _]. by rewrite Ascii.eqb_refl in Hc.
  - rewrite !andb_true_iff. intros [_ Ha] [_ Ha'] [= -> Heq].
    destruct (IH a' Ha Ha' Heq) as [-> ->]. done.
Qed.

Lemma split_colon a a' r r' :
  colonFree a -> colonFree a' ->
  a +:+ String ":" r = a' +:+ String ":" r' -> a = a' /\ r = r'.
Proof. apply split_sep. Qed.

Lemma stringOfInt_neg p :
  JS.stringOfInt (Z.neg p) = String "-" (JS.stringOfInt (Z.pos p)).
Proof. done. Qed.

Lemma stringOfInt_head n :
  0 <= n -> exists c r, JS.stringOfInt n = String c r /\ isDigit c = true.
Proof.
  intros Hn. destruct (allDigits_stringOfInt n Hn) as [Hd Hne].
  destruct (JS.stringOfInt n) as [|c r]; [done|].
  simpl in Hd. apply andb_true_iff in Hd as [Hc _]. eauto.
Qed.

(** [String(n)] tells integers apart. *)
Lemma stringOfInt_inj n m : JS.stringOfInt n = JS.stringOfInt m -> n = m.
Proof.
  assert (forall n m, 0 <= n -> 0 <= m -> JS.stringOfInt n = JS.stringOfInt m -> n = m)
    as Hpos.
  { intros a b Ha Hb Heq. rewrite <- (decimalValue_stringOfInt a), <- (decimalValue_stringOfInt b)
      by done. by rewrite Heq. }
  destruct n as [|p|p], m as [|q|q]; intros Heq; try (by apply Hpos);
    rewrite ?stringOfInt_neg in Heq;
    try (injection Heq as Heq; apply Hpos in Heq; lia);
    match goal with
    | H : JS.stringOfInt ?a = String _ _ |- _ =>
        destruct (stringOfInt_head a) as (c & r & Hs & Hc); [lia|];
        rewrite Hs in H; injection H as -> _; done
    | H : String _ _ = JS.stringOfInt ?a |- _ =>
        destruct (stringOfInt_head a) as (c & r & Hs & Hc); [lia|];
        rewrite Hs in H; injection H as <- _; done
    end.
Qed.

(** [String(n)] has neither white space nor a colon. *)
Lemma stringOfInt_chars n :
  allChars (fun c => negb (JS.isSpace c) && notColon c) (JS.stringOfInt n) = true.
Proof.
  assert (forall n, 0 <= n ->
            allChars (fun c => negb (JS.isSpace c) && notColon c) (JS.stringOfInt n) = true)
    as Hpos.
  { intros a Ha. destruct (allDigits_stringOfInt a Ha) as [Hd _].
    revert Hd. apply allChars_impl. intros c Hc.
    destruct c as [[] [] [] [] [] [] [] []]; try done. }
  destruct n as [|p|p]; try (apply Hpos; lia).
  rewrite stringOfInt_neg. simpl. apply Hpos. lia.
Qed.

Lemma trim_stringOfInt n : JS.trim (JS.stringOfInt n) = JS.stringOfInt n.
Proof.
  apply trim_noSpace. generalize (stringOfInt_chars n). apply allChars_impl.
  intros c Hc. by apply andb_true_iff in Hc as [Hc _].
Qed.

Lemma colonFree_stringOfInt n : colonFree (JS.stringOfInt n).
Proof.
  unfold colonFree. generalize (stringOfInt_chars n). apply allChars_impl.
  intros c Hc. by apply andb_true_iff in Hc as [_ Hc].
Qed.

(** X4.  Normalising is idempotent, and the deterministic id of a record
    is the id of its normalised fields: letter case and surrounding
    white space of the event key, the match key and the alliance colour
    do not matter. *)
Theorem deterministic_id_normalised (eventKey matchKey : string) (teamNumber : Z)
    (allianceColor : string) :
  normalizeEventKey (normalizeEventKey eventKey) = normalizeEventKey eventKey
  /\ generateDeterministicEntryId (normalizeEventKey eventKey) (normalizeEventKey matchKey)
       teamNumber (normalizeEventKey allianceColor)
     = generateDeterministicEntryId eventKey matchKey teamNumber allianceColor
  /\ generateDeterministicEntryId (JS.toLowerCase eventKey) (JS.trim matchKey)
       teamNumber allianceColor
     = generateDeterministicEntryId eventKey matchKey teamNumber allianceColor.
Proof.
  assert (forall s, normalizeEventKey (normalizeEventKey s) = normalizeEventKey s) as Hidem.
  { intros s. unfold normalizeEventKey.
    by rewrite toLowerCase_trim, toLowerCase_idem, trim_idem. }
  split; [apply Hidem|]. unfold generateDeterministicEntryId.
  fold (normalizeEventKey (normalizeEventKey matchKey)).
  fold (normalizeEventKey (normalizeEventKey allianceColor)).
  rewrite !Hidem. split; [done|].
  unfold normalizeEventKey.
  by rewrite toLowerCase_idem, toLowerCase_trim, trim_idem.
Qed.

(** X5.  For event and match keys without a colon, two deterministic ids
    are equal exactly when the normalised event keys, the normalised
    match keys, the team numbers and the normalised alliance colours
    are: the id identifies the match slot of a record. *)
Theorem deterministic_id_identifies (event1 match1 : string) (team1 : Z)
    (alliance1 event2 match2 : string) (team2 : Z) (alliance2 : string) :
  colonFree event1 -> colonFree match1 -> colonFree event2 -> colonFree match2 ->
  generateDeterministicEntryId event1 match1 team1 alliance1
  = generateDeterministicEntryId event2 match2 team2 alliance2
  <-> normalizeEventKey event1 = normalizeEventKey event2
      /\ normalizeEventKey match1 = normalizeEventKey match2
      /\ team1 = team2
      /\ normalizeEventKey alliance1 = normalizeEventKey alliance2.
Proof.
  intros He1 Hm1 He2 Hm2. unfold generateDeterministicEntryId.
  fold (normalizeEventKey match1). fold (normalizeEventKey match2).
  fold (normalizeEventKey alliance1). fold (normalizeEventKey alliance2).
  rewrite !trim_stringOfInt. split.
  - intros Heq.
    apply split_colon in Heq as [HE Heq]; [|by apply colonFree_normalize..].
    injection Heq as Heq.
    apply split_colon in Heq as [HM Heq]; [|by apply colonFree_normalize..].
    injection Heq as Heq.
    apply split_colon in Heq as [HT Heq]; [|by apply colonFree_stringOfInt..].
    injection Heq as Heq.
    apply stringOfInt_inj in HT. done.
  - intros (-> & -> & -> & ->). done.
Qed.

End IdFacts.

Lemma deterministic_id_identifies_witness :
  generateDeterministicEntryId " 2026CASJ" "QM12 " 1781 "Red"
  = generateDeterministicEntryId "2026casj" "qm12" 1781 "red".
Proof.
  apply (IdFacts.deterministic_id_identifies " 2026CASJ" "QM12 " 1781 "Red"
           "2026casj" "qm12" 1781 "red");
    [reflexivity | reflexivity | reflexivity | reflexivity | by vm_compute].
Defined.

(* ===================================================================== *)
(** * Further properties of the classifier *)
(* ===================================================================== *)

Lemma mapOfPairs_is_Some {V : Type} (pairs : list (string * V)) k :
  k ∈ map fst pairs -> is_Some (mapOfPairs pairs !! k).
Proof.
  unfold mapOfPairs.
  assert (forall m : gmap string V,
            k ∈ map fst pairs \/ is_Some (m !! k) ->
            is_Some (fold_left (fun m kv => <[fst kv := snd kv]> m) pairs m !! k)) as Hgen.
  { induction pairs as [|[k' v'] pairs IH]; intros m Hk; simpl in *.
    - destruct Hk as [Hk | Hk]; [by apply elem_of_nil in Hk | done].
    - apply IH. destruct Hk as [Hk | Hk].
      + apply elem_of_cons in Hk as [-> | Hk]; [|by left].
        right. by rewrite lookup_insert_eq.
      + right. destruct (decide (k' = k)) as [-> | Hne].
        * by rewrite lookup_insert_eq.
        * by rewrite lookup_insert_ne. }
  intros Hk. apply Hgen. by left.
Qed.

(** An incoming record is left unpaired exactly when no local record
    has its primary id or its deterministic id. *)
Lemma matchingLocalOf_None rows e :
  matchingLocalOf rows e = None
  <-> forall l, l ∈ rows -> id l <> id e /\ deterministicIdOf l <> deterministicIdOf e.
Proof.
  split.
  - unfold matchingLocalOf, findMatchingLocal, localEntriesById, localEntriesByFields.
    intros Hnone l Hl.
    destruct (mapOfPairs (map (fun entry => (id entry, entry)) rows) !! id e) eqn:Hid;
      [done|].
    split.
    + intros Heq.
      destruct (mapOfPairs_is_Some (map (fun entry => (id entry, entry)) rows) (id e))
        as [x Hx]; [|by rewrite Hx in Hid].
      rewrite <- Heq. rewrite map_map. simpl. apply list_elem_of_fmap. eauto.
    + intros Heq.
      destruct (mapOfPairs_is_Some
                  (map (fun entry => (deterministicIdOf entry, entry)) rows)
                  (deterministicIdOf e)) as [x Hx]; [|by rewrite Hx in Hnone].
      rewrite <- Heq. rewrite map_map. simpl. apply list_elem_of_fmap. eauto.
  - intros Hall. destruct (matchingLocalOf rows e) as [l|] eqn:Hm; [|done].
    apply matchingLocalOf_sound in Hm as [Hl [Hid | Hdet]];
      destruct (Hall l Hl); done.
Qed.

Section ClassifierShape.
Context {collator : Collator} {engine : Engine}.

(** One incoming record goes to at most one bucket. *)
Lemma contribution_shape byId byFields e :
  let c := contribution byId byFields e in
  c = emptyResult
  \/ (c = pushImport emptyResult e /\ findMatchingLocal byId byFields e = None)
  \/ c = pushReplace emptyResult e
  \/ c = pushBatch emptyResult e
  \/ exists l ty newer,
       findMatchingLocal byId byFields e = Some l
       /\ c = pushConflict emptyResult
                {| incoming := e; local := l; conflictType := ty;
                   isNewerIncoming := newer;
                   changedFields := computeChangedFields l e |}.
Proof.
  unfold contribution, classifyEntry.
  destruct (findMatchingLocal byId byFields e) as [l|] eqn:Hm; simpl.
  - unfold classifyMatched. repeat case_match; eauto 10.
  - eauto.
Qed.

Lemma contribution_length byId byFields e :
  let c := contribution byId byFields e in
  (length (autoImport c) + length (autoReplace c) + length (batchReview c)
   + length (conflicts c) <= 1)%nat.
Proof.
  destruct (contribution_shape byId byFields e)
    as [-> | [[-> _] | [-> | [-> | (l & ty & newer & _ & ->)]]]]; simpl; lia.
Qed.

Context {T : Type} {table : Table T}.

Lemma buckets_length byId byFields es :
  let r := fold_left (classifyEntry byId byFields) es emptyResult in
  (length (autoImport r) + length (autoReplace r) + length (batchReview r)
   + length (conflicts r) <= length es)%nat.
Proof.
  induction es as [|e es IH]; [simpl; lia|].
  rewrite fold_classify_cons. unfold appendResult. simpl. rewrite !length_app.
  pose proof (contribution_length byId byFields e). simpl in *. lia.
Qed.

(** X6.  An incoming record is imported without review exactly when it
    is new: no local record has its id, and none has its deterministic
    id. *)
Theorem auto_import_exactly_unmatched (db : T) (incomingData : list ScoutingEntryBase)
    (e : ScoutingEntryBase) :
  e ∈ autoImport (detectConflicts db incomingData)
  <-> e ∈ incomingData
      /\ forall l, l ∈ toArray db ->
           id l <> id e /\ deterministicIdOf l <> deterministicIdOf e.
Proof.
  rewrite <- matchingLocalOf_None. unfold detectConflicts, matchingLocalOf.
  rewrite elem_of_autoImport. split.
  - intros (e' & He' & Hx).
    destruct (contribution_shape (localEntriesById (toArray db))
                (localEntriesByFields (toArray db)) e')
      as [Hc | [[Hc Hm] | [Hc | [Hc | (l & ty & newer & _ & Hc)]]]];
      simpl in Hc; rewrite Hc in Hx; simpl in Hx;
      try (by apply elem_of_nil in Hx).
    apply list_elem_of_singleton in Hx as ->. done.
  - intros [He Hm]. exists e. split; [done|].
    rewrite contribution_unmatched by done. simpl. apply list_elem_of_here.
Qed.

(** X7.  The four buckets hold incoming records only, a conflict pairs
    its incoming record with a local one, no incoming record is in two
    buckets, and together the buckets hold at most as many records as
    came in. *)
Theorem buckets_partition (db : T) (incomingData : list ScoutingEntryBase) :
  let r := detectConflicts db incomingData in
  lengthZ (autoImport r) + lengthZ (autoReplace r) + lengthZ (batchReview r)
  + lengthZ (conflicts r) <= lengthZ incomingData
  /\ (forall e, e ∈ autoImport r \/ e ∈ autoReplace r \/ e ∈ batchReview r ->
        e ∈ incomingData)
  /\ (forall c, c ∈ conflicts r ->
        incoming c ∈ incomingData
        /\ matchingLocalOf (toArray db) (incoming c) = Some (local c)
        /\ changedFields c = computeChangedFields (local c) (incoming c))
  /\ (forall e, e ∈ autoImport r ->
        (e ∉ autoReplace r) /\ (e ∉ batchReview r)
        /\ forall c, c ∈ conflicts r -> incoming c <> e)
  /\ (forall e, e ∈ autoReplace r ->
        (e ∉ batchReview r) /\ forall c, c ∈ conflicts r -> incoming c <> e)
  /\ (forall e, e ∈ batchReview r -> forall c, c ∈ conflicts r -> incoming c <> e).
Proof.
  intros r. subst r.
  set (byId := localEntriesById (toArray db)).
  set (byFields := localEntriesByFields (toArray db)).
  assert (forall e,
            contribution byId byFields e = emptyResult
            \/ (contribution byId byFields e = pushImport emptyResult e)
            \/ contribution byId byFields e = pushReplace emptyResult e
            \/ contribution byId byFields e = pushBatch emptyResult e
            \/ exists l ty newer,
                 contribution byId byFields e
                 = pushConflict emptyResult
                     {| incoming := e; local := l; conflictType := ty;
                        isNewerIncoming := newer;
                        changedFields := computeChangedFields l e |}) as Hshape.
  { intros e. destruct (contribution_shape byId byFields e)
      as [Hc | [[Hc _] | [Hc | [Hc | (l & ty & newer & _ & Hc)]]]]; eauto 10. }
  split; [|split; [|split; [|split; [|split]]]].
  - pose proof (buckets_length byId byFields incomingData) as Hlen.
    unfold detectConflicts, lengthZ. fold byId byFields. simpl in Hlen. lia.
  - intros e [He | [He | He]]; unfold detectConflicts in He; fold byId byFields in He.
    + apply elem_of_autoImport in He as (e' & He' & Hx).
      by rewrite (proj1 (contribution_own _ _ _) _ Hx).
    + apply elem_of_autoReplace in He as (e' & He' & Hx).
      by rewrite (proj1 (proj2 (contribution_own _ _ _)) _ Hx).
    + apply elem_of_batchReview in He as (e' & He' & Hx).
      by rewrite (proj1 (proj2 (proj2 (contribution_own _ _ _))) _ Hx).
  - intros c Hc. unfold detectConflicts in Hc. fold byId byFields in Hc.
    apply elem_of_conflicts in Hc as (e' & He' & Hx).
    destruct (contribution_shape byId byFields e')
      as [Hc | [[Hc _] | [Hc | [Hc | (l & ty & newer & Hm & Hc)]]]];
      simpl in Hc; rewrite Hc in Hx; simpl in Hx;
      try (by apply elem_of_nil in Hx).
    apply list_elem_of_singleton in Hx as ->. simpl. done.
  - intros e He%in_autoImport_own. fold byId byFields in He.
    split; [|split].
    + intros Hx%in_autoReplace_own. fold byId byFields in Hx.
      destruct (Hshape e) as [Hc | [Hc | [Hc | [Hc | (l & ty & newer & Hc)]]]];
        rewrite Hc in He, Hx; simpl in *;
        first [by apply elem_of_nil in He | by apply elem_of_nil in Hx].
    + intros Hx%in_batchReview_own. fold byId byFields in Hx.
      destruct (Hshape e) as [Hc | [Hc | [Hc | [Hc | (l & ty & newer & Hc)]]]];
        rewrite Hc in He, Hx; simpl in *;
        first [by apply elem_of_nil in He | by apply elem_of_nil in Hx].
    + intros c Hx%in_conflicts_own <-. fold byId byFields in Hx.
      destruct (Hshape (incoming c))
        as [Hc | [Hc | [Hc | [Hc | (l & ty & newer & Hc)]]]];
        rewrite Hc in He, Hx; simpl in *;
        first [by apply elem_of_nil in He | by apply elem_of_nil in Hx].
  - intros e He%in_autoReplace_own. fold byId byFields in He. split.
    + intros Hx%in_batchReview_own. fold byId byFields in Hx.
      destruct (Hshape e) as [Hc | [Hc | [Hc | [Hc | (l & ty & newer & Hc)]]]];
        rewrite Hc in He, Hx; simpl in *;
        first [by apply elem_of_nil in He | by apply elem_of_nil in Hx].
    + intros c Hx%in_conflicts_own <-. fold byId byFields in Hx.
      destruct (Hshape (incoming c))
        as [Hc | [Hc | [Hc | [Hc | (l & ty & newer & Hc)]]]];
        rewrite Hc in He, Hx; simpl in *;
        first [by apply elem_of_nil in He | by apply elem_of_nil in Hx].
  - intros e He%in_batchReview_own c Hx%in_conflicts_own <-.
    fold byId byFields in He, Hx.
    destruct (Hshape (incoming c))
      as [Hc | [Hc | [Hc | [Hc | (l & ty & newer & Hc)]]]];
      rewrite Hc in He, Hx; simpl in *;
      first [by apply elem_of_nil in He | by apply elem_of_nil in Hx].
Qed.

End ClassifierShape.

Section ReorderedPayload.
Context {collator : Collator} {lawful : LawfulCollator collator} {engine : Engine}.
Context {T : Type} {table : Table T}.

(** X8.  With a collator that is a strict total order, an incoming
    record that is paired with a local record of the same correction
    status, and whose payload lists the same top-level properties in
    another order, has the fingerprint of the local record and is
    treated as already synced: it is put in no bucket.  (For two
    corrected records the correction times must also be within one
    second.) *)
Theorem reordered_payload_synced (db : T) (incomingData : list ScoutingEntryBase)
    (e l : ScoutingEntryBase) :
  e ∈ incomingData ->
  matchingLocalOf (toArray db) e = Some l ->
  JS.truthyBool (isCorrected l) = JS.truthyBool (isCorrected e) ->
  (JS.truthyBool (isCorrected e) = true ->
   Z.abs (correctionTime l - correctionTime e) <= 1000) ->
  NoDup (map fst (gameDataOrEmpty l)) ->
  gameDataOrEmpty l ≡ₚ gameDataOrEmpty e ->
  generateDataFingerprint l = generateDataFingerprint e
  /\ inNoBucket (detectConflicts db incomingData) e.
Proof.
  intros He Hm Hflags Hnear Hnd Hperm.
  pose proof (fingerprint_top_level_order l e Hnd Hperm) as Hfp.
  split; [done|]. apply empty_contribution_inNoBucket.
  rewrite (contribution_matched _ _ _ _ Hm).
  destruct (JS.truthyBool (isCorrected e)) eqn:Hce.
  - apply matched_corrected_same_near; auto.
  - by apply matched_uncorrected_same.
Qed.

End ReorderedPayload.

Lemma reordered_payload_synced_witness :
  generateDataFingerprint (collator := codeUnitCollator) Examples.localAB
  = generateDataFingerprint (collator := codeUnitCollator) Examples.incomingBA
  /\ inNoBucket (Fixtures.classify [Examples.localAB] [Examples.incomingBA])
                Examples.incomingBA.
Proof.
  apply (reordered_payload_synced (lawful := codeUnitCollator_lawful) (table := listTable)
           [Examples.localAB] [Examples.incomingBA] Examples.incomingBA Examples.localAB).
  - apply list_elem_of_here.
  - vm_compute; reflexivity.
  - reflexivity.
  - discriminate.
  - simpl. apply NoDup_cons. split; [set_solver|]. apply NoDup_singleton.
  - simpl. apply Permutation_swap.
Defined.

(* ===================================================================== *)
(** * Properties of [computeChangedFields] *)
(* ===================================================================== *)

Lemma json_nested_ind (P : json -> Prop) :
  P JNull -> (forall b, P (JBool b)) -> (forall n, P (JNum n)) -> (forall s, P (JStr s)) ->
  (forall items, Forall P items -> P (JArr items)) ->
  (forall props, Forall (fun kv => P (snd kv)) props -> P (JObj props)) ->
  forall v, P v.
Proof.
  intros Hnull Hbool Hnum Hstr Harr Hobj. fix IH 1. intros [ |b|n|s|items|props].
  - exact Hnull.
  - apply Hbool.
  - apply Hnum.
  - apply Hstr.
  - apply Harr. induction items as [|x items IHitems]; constructor; [apply IH | exact IHitems].
  - apply Hobj. induction props as [|[k x] props IHprops]; constructor;
      [apply IH | exact IHprops].
Qed.

Lemma ownSet_values (Q : json -> Prop) props key value :
  Forall (fun kv => Q (snd kv)) props -> Q value ->
  Forall (fun kv => Q (snd kv)) (ownSet props key value).
Proof.
  intros Hobj Hv. induction Hobj as [|[k v] rest Hk Hrest IH]; simpl.
  - by constructor.
  - repeat case_match; repeat constructor; done.
Qed.

Lemma objSet_values (Q : json -> Prop) obj key value :
  Forall (fun kv => Q (snd kv)) (own obj) -> Q value ->
  Forall (fun kv => Q (snd kv)) (own (objSet obj key value)).
Proof.
  intros Hobj Hv. unfold objSet.
  repeat case_match; simpl; try done; by apply ownSet_values.
Qed.

Lemma objAssign_values (Q : json -> Prop) target source :
  Forall (fun kv => Q (snd kv)) (own target) ->
  Forall (fun kv => Q (snd kv)) (own source) ->
  Forall (fun kv => Q (snd kv)) (own (objAssign target source)).
Proof.
  unfold objAssign. generalize (own source) as props. intros props. revert target.
  induction props as [|[k v] rest IH]; intros target Ht Hs; simpl; [done|].
  apply Forall_cons in Hs as [Hv Hs]. apply IH; [|done]. by apply (objSet_values Q).
Qed.

(** A flattened object has no own property whose value is a plain
    object. *)
Lemma flattenValue_leaves value :
  forall fullKey flattened,
    Forall (fun kv => isPlainObject (snd kv) = false) (own flattened) ->
    Forall (fun kv => isPlainObject (snd kv) = false)
           (own (flattenValue fullKey value flattened)).
Proof.
  induction value as [ |b|n|s|items _|props IH] using json_nested_ind;
    intros fullKey flattened Hf;
    try (by apply (objSet_values (fun x => isPlainObject x = false))).
  simpl. apply (objAssign_values (fun x => isPlainObject x = false)); [done|].
  assert (forall nested,
            Forall (fun kv => isPlainObject (snd kv) = false) (own nested) ->
            Forall (fun kv => isPlainObject (snd kv) = false)
              (own ((fix entries (props : list (string * json)) (nested : JSObject) :=
                       match props with
                       | [] => nested
                       | (key, v) :: rest =>
                           entries rest (flattenValue (fullKeyOf fullKey key) v nested)
                       end) props nested))) as Hgo.
  { induction IH as [|[k v] rest Hv _ IHrest]; intros nested Hn; [done|].
    apply IHrest. by apply Hv. }
  apply Hgo. constructor.
Qed.

Lemma flattenObject_leaves obj prefix :
  Forall (fun kv => isPlainObject (snd kv) = false) (own (flattenObject obj prefix)).
Proof.
  unfold flattenObject.
  assert (forall flattened,
            Forall (fun kv => isPlainObject (snd kv) = false) (own flattened) ->
            Forall (fun kv => isPlainObject (snd kv) = false)
              (own (fold_left (fun flattened kv =>
                                 flattenValue (fullKeyOf prefix (fst kv)) (snd kv) flattened)
                              obj flattened))) as Hgo.
  { induction obj as [|[k v] rest IH]; intros flattened Hf; simpl; [done|].
    apply IH. by apply flattenValue_leaves. }
  apply Hgo. constructor.
Qed.

Lemma ownGet_elem_of props key value : ownGet props key = Some value -> (key, value) ∈ props.
Proof.
  induction props as [|[k v] rest IH]; simpl; [done|].
  destruct (String.eqb k key) eqn:Hk.
  - apply String.eqb_eq in Hk as ->. intros [= ->]. apply list_elem_of_here.
  - intros Hg. apply list_elem_of_further. by apply IH.
Qed.

Lemma ownGet_None props key : ownGet props key = None <-> key ∉ map fst props.
Proof.
  induction props as [|[k v] rest IH]; simpl.
  - split; [intros _; apply not_elem_of_nil | done].
  - destruct (String.eqb k key) eqn:Hk.
    + apply String.eqb_eq in Hk as ->. split; [done|]. intros Hn.
      destruct Hn. apply list_elem_of_here.
    + apply String.eqb_neq in Hk. rewrite IH, not_elem_of_cons. naive_solver.
Qed.

Lemma setOfKeys_spec keys :
  NoDup (setOfKeys keys) /\ forall k, k ∈ setOfKeys keys <-> k ∈ keys.
Proof.
  assert (forall seen,
            NoDup seen ->
            NoDup (fold_left (fun seen k =>
                                if existsb (String.eqb k) seen then seen else seen ++ [k])
                             keys seen)
            /\ forall k, k ∈ fold_left (fun seen k =>
                                if existsb (String.eqb k) seen then seen else seen ++ [k])
                             keys seen <-> k ∈ seen \/ k ∈ keys) as Hgo.
  { induction keys as [|x keys IH]; intros seen Hnd; simpl.
    - split; [done|]. intros k. split; [by left|].
      intros [? | Hin]; [done | by apply elem_of_nil in Hin].
    - destruct (existsb (String.eqb x) seen) eqn:Hx.
      + apply existsb_exists in Hx as (y & Hy & Hxy).
        apply String.eqb_eq in Hxy as <-. apply list_elem_of_In in Hy.
        destruct (IH seen Hnd) as [Hn Hm]. split; [done|]. intros k. rewrite Hm.
        rewrite elem_of_cons. naive_solver.
      + assert (x ∉ seen) as Hnx.
        { intros Hin. apply list_elem_of_In in Hin.
          assert (existsb (String.eqb x) seen = true) as Ht; [|congruence].
          apply existsb_exists. exists x. split; [done | apply String.eqb_refl]. }
        destruct (IH (seen ++ [x])) as [Hn Hm].
        { apply NoDup_app. split; [done|]. split; [|apply NoDup_singleton].
          intros y Hy Hy'. apply list_elem_of_singleton in Hy' as ->. done. }
        split; [done|]. intros k. rewrite Hm, elem_of_app, list_elem_of_singleton,
          elem_of_cons. naive_solver. }
  destruct (Hgo [] (NoDup_nil_2)) as [Hn Hm]. split; [exact Hn|].
  intros k. unfold setOfKeys. rewrite Hm. split; [|by right].
  intros [Hin | ?]; [by apply elem_of_nil in Hin | done].
Qed.

Lemma textsDiffer_spec a b : textsDiffer a b = true <-> a <> b.
Proof.
  destruct a as [x|], b as [y|]; simpl; try (split; done).
  rewrite negb_true_iff, String.eqb_neq. split; [congruence|]. intros Hn Heq. by subst.
Qed.

Lemma textsDiffer_refl a : textsDiffer a a = false.
Proof. destruct a as [x|]; simpl; [|done]. by rewrite String.eqb_refl. Qed.

Section ChangedFields.
Context {engine : Engine}.
Variables flattenedLocal flattenedIncoming : JSObject.

Lemma step_cases changes f :
  (compareField flattenedLocal flattenedIncoming changes f = changes
   /\ forall c, field c = f -> ~ reported flattenedLocal flattenedIncoming c)
  \/ exists c,
       compareField flattenedLocal flattenedIncoming changes f = changes ++ [c]
       /\ field c = f /\ reported flattenedLocal flattenedIncoming c
       /\ forall c', field c' = f -> reported flattenedLocal flattenedIncoming c' -> c' = c.
Proof.
  unfold compareField, reported.
  destruct (isNullish (objGet flattenedIncoming f)) eqn:Hni.
  { left. split; [done|]. intros c <- (_ & Hc & _ & Hn & _). congruence. }
  destruct (isNullish (objGet flattenedLocal f)) eqn:Hnl.
  { left. split; [done|]. intros c <- (Hc & _ & Hn & _). congruence. }
  destruct (textsDiffer (stringifyValue (objGet flattenedLocal f))
                        (stringifyValue (objGet flattenedIncoming f))) eqn:Hs.
  - apply textsDiffer_spec in Hs. right.
    exists {| field := f; localValue := objGet flattenedLocal f;
              incomingValue := objGet flattenedIncoming f |}. simpl.
    split; [done|]. split; [done|]. split; [done|].
    intros [f' lv' iv']. simpl. intros -> (Hcl & Hci & _). congruence.
  - left. split; [done|]. intros c <- (Hcl & Hci & _ & _ & Hne).
    rewrite <- Hcl, <- Hci in Hne. apply textsDiffer_spec in Hne. congruence.
Qed.

Lemma fold_step_elem_of fields :
  forall changes c,
    c ∈ fold_left (compareField flattenedLocal flattenedIncoming) fields changes
    <-> c ∈ changes \/ (field c ∈ fields /\ reported flattenedLocal flattenedIncoming c).
Proof.
  induction fields as [|f fields IH]; intros changes c; simpl.
  - split; [by left|]. intros [? | [Hin _]]; [done | by apply elem_of_nil in Hin].
  - rewrite IH.
    destruct (step_cases changes f) as [[-> Hnone] | (c0 & -> & Hf & Hrep & Huniq)].
    + split.
      * intros [? | [Hin Hr]]; [by left|]. right. split; [|done].
        by apply list_elem_of_further.
      * intros [? | [Hin Hr]]; [by left|].
        apply elem_of_cons in Hin as [Heq | Hin]; [by destruct (Hnone c Heq)|].
        by right.
    + rewrite elem_of_app, list_elem_of_singleton. split.
      * intros [[? | ->] | [Hin Hr]]; [by left | |].
        -- right. rewrite Hf. split; [apply list_elem_of_here | done].
        -- right. split; [by apply list_elem_of_further | done].
      * intros [? | [Hin Hr]]; [by left; left|].
        apply elem_of_cons in Hin as [Heq | Hin].
        -- left. right. by apply Huniq.
        -- by right.
Qed.

Lemma fold_step_NoDup fields :
  forall changes,
    NoDup (map field changes ++ fields) ->
    NoDup (map field (fold_left (compareField flattenedLocal flattenedIncoming)
                                fields changes)).
Proof.
  induction fields as [|f fields IH]; intros changes Hnd; simpl.
  - by rewrite app_nil_r in Hnd.
  - apply IH.
    destruct (step_cases changes f) as [[-> _] | (c0 & -> & Hf & _)].
    + apply NoDup_app in Hnd as (Hc & Hdisj & Hfs).
      apply NoDup_cons in Hfs as [_ Hfs]. apply NoDup_app. split; [done|].
      split; [|done]. intros x Hx Hin. apply (Hdisj x Hx). by apply list_elem_of_further.
    + rewrite map_app. simpl. rewrite Hf. by rewrite <- app_assoc.
Qed.

Lemma fold_step_same fields :
  flattenedLocal = flattenedIncoming ->
  forall changes,
    fold_left (compareField flattenedLocal flattenedIncoming) fields changes = changes.
Proof.
  intros Heq. induction fields as [|f fields IH]; intros changes; simpl; [done|].
  rewrite IH. unfold compareField. rewrite Heq, textsDiffer_refl.
  by repeat case_match.
Qed.

(** Where the prototype chain answers nothing under the names of the
    fields, a change is reported for own properties only. *)
Lemma reported_own c :
  nothingInherited flattenedLocal flattenedIncoming ->
  field c ∈ map fst (own flattenedLocal) ++ map fst (own flattenedIncoming) ->
  reported flattenedLocal flattenedIncoming c
  <-> ownReported flattenedLocal flattenedIncoming c.
Proof.
  intros Hnone Hin. destruct (Hnone _ Hin) as [Hl Hi].
  unfold reported, ownReported, objGet in *. split.
  - intros (Hcl & Hci & Hnl & Hni & Hne).
    destruct (ownGet (own flattenedLocal) (field c)) as [lv|] eqn:Hgl;
      [|rewrite (Hl eq_refl) in Hcl; by rewrite <- Hcl in Hnl].
    destruct (ownGet (own flattenedIncoming) (field c)) as [iv|] eqn:Hgi;
      [|rewrite (Hi eq_refl) in Hci; by rewrite <- Hci in Hni].
    exists lv, iv. rewrite <- Hcl, <- Hci in *. simpl in *.
    repeat split; try done.
    + by intros ->.
    + by intros ->.
    + congruence.
  - intros (lv & iv & Hgl & Hgi & Hcl & Hci & Hnl & Hni & Hne).
    rewrite Hgl, Hgi, Hcl, Hci. simpl. repeat split; try done.
    + by destruct lv.
    + by destruct iv.
    + congruence.
Qed.

End ChangedFields.

(** X9.  [computeChangedFields] reports exactly the fields that one of
    the two flattened payloads has as an own property and under which
    both answer, when read, something other than [null] and
    [undefined] with different JSON texts; each field once, with the
    two answers.  A read is answered by the own property or else by
    the prototype chain of the flattened object.  No own property of
    a flattened payload is a plain object, since those are flattened,
    and two records with the same payload have no changed field.
    Where the prototype chain answers nothing under the names of the
    fields, the reported fields are exactly those that both flattened
    payloads have themselves, with values other than [null] whose
    JSON texts differ, so that a field that only one record has is
    not reported. *)
Theorem changed_fields_exact {engine : Engine}
    (localEntry incomingEntry : ScoutingEntryBase) :
  let flattenedLocal := flattenObject (gameDataOrEmpty localEntry) EmptyString in
  let flattenedIncoming := flattenObject (gameDataOrEmpty incomingEntry) EmptyString in
  let changes := computeChangedFields localEntry incomingEntry in
  (forall c, c ∈ changes
             <-> field c ∈ map fst (own flattenedLocal) ++ map fst (own flattenedIncoming)
                 /\ objGet flattenedLocal (field c) = localValue c
                 /\ objGet flattenedIncoming (field c) = incomingValue c
                 /\ isNullish (localValue c) = false
                 /\ isNullish (incomingValue c) = false
                 /\ stringifyValue (localValue c) <> stringifyValue (incomingValue c))
  /\ NoDup (map field changes)
  /\ (forall key value,
        ownGet (own flattenedLocal) key = Some value
        \/ ownGet (own flattenedIncoming) key = Some value ->
        isPlainObject value = false)
  /\ (gameDataOrEmpty localEntry = gameDataOrEmpty incomingEntry -> changes = [])
  /\ (nothingInherited flattenedLocal flattenedIncoming ->
      forall c, c ∈ changes
                <-> exists lv iv,
                      ownGet (own flattenedLocal) (field c) = Some lv
                      /\ ownGet (own flattenedIncoming) (field c) = Some iv
                      /\ localValue c = Data lv /\ incomingValue c = Data iv
                      /\ lv <> JNull /\ iv <> JNull
                      /\ Json.stringify lv <> Json.stringify iv).
Proof.
  intros flattenedLocal flattenedIncoming changes.
  destruct (setOfKeys_spec (map fst (own flattenedLocal) ++ map fst (own flattenedIncoming)))
    as [Hnd Hkeys].
  assert (forall c, c ∈ changes
             <-> field c ∈ map fst (own flattenedLocal) ++ map fst (own flattenedIncoming)
                 /\ reported flattenedLocal flattenedIncoming c) as Hmem.
  { intros c. subst changes. unfold computeChangedFields.
    fold flattenedLocal flattenedIncoming.
    change (c ∈ fold_left (compareField flattenedLocal flattenedIncoming)
                  (setOfKeys (map fst (own flattenedLocal)
                              ++ map fst (own flattenedIncoming))) []
            <-> field c ∈ map fst (own flattenedLocal) ++ map fst (own flattenedIncoming)
                /\ reported flattenedLocal flattenedIncoming c).
    rewrite (fold_step_elem_of flattenedLocal flattenedIncoming), Hkeys. split.
    - intros [Hin | Hr]; [by apply elem_of_nil in Hin | exact Hr].
    - intros Hr. by right. }
  split; [exact Hmem|]. split; [|split; [|split]].
  - subst changes. unfold computeChangedFields. fold flattenedLocal flattenedIncoming.
    by apply (fold_step_NoDup flattenedLocal flattenedIncoming).
  - intros key value Hg.
    pose proof (flattenObject_leaves (gameDataOrEmpty localEntry) EmptyString) as Fl.
    pose proof (flattenObject_leaves (gameDataOrEmpty incomingEntry) EmptyString) as Fi.
    rewrite Forall_forall in Fl, Fi.
    destruct Hg as [Hg | Hg]; apply ownGet_elem_of in Hg.
    + apply (Fl _ Hg).
    + apply (Fi _ Hg).
  - intros Heq. subst changes. unfold computeChangedFields.
    apply (fold_step_same (flattenObject (gameDataOrEmpty localEntry) EmptyString)
             (flattenObject (gameDataOrEmpty incomingEntry) EmptyString)).
    by rewrite Heq.
  - intros Hnone c. rewrite Hmem. split.
    + intros [Hin Hr]. by apply (reported_own flattenedLocal flattenedIncoming c Hnone Hin).
    + intros Hr. assert (field c ∈ map fst (own flattenedLocal)
                                   ++ map fst (own flattenedIncoming)) as Hin.
      { destruct Hr as (lv & iv & Hgl & _). apply elem_of_app. left.
        apply ownGet_elem_of in Hgl. apply list_elem_of_fmap. by exists (field c, lv). }
      split; [done|]. by apply (reported_own flattenedLocal flattenedIncoming c Hnone Hin).
Qed.

(** With the built-in prototypes of ECMAScript, the prototype chain
    answers nothing under the names of the fields when no payload has
    replaced the prototype of its flattened object and no field bears
    a name of [Object.prototype]. *)
Lemma standard_nothingInherited (flattenedLocal flattenedIncoming : JSObject) :
  prototype flattenedLocal = ObjectPrototype ->
  prototype flattenedIncoming = ObjectPrototype ->
  (forall key,
     key ∈ map fst (own flattenedLocal) ++ map fst (own flattenedIncoming) ->
     key <> "__proto__" /\ key ∉ objectPrototypeNames) ->
  nothingInherited (engine := standardEngine) flattenedLocal flattenedIncoming.
Proof.
  intros Hl Hi Hkeys key Hin. destruct (Hkeys key Hin) as [Hproto Hname].
  assert (standardInherited ObjectPrototype key = Undefined) as Hnone.
  { unfold standardInherited, builtinFunction.
    apply String.eqb_neq in Hproto. rewrite Hproto.
    destruct (existsb (String.eqb key) objectPrototypeNames) eqn:Hex; [|done].
    apply existsb_exists in Hex as (name & Hn & Heq).
    apply String.eqb_eq in Heq as <-. destruct Hname. by apply list_elem_of_In. }
  unfold objGet. rewrite Hl, Hi. simpl. by split; intros ->.
Qed.

Lemma changed_fields_exact_witness :
  let l := Examples.scored "l" [("score", JNum 10); ("notes", JStr "none")] in
  let i := Examples.scored "i" [("score", JNum 12)] in
  {| field := "score"; localValue := Data (JNum 10); incomingValue := Data (JNum 12) |}
  ∈ computeChangedFields (engine := standardEngine) l i
  /\ forall c, c ∈ computeChangedFields (engine := standardEngine) l i ->
               field c <> "notes".
Proof.
  cbv zeta.
  destruct (changed_fields_exact (engine := standardEngine)
              (Examples.scored "l" [("score", JNum 10); ("notes", JStr "none")])
              (Examples.scored "i" [("score", JNum 12)]))
    as (_ & _ & _ & _ & Hown).
  assert (nothingInherited (engine := standardEngine)
            (flattenObject
               (gameDataOrEmpty
                  (Examples.scored "l" [("score", JNum 10); ("notes", JStr "none")]))
               EmptyString)
            (flattenObject (gameDataOrEmpty (Examples.scored "i" [("score", JNum 12)]))
               EmptyString)) as Hnone.
  { apply standard_nothingInherited; [reflexivity | reflexivity |].
    intros key Hin. change (key ∈ ["score"; "notes"; "score"]) in Hin.
    assert (key = "score" \/ key = "notes") as [-> | ->] by set_solver;
      (split; [discriminate | vm_compute; set_solver]). }
  split.
  - apply (Hown Hnone). exists (JNum 10), (JNum 12).
    repeat split; try reflexivity; try discriminate; vm_compute; discriminate.
  - intros c Hc. apply (Hown Hnone) in Hc as (lv & iv & _ & Hi & _).
    intros Hf. rewrite Hf in Hi. vm_compute in Hi. discriminate.
Defined.

(** A name that every object inherits is a field like any other.  The
    flattened empty payload answers the function [constructor] of
    [Object.prototype]; against the payload [{constructor: 1}] the
    code reports one changed field, whose local value is that
    function. *)
Lemma inherited_field_reported :
  computeChangedFields (engine := standardEngine)
    (Examples.scored "l" []) (Examples.scored "i" [("constructor", JNum 1)])
  = [ {| field := "constructor"; localValue := Foreign None;
         incomingValue := Data (JNum 1) |} ].
Proof. vm_compute. reflexivity. Qed.

(** A property ["__proto__"] of a payload is not a field of the
    flattened object: it replaces its prototype.  Here the flattened
    local payload inherits [length], 1, from the array, and the code
    reports it against the incoming property [length]. *)
Lemma proto_field_replaces_prototype :
  computeChangedFields (engine := standardEngine)
    (Examples.scored "l" [("__proto__", JArr [JStr "x"]); ("score", JNum 1)])
    (Examples.scored "i" [("length", JNum 2); ("score", JNum 1)])
  = [ {| field := "length"; localValue := Data (JNum 1);
         incomingValue := Data (JNum 2) |} ].
Proof. vm_compute. reflexivity. Qed.

(* ===================================================================== *)
(** * Smart merge, end to end *)
(* ===================================================================== *)

Lemma NoDup_keys_value {V : Type} (pairs : list (string * V)) k v v' :
  NoDup (map fst pairs) -> (k, v) ∈ pairs -> (k, v') ∈ pairs -> v = v'.
Proof.
  induction pairs as [|[k0 v0] pairs IH]; simpl; intros Hnd Hv Hv'.
  - by apply elem_of_nil in Hv.
  - apply NoDup_cons in Hnd as [Hk0 Hnd].
    apply elem_of_cons in Hv as [Hv | Hv], Hv' as [Hv' | Hv'].
    + congruence.
    + injection Hv as -> ->. destruct Hk0. apply list_elem_of_fmap. by exists (k0, v').
    + injection Hv' as -> ->. destruct Hk0. apply list_elem_of_fmap. by exists (k0, v).
    + by apply IH.
Qed.

Lemma mapOfPairs_lookup_NoDup {V : Type} (pairs : list (string * V)) k v :
  NoDup (map fst pairs) -> (k, v) ∈ pairs -> mapOfPairs pairs !! k = Some v.
Proof.
  intros Hnd Hin.
  destruct (mapOfPairs_is_Some pairs k) as [v' Hv'].
  { apply list_elem_of_fmap. by exists (k, v). }
  rewrite Hv'. f_equal. apply mapOfPairs_lookup in Hv'.
  by apply (NoDup_keys_value pairs k).
Qed.

Lemma lengthZ_pos {A : Type} (l : list A) : (lengthZ l >? 0) = negb (bool_decide (l = [])).
Proof. by destruct l. Qed.

Lemma lengthZ_zero {A : Type} (l : list A) : (lengthZ l =? 0) = bool_decide (l = []).
Proof. by destruct l. Qed.

Section SmartMerge.
Context {collator : Collator} {engine : Engine} {T : Type} {table : Table T}.

(** A record paired with itself is already synced. *)
Lemma classifyMatched_self e : classifyMatched emptyResult e e = emptyResult.
Proof.
  unfold classifyMatched. rewrite String.eqb_refl, Z.sub_diag. simpl.
  by destruct (JS.truthyBool (isCorrected e)).
Qed.

Lemma detectConflicts_contributions (db : T) es :
  detectConflicts db es
  = fold_right (fun e r => appendResult
                             (contribution (localEntriesById (toArray db))
                                           (localEntriesByFields (toArray db)) e) r)
               emptyResult es.
Proof.
  unfold detectConflicts. induction es as [|e es IH]; [done|].
  rewrite fold_classify_cons. simpl. by rewrite IH.
Qed.

Lemma detectConflicts_own_rows (db : T) es :
  NoDup (map id (toArray db)) ->
  (forall e, e ∈ es -> e ∈ toArray db) ->
  detectConflicts db es = emptyResult.
Proof.
  intros Hnd Hsub. rewrite detectConflicts_contributions.
  induction es as [|e es IH]; simpl; [done|].
  rewrite IH by (intros e' He'; apply Hsub; by apply list_elem_of_further).
  rewrite appendResult_empty_r.
  assert (findMatchingLocal (localEntriesById (toArray db))
            (localEntriesByFields (toArray db)) e = Some e) as Hm.
  { unfold findMatchingLocal, localEntriesById.
    rewrite (mapOfPairs_lookup_NoDup _ (id e) e); [done| |].
    - by rewrite map_map.
    - apply list_elem_of_fmap. exists e. split; [done|]. apply Hsub, list_elem_of_here. }
  rewrite (contribution_matched _ _ _ _ Hm). apply classifyMatched_self.
Qed.

Lemma detectConflicts_new_rows (db : T) es :
  (forall e l, e ∈ es -> l ∈ toArray db ->
     id l <> id e /\ deterministicIdOf l <> deterministicIdOf e) ->
  detectConflicts db es
  = {| autoImport := es; autoReplace := []; batchReview := []; conflicts := [] |}.
Proof.
  intros Hnew. rewrite detectConflicts_contributions.
  induction es as [|e es IH]; simpl; [done|].
  rewrite IH by (intros e' l He' Hl; apply Hnew; [by apply list_elem_of_further | done]).
  rewrite contribution_unmatched; [done|].
  apply matchingLocalOf_None. intros l Hl. apply Hnew; [apply list_elem_of_here | done].
Qed.

(** X10.  Uploading rows that the table already holds, in smart-merge
    mode, changes nothing when the ids of the table are distinct: every
    row is recognised as already synced, the table is handed back as it
    was, nothing is left for review, and the toast reports no new and
    no replaced entry. *)
Theorem smart_merge_own_rows (db : T) (newEntries : list ScoutingEntryBase) :
  NoDup (map id (toArray db)) ->
  newEntries <> [] ->
  (forall e, e ∈ newEntries -> e ∈ toArray db) ->
  handleScoutingDataUpload (AnObject (EntriesArray newEntries)) SmartMerge db
  = ({| hasConflicts := false; hasBatchReview := None; batchReviewEntries := None;
        uploadConflicts := None;
        autoProcessed := Some {| added := 0; replaced := 0 |} |},
     db,
     [ToastSuccess ("Smart merge complete! 0 new entries added, 0 entries replaced (Total: "
                    +:+ JS.stringOfInt (count db) +:+ ")")]).
Proof.
  intros Hnd Hne Hsub. unfold handleScoutingDataUpload.
  rewrite lengthZ_zero, bool_decide_false by done.
  rewrite (detectConflicts_own_rows db newEntries Hnd Hsub). done.
Qed.

(** X11.  Uploading rows that are all new (no row of the table has the id
    or the deterministic id of one of them), in smart-merge mode, stores
    them with one [bulkPut] and leaves nothing for review. *)
Theorem smart_merge_new_rows (db : T) (newEntries : list ScoutingEntryBase) :
  newEntries <> [] ->
  (forall e l, e ∈ newEntries -> l ∈ toArray db ->
     id l <> id e /\ deterministicIdOf l <> deterministicIdOf e) ->
  handleScoutingDataUpload (AnObject (EntriesArray newEntries)) SmartMerge db
  = ({| hasConflicts := false; hasBatchReview := None; batchReviewEntries := None;
        uploadConflicts := None;
        autoProcessed := Some {| added := lengthZ newEntries; replaced := 0 |} |},
     bulkPut newEntries db,
     [ToastSuccess ("Smart merge complete! " +:+ JS.stringOfInt (lengthZ newEntries)
                    +:+ " new entries added, 0 entries replaced (Total: "
                    +:+ JS.stringOfInt (count (bulkPut newEntries db)) +:+ ")")]).
Proof.
  intros Hne Hnew. unfold handleScoutingDataUpload.
  rewrite lengthZ_zero, bool_decide_false by done.
  rewrite (detectConflicts_new_rows db newEntries Hnew). simpl.
  rewrite !lengthZ_pos, !bool_decide_false by done. reflexivity.
Qed.

(** X12.  In smart-merge mode the records that need no review are written
    before the result is returned, whether or not a review is pending,
    and the result counts them.  When some record needs a batch
    review, [hasConflicts] is false even if there are conflicts: they
    are handed over in the same result, after the batch review; only
    without a batch review do pending conflicts set [hasConflicts]. *)
Theorem smart_merge_result (db : T) (newEntries : list ScoutingEntryBase) :
  let r := detectConflicts db newEntries in
  let out := handleScoutingDataUpload (AnObject (EntriesArray newEntries)) SmartMerge db in
  let imported := if bool_decide (autoImport r = []) then db
                  else bulkPut (autoImport r) db in
  newEntries <> [] ->
  snd (fst out) = fold_left autoReplaceOne (autoReplace r) imported
  /\ autoProcessed (fst (fst out))
     = Some {| added := lengthZ (autoImport r); replaced := lengthZ (autoReplace r) |}
  /\ (hasConflicts (fst (fst out)) = true <-> conflicts r <> [] /\ batchReview r = [])
  /\ (batchReview r <> [] ->
      hasBatchReview (fst (fst out)) = Some true
      /\ batchReviewEntries (fst (fst out)) = Some (batchReview r)
      /\ uploadConflicts (fst (fst out))
         = if bool_decide (conflicts r = []) then None else Some (conflicts r))
  /\ (batchReview r = [] ->
      hasBatchReview (fst (fst out)) = None
      /\ batchReviewEntries (fst (fst out)) = None
      /\ uploadConflicts (fst (fst out))
         = if bool_decide (conflicts r = []) then None else Some (conflicts r)).
Proof.
  intros r out imported Hne. subst out imported. unfold handleScoutingDataUpload.
  rewrite lengthZ_zero, bool_decide_false by done. fold r.
  rewrite !lengthZ_pos.
  destruct (autoImport r) as [|i0 irest] eqn:Hi, (autoReplace r) as [|a0 arest] eqn:Ha,
    (conflicts r) as [|c0 cs] eqn:Hc, (batchReview r) as [|b0 bs] eqn:Hb;
    simpl; repeat split; try done; try (by intros [? ?]).
Qed.

End SmartMerge.

Lemma smart_merge_own_rows_witness :
  handleScoutingDataUpload (collator := codeUnitCollator) (engine := standardEngine)
             (table := listTable)
    (AnObject (EntriesArray [Fixtures.localCorrected])) SmartMerge
    [Fixtures.localCorrected; Fixtures.incomingUncorrected]
  = ({| hasConflicts := false; hasBatchReview := None; batchReviewEntries := None;
        uploadConflicts := None;
        autoProcessed := Some {| added := 0; replaced := 0 |} |},
     [Fixtures.localCorrected; Fixtures.incomingUncorrected],
     [ToastSuccess
        "Smart merge complete! 0 new entries added, 0 entries replaced (Total: 2)"]).
Proof.
  apply (smart_merge_own_rows (collator := codeUnitCollator) (engine := standardEngine)
             (table := listTable)
           [Fixtures.localCorrected; Fixtures.incomingUncorrected]
           [Fixtures.localCorrected]).
  - simpl. apply NoDup_cons. split; [set_solver|]. apply NoDup_singleton.
  - discriminate.
  - intros e He. apply list_elem_of_singleton in He as ->. apply list_elem_of_here.
Defined.

Lemma smart_merge_new_rows_witness :
  handleScoutingDataUpload (collator := codeUnitCollator) (engine := standardEngine)
             (table := listTable)
    (AnObject (EntriesArray [Examples.rowOf "r9" "2026casj_qm2" 254])) SmartMerge
    [Fixtures.localCorrected]
  = ({| hasConflicts := false; hasBatchReview := None; batchReviewEntries := None;
        uploadConflicts := None;
        autoProcessed := Some {| added := 1; replaced := 0 |} |},
     [Fixtures.localCorrected; Examples.rowOf "r9" "2026casj_qm2" 254],
     [ToastSuccess
        "Smart merge complete! 1 new entries added, 0 entries replaced (Total: 2)"]).
Proof.
  apply (smart_merge_new_rows (collator := codeUnitCollator) (engine := standardEngine)
             (table := listTable)
           [Fixtures.localCorrected] [Examples.rowOf "r9" "2026casj_qm2" 254]).
  - discriminate.
  - intros e l He Hl. apply list_elem_of_singleton in He as ->.
    apply list_elem_of_singleton in Hl as ->. split; vm_compute; discriminate.
Defined.

Lemma smart_merge_result_witness :
  let out := handleScoutingDataUpload (collator := codeUnitCollator) (engine := standardEngine)
             (table := listTable)
               (AnObject (EntriesArray [Fixtures.incomingUncorrected])) SmartMerge
               [Fixtures.localUncorrected] in
  hasConflicts (fst (fst out)) = false
  /\ hasBatchReview (fst (fst out)) = Some true
  /\ batchReviewEntries (fst (fst out)) = Some [Fixtures.incomingUncorrected]
  /\ snd (fst out) = [Fixtures.localUncorrected].
Proof.
  destruct (smart_merge_result (collator := codeUnitCollator) (engine := standardEngine)
             (table := listTable)
              [Fixtures.localUncorrected] [Fixtures.incomingUncorrected])
    as (Hdb & _ & _ & Hbatch & _); [discriminate|].
  destruct Hbatch as (Hflag & Hentries & _); [vm_compute; discriminate|].
  split; [by vm_compute|]. split; [exact Hflag|]. split; [exact Hentries | exact Hdb].
Defined.

(* ===================================================================== *)
(** * A review session from the first decision to the last *)
(* ===================================================================== *)

Lemma historyOf_snoc acts :
  forall from a,
    historyOf from (acts ++ [a])
    = historyOf from acts ++ [ {| index := (from + length acts)%nat; action := a |} ].
Proof.
  induction acts as [|a0 acts IH]; intros from a; simpl.
  - by rewrite Nat.add_0_r.
  - rewrite IH. by replace (from + S (length acts))%nat with (S from + length acts)%nat by lia.
Qed.

Lemma zip_snoc {A B : Type} (acts : list B) :
  forall (cs : list A) c a,
    cs !! length acts = Some c -> zip cs (acts ++ [a]) = zip cs acts ++ [(c, a)].
Proof.
  induction acts as [|a0 acts IH]; intros [|c0 cs] c a Hc; simpl in *; try done.
  - injection Hc as ->. by destruct cs.
  - by rewrite (IH cs c a).
Qed.

Lemma decisionsOf_snoc cs acts c a :
  cs !! length acts = Some c ->
  decisionsOf cs (acts ++ [a]) = <[getConflictKey c := a]> (decisionsOf cs acts).
Proof.
  intros Hc. unfold decisionsOf. rewrite (zip_snoc acts cs c a Hc).
  by rewrite fold_left_app.
Qed.

Lemma decisionsOf_mapOfPairs cs acts :
  decisionsOf cs acts
  = mapOfPairs (map (fun decided => (getConflictKey (fst decided), snd decided))
                    (zip cs acts)).
Proof.
  unfold decisionsOf, mapOfPairs. generalize (∅ : gmap string Action).
  induction (zip cs acts) as [|d l IH]; intros m; simpl; [done|]. by rewrite IH.
Qed.

(** With distinct keys, every conflict keeps its own decision. *)
Lemma decisionsOf_lookup cs acts c a :
  NoDup (map getConflictKey cs) ->
  (c, a) ∈ zip cs acts ->
  decisionsOf cs acts !! getConflictKey c = Some a.
Proof.
  intros Hnd Hin. rewrite decisionsOf_mapOfPairs.
  apply mapOfPairs_lookup_NoDup.
  - rewrite map_map. simpl.
    apply (sublist_NoDup _ (map getConflictKey cs)); [done|].
    clear. revert acts. induction cs as [|c0 cs IH]; intros [|a0 acts]; simpl;
      try constructor; try apply IH.
    + apply sublist_nil_l.
  - apply list_elem_of_fmap. by exists (c, a).
Qed.

Section SessionFacts.
Context {T : Type} {table : Table T}.

(** While conflicts remain, a decision is recorded and the table is
    not touched. *)
Lemma session_progress cs (db : T) acts :
  (length acts < length cs)%nat ->
  fold_left resolveStep acts (startSession cs, db)
  = ({| showConflictDialog := true; currentConflicts := cs;
        currentConflictIndex := length acts;
        conflictResolutions := decisionsOf cs acts;
        resolutionHistory := historyOf 0 acts; isProcessing := false |}, db).
Proof.
  induction acts as [|a acts IH] using rev_ind; intros Hlen.
  - simpl. unfold startSession, decisionsOf. by rewrite zip_with_nil_r.
  - rewrite length_app in Hlen. simpl in Hlen.
    rewrite fold_left_app, IH by lia. simpl.
    destruct (lookup_lt_is_Some_2 cs (length acts)) as [c Hc]; [lia|].
    unfold resolveStep, handleConflictResolution. simpl. rewrite Hc. simpl.
    assert ((Z.of_nat (length acts) <? lengthZ cs - 1) = true) as ->.
    { apply Z.ltb_lt. unfold lengthZ. lia. }
    rewrite (decisionsOf_snoc cs acts c a Hc), historyOf_snoc, length_app. simpl.
    done.
Qed.

Lemma session_last cs (db : T) acts a :
  S (length acts) = length cs ->
  fold_left resolveStep (acts ++ [a]) (startSession cs, db)
  = ({| showConflictDialog := false; currentConflicts := []; currentConflictIndex := 0%nat;
        conflictResolutions := ∅; resolutionHistory := []; isProcessing := false |},
     fold_left (fun db c => match decisionsOf cs (acts ++ [a]) !! getConflictKey c with
                            | Some Replace => replaceLocal c db
                            | _ => db
                            end) cs db).
Proof.
  intros Hlen. rewrite fold_left_app, session_progress by lia. simpl.
  destruct (lookup_lt_is_Some_2 cs (length acts)) as [c Hc]; [lia|].
  unfold resolveStep, handleConflictResolution. simpl. rewrite Hc. simpl.
  assert ((Z.of_nat (length acts) <? lengthZ cs - 1) = false) as ->.
  { apply Z.ltb_ge. unfold lengthZ. lia. }
  rewrite <- (decisionsOf_snoc cs acts c a Hc).
  unfold applyConflictResolutions. simpl.
  pose proof (hook_apply_fold cs (decisionsOf cs (acts ++ [a])) db 0 0) as Hf.
  destruct (fold_left _ cs (db, 0, 0)) as [[db' r] k]. simpl in Hf. by rewrite Hf.
Qed.

Lemma apply_own_decisions cs acts (decisions : gmap string Action) :
  length acts = length cs ->
  (forall c a, (c, a) ∈ zip cs acts -> decisions !! getConflictKey c = Some a) ->
  forall db : T,
    fold_left (fun db c => match decisions !! getConflictKey c with
                           | Some Replace => replaceLocal c db
                           | _ => db
                           end) cs db
    = fold_left applyDecision (zip cs acts) db.
Proof.
  revert acts. induction cs as [|c cs IH]; intros [|a acts] Hlen Hown db; simpl in *;
    try done.
  rewrite (Hown c a) by apply list_elem_of_here.
  rewrite (IH acts) by (try lia; intros c' a' Hin; apply Hown; by apply list_elem_of_further).
  unfold applyDecision at 2. simpl. by destruct a.
Qed.

(** X16.  In a review session over the conflicts [cs], nothing is written
    while conflicts remain, each decision moving on to the next
    conflict; the decision on the last conflict applies all of them, in
    the order of [cs], looking each conflict up by its key, and resets
    the state.  When the keys of the conflicts are distinct, every
    conflict gets the decision that was taken for it. *)
Theorem session_applies_decisions (cs : list ConflictInfo) (acts : list Action) (db : T) :
  cs <> [] ->
  length acts = length cs ->
  let final := fold_left resolveStep acts (startSession cs, db) in
  (forall k, (k < length cs)%nat ->
     let partial := fold_left resolveStep (take k acts) (startSession cs, db) in
     snd partial = db /\ currentConflictIndex (fst partial) = k
     /\ currentConflicts (fst partial) = cs)
  /\ fst final = resetState (startSession cs)
  /\ snd final
     = fold_left (fun db c => match decisionsOf cs acts !! getConflictKey c with
                              | Some Replace => replaceLocal c db
                              | _ => db
                              end) cs db
  /\ (NoDup (map getConflictKey cs) ->
      snd final = fold_left applyDecision (zip cs acts) db).
Proof.
  intros Hne Hlen final.
  assert (final
          = (resetState (startSession cs),
             fold_left (fun db c => match decisionsOf cs acts !! getConflictKey c with
                                    | Some Replace => replaceLocal c db
                                    | _ => db
                                    end) cs db)) as Hfinal.
  { subst final. destruct acts as [|a acts _] using rev_ind.
    - destruct cs; [done | simpl in Hlen; lia].
    - rewrite length_app in Hlen. simpl in Hlen.
      rewrite session_last by lia. done. }
  split; [|split; [|split]].
  - intros k Hk partial. subst partial.
    rewrite session_progress by (rewrite length_take; lia). simpl.
    rewrite length_take. split; [done|]. split; [lia | done].
  - by rewrite Hfinal.
  - by rewrite Hfinal.
  - intros Hnd. rewrite Hfinal. simpl. apply apply_own_decisions; [done|].
    intros c a Hin. by apply decisionsOf_lookup.
Qed.

Lemma decisionsOf_dom cs acts k a :
  (length acts <= length cs)%nat ->
  decisionsOf cs acts !! k = Some a ->
  exists j c, (j < length acts)%nat /\ cs !! j = Some c /\ getConflictKey c = k.
Proof.
  induction acts as [|a0 acts IH] using rev_ind; intros Hlen Hk.
  - unfold decisionsOf in Hk. rewrite zip_with_nil_r in Hk. simpl in Hk.
    by rewrite lookup_empty in Hk.
  - rewrite length_app in *. simpl in *.
    destruct (lookup_lt_is_Some_2 cs (length acts)) as [c Hc]; [lia|].
    rewrite (decisionsOf_snoc cs acts c a0 Hc) in Hk.
    destruct (decide (getConflictKey c = k)) as [Heq | Hne].
    + exists (length acts), c. split; [lia | done].
    + rewrite lookup_insert_ne in Hk by done.
      destruct IH as (j & c' & Hj & Hc' & Hkey); [lia | done |].
      exists j, c'. split; [lia | done].
Qed.

(** X17.  When the keys of the conflicts are distinct, an undo takes back
    the decision just taken, exactly: the state is the one before the
    decision, and the table has not been touched.  (The decision must
    not be the one on the last conflict, which applies everything and
    closes the session.) *)
Theorem undo_inverts_decision (cs : list ConflictInfo) (acts : list Action) (a : Action)
    (db : T) :
  NoDup (map getConflictKey cs) ->
  (S (length acts) < length cs)%nat ->
  let before := fold_left resolveStep acts (startSession cs, db) in
  let after := resolveStep before a in
  handleUndo (fst after) = fst before /\ snd after = snd before /\ snd before = db.
Proof.
  intros Hnd Hlen before after.
  assert (after = fold_left resolveStep (acts ++ [a]) (startSession cs, db)) as Hafter.
  { subst after before. by rewrite fold_left_app. }
  subst before. rewrite Hafter. clear after Hafter.
  rewrite !session_progress by (rewrite ?length_app; simpl; lia). simpl.
  split; [|done].
  destruct (lookup_lt_is_Some_2 cs (length acts)) as [c Hc]; [lia|].
  rewrite (handleUndo_snoc _ (historyOf 0 acts)
             {| index := length acts; action := a |} c).
  - simpl. f_equal. rewrite (decisionsOf_snoc cs acts c a Hc).
    apply delete_insert_id.
    destruct (decisionsOf cs acts !! getConflictKey c) as [a'|] eqn:Hk; [|done].
    apply decisionsOf_dom in Hk as (j & c' & Hj & Hc' & Hkey); [|lia].
    assert (j = length acts); [|lia].
    apply (NoDup_lookup (map getConflictKey cs) j (length acts) (getConflictKey c));
      [done | |]; rewrite list_lookup_fmap.
    + by rewrite Hc', <- Hkey.
    + by rewrite Hc.
  - simpl. by rewrite historyOf_snoc.
  - done.
Qed.

End SessionFacts.

Lemma undo_inverts_decision_witness :
  let before := fold_left (resolveStep (table := listTable)) [Replace]
                          (startSession Fixtures.threeConflicts, []) in
  handleUndo (fst (resolveStep (table := listTable) before Skip)) = fst before
  /\ currentConflictIndex (fst (resolveStep (table := listTable) before Skip)) = 2%nat
  /\ currentConflictIndex (fst before) = 1%nat.
Proof.
  destruct (undo_inverts_decision (table := listTable) Fixtures.threeConflicts
              [Replace] Skip []) as (Hundo & _).
  - vm_compute. repeat (apply NoDup_cons; split; [set_solver|]). apply NoDup_nil_2.
  - simpl. lia.
  - split; [exact Hundo|]. split; by vm_compute.
Defined.

Lemma session_applies_decisions_witness :
  let final := fold_left (resolveStep (table := listTable)) [Replace; Skip; Replace]
                         (startSession Fixtures.threeConflicts,
                          map local Fixtures.threeConflicts) in
  fst final = resetState (startSession Fixtures.threeConflicts)
  /\ snd final
     = [local (Fixtures.conflictAbout 200); incoming (Fixtures.conflictAbout 100);
        incoming (Fixtures.conflictAbout 300)].
Proof.
  destruct (session_applies_decisions (table := listTable) Fixtures.threeConflicts
              [Replace; Skip; Replace] (map local Fixtures.threeConflicts))
    as (_ & Hstate & _ & Hdb); [discriminate | reflexivity |].
  split; [exact Hstate|]. rewrite Hdb; [by vm_compute|].
  vm_compute. repeat (apply NoDup_cons; split; [set_solver|]). apply NoDup_nil_2.
Defined.

(* ===================================================================== *)
(** * The key of a conflict *)
(* ===================================================================== *)

Module KeyFacts.
Import MatchKeyFacts IdFacts.

Lemma digits_no_dash n :
  0 <= n -> allChars (fun c => negb (Ascii.eqb c "-")) (JS.stringOfInt n) = true.
Proof.
  intros Hn. destruct (allDigits_stringOfInt n Hn) as [Hd _]. revert Hd.
  apply allChars_impl. intros c Hc. destruct c as [[] [] [] [] [] [] [] []]; done.
Qed.

(** X18.  For match and team numbers that are not negative, two conflicts
    have the same key exactly when their local records have the same
    match number, team number and event key: the alliance colour and
    the match key play no part in it. *)
Theorem conflict_key_identifies (c1 c2 : ConflictInfo) :
  0 <= matchNumber (local c1) -> 0 <= teamNumber (local c1) ->
  0 <= matchNumber (local c2) -> 0 <= teamNumber (local c2) ->
  getConflictKey c1 = getConflictKey c2
  <-> matchNumber (local c1) = matchNumber (local c2)
      /\ teamNumber (local c1) = teamNumber (local c2)
      /\ eventKey (local c1) = eventKey (local c2).
Proof.
  intros Hm1 Ht1 Hm2 Ht2. unfold getConflictKey. split.
  - intros Heq.
    apply (split_sep "-") in Heq as [Hm Heq]; [|by apply digits_no_dash..].
    apply (split_sep "-") in Heq as [Ht Heq]; [|by apply digits_no_dash..].
    apply stringOfInt_inj in Hm, Ht. done.
  - intros (-> & -> & ->). done.
Qed.

End KeyFacts.

Lemma conflict_key_identifies_witness :
  getConflictKey (Fixtures.conflictAbout 100) <> getConflictKey (Fixtures.conflictAbout 200).
Proof.
  intros Heq.
  apply (KeyFacts.conflict_key_identifies (Fixtures.conflictAbout 100)
           (Fixtures.conflictAbout 200)) in Heq as (_ & Ht & _);
    [discriminate | simpl; lia..].
Defined.

(* ===================================================================== *)
(** * Further properties of the relay *)
(* ===================================================================== *)

Module RelayRoomFacts.
Import Relay RelayRun RelayFacts RelayRooms.

(** X19.  The relay answers with one of five status codes.  A request
    that is not answered with 200 changes nothing, and neither does a
    ping, an OPTIONS request or a poll of a room that does not exist:
    polling never creates a room. *)
Theorem rejected_request_changes_nothing (now : Z) (event : HandlerEvent) (st : State) :
  let result := handler now event st in
  statusCode (fst result) ∈ [200; 400; 404; 405; 500]
  /\ (statusCode (fst result) <> 200 -> snd result = st)
  /\ (responseBody (fst result) = Pong \/ responseBody (fst result) = EmptyBody ->
      snd result = st)
  /\ (forall rid p, isPoll event rid p -> rooms st !! rid = None ->
        snd result = st /\ returned (fst result) = []).
Proof.
  intros result. subst result. split; [|split; [|split]].
  - unfold handler, post, get. repeat case_match; simpl; set_solver.
  - unfold handler, post, get. repeat case_match; simpl; done.
  - unfold handler, post, get. repeat case_match; simpl; intros [? | ?]; done.
  - intros rid p Hpoll Hroom. by rewrite (handler_poll_unknown now event rid p st).
Qed.

Lemma poll_queue now event rid p st room ref msg :
  isPoll event rid p ->
  rooms st !! rid = Some room ->
  ref ∈ Room.messages room ->
  heap st !! ref = Some msg ->
  (ref ∈ returned (fst (handler now event st)) <-> eligible p msg)
  /\ (ref ∈ queueOf (snd (handler now event st)) rid
      <-> shouldKeep room (if shouldInclude p msg then markDelivered p msg else msg) = true).
Proof.
  intros Hpoll Hroom Hin Hmsg.
  rewrite (handler_poll now event rid p st room Hpoll Hroom). simpl.
  assert (ref ∈ filter (fun ref => holds (heap st) (shouldInclude p) ref) (Room.messages room)
          <-> shouldInclude p msg = true) as Hret.
  { rewrite list_elem_of_filter. unfold holds. rewrite Hmsg.
    rewrite Is_true_true. tauto. }
  split.
  - unfold returned. simpl. by rewrite Hret, shouldInclude_eligible.
  - unfold queueOf. simpl. rewrite lookup_insert_eq. simpl.
    rewrite list_elem_of_filter. unfold holds. rewrite markAll_lookup.
    destruct (shouldInclude p msg) eqn:Hinc.
    + rewrite decide_True by (by apply Hret). rewrite Hmsg. simpl.
      rewrite Is_true_true. tauto.
    + rewrite decide_False by (rewrite Hret; congruence). rewrite Hmsg.
      rewrite Is_true_true. tauto.
Qed.

Lemma received_marked p msg d q :
  deliveredTo msg = Some d ->
  (match deliveredTo (if shouldInclude p msg then markDelivered p msg else msg) with
   | Some d' => q ∈ d'
   | None => False
   end) <-> received p msg q.
Proof.
  intros Hd. unfold received. rewrite <- shouldInclude_eligible.
  destruct (shouldInclude p msg); unfold delivered; simpl; rewrite Hd.
  - set_solver.
  - split; [by left|]. intros [? | [_ ?]]; done.
Qed.

(** X20.  A poll keeps a join message in the queue exactly as long as
    its audience lacks it: the join of a scout until the lead of the
    room has received it (for ever while the room has no lead), the
    join of a lead while some scout of the room has not.  So in a room
    without scouts the join of a lead is dropped by the next poll of
    anybody, and when that poll is the sender's own, it is not even
    returned. *)
Theorem join_kept_until_audience (now : Z) (event : HandlerEvent) (rid p : string)
    (st : State) (room : Room.t) (ref : nat) (msg : SignalingMessage) (d : gset string) :
  isPoll event rid p ->
  rooms st !! rid = Some room ->
  ref ∈ Room.messages room ->
  heap st !! ref = Some msg ->
  type msg = Some Join ->
  deliveredTo msg = Some d ->
  (role msg = Some Scout ->
     (ref ∈ queueOf (snd (handler now event st)) rid
      <-> forall lead, Room.lead room = Some lead -> ~ received p msg (Peer.id lead)))
  /\ (role msg = Some Lead ->
      (ref ∈ queueOf (snd (handler now event st)) rid
       <-> exists scoutId, scoutId ∈ mapKeys (Room.scouts room)
                           /\ ~ received p msg scoutId))
  /\ (role msg = Some Lead -> Room.scouts room = [] ->
      (ref ∉ queueOf (snd (handler now event st)) rid)
      /\ (peerId msg = Some p -> ref ∉ returned (fst (handler now event st)))).
Proof.
  intros Hpoll Hroom Hin Hmsg Hty Hd.
  destruct (poll_queue now event rid p st room ref msg Hpoll Hroom Hin Hmsg)
    as [Hret Hkeep].
  pose proof (fun q => received_marked p msg d q Hd) as Hrec.
  set (msg' := if shouldInclude p msg then markDelivered p msg else msg) in *.
  assert (type msg' = Some Join /\ role msg' = role msg) as [Hty' Hrole'].
  { subst msg'. by destruct (shouldInclude p msg). }
  assert (exists d', deliveredTo msg' = Some d') as [d' Hd'].
  { subst msg'. destruct (shouldInclude p msg); simpl; eauto. }
  rewrite Hd' in Hrec.
  assert (role msg = Some Lead ->
          (ref ∈ queueOf (snd (handler now event st)) rid
           <-> exists scoutId, scoutId ∈ mapKeys (Room.scouts room)
                               /\ ~ received p msg scoutId)) as Hlead.
  { intros Hrole. rewrite Hkeep. unfold shouldKeep. rewrite Hd', Hty', Hrole', Hrole.
    rewrite bool_decide_eq_true_2 by done. simpl.
    rewrite ?bool_decide_eq_false_2 by done. simpl.
    rewrite existsb_exists. split.
    - intros (x & Hx & Hn). exists x. apply list_elem_of_In in Hx. split; [done|].
      apply negb_true_iff, bool_decide_eq_false in Hn. by rewrite <- Hrec.
    - intros (x & Hx & Hn). exists x. split; [by apply list_elem_of_In|].
      apply negb_true_iff, bool_decide_eq_false. by rewrite Hrec. }
  split; [|split; [exact Hlead|]].
  - intros Hrole. rewrite Hkeep. unfold shouldKeep. rewrite Hd', Hty', Hrole', Hrole.
    rewrite !bool_decide_eq_true_2 by done. simpl.
    destruct (Room.lead room) as [lead|].
    + rewrite negb_true_iff, bool_decide_eq_false, Hrec. split.
      * by intros Hn lead' [= <-].
      * intros Hn. by apply Hn.
    + split; [done | done].
  - intros Hrole Hscouts. split.
    + rewrite (Hlead Hrole), Hscouts. intros (x & Hx & _). by apply elem_of_nil in Hx.
    + intros Hown. rewrite Hret. intros (Hne & _). done.
Qed.

(** ** Rooms, one request at a time *)

Lemma handleType_room now message p room st :
  let result := handleType now message p room st in
  rooms (snd result) = rooms st
  /\ Room.id (fst result) = Room.id room
  /\ Room.createdAt (fst result) = Room.createdAt room.
Proof.
  unfold handleType, pushMessage.
  destruct (type message) as [[]|]; try done; destruct (role message) as [[]|]; done.
Qed.

Lemma poll_addressed event rid p : isPoll event rid p -> addressedRoom event = Some rid.
Proof.
  intros (_ & Hm & Hr & _). unfold addressedRoom. by rewrite Hm, Hr.
Qed.

Lemma post_addressed event message rid p :
  isPost event message rid p -> addressedRoom event = Some rid.
Proof.
  intros (_ & Hm & Hb & Hr & _). unfold addressedRoom. by rewrite Hm, Hb, Hr.
Qed.

(** A request never removes a room and never changes the id or the
    creation time of one. *)
Lemma request_keeps_room now event st rid room :
  rooms st !! rid = Some room ->
  exists room', rooms (snd (handler now event st)) !! rid = Some room'
                /\ Room.id room' = Room.id room
                /\ Room.createdAt room' = Room.createdAt room.
Proof.
  intros Hroom.
  destruct (handler_cases now event st)
    as [[Hsame _] | [(rid0 & p0 & room0 & Hpoll & Hroom0)
                    | (message & rid0 & p0 & Hpost & Hty)]].
  - rewrite Hsame. eauto.
  - pose proof (handler_poll now event rid0 p0 st room0 Hpoll Hroom0) as Heq.
    simpl in Heq. rewrite Heq. simpl.
    destruct (decide (rid0 = rid)) as [<- | Hne].
    + rewrite lookup_insert_eq. eexists. split; [done|].
      rewrite Hroom in Hroom0. by injection Hroom0 as ->.
    + rewrite lookup_insert_ne by done. eauto.
  - rewrite (handler_post now event message rid0 p0 st Hpost Hty).
    pose proof (handleType_room now message p0 (roomOrNew now rid0 st) st)
      as (Hrooms & Hid & Hcreated).
    destruct (handleType now message p0 (roomOrNew now rid0 st) st) as [room1 st1].
    simpl in *. rewrite Hrooms.
    destruct (decide (rid0 = rid)) as [<- | Hne].
    + rewrite lookup_insert_eq. eexists. split; [done|].
      unfold roomOrNew in Hid, Hcreated. by rewrite Hroom in Hid, Hcreated.
    + rewrite lookup_insert_ne by done. eauto.
Qed.

(** X21.  A request reads and writes the room it addresses and no other;
    it never removes a room and never changes the id or the creation
    time of one; a poll changes neither the lead nor the scouts of its
    room, and what it leaves in the queue was there before, in the
    same order. *)
Theorem request_touches_one_room (now : Z) (event : HandlerEvent) (st : State) :
  let st' := snd (handler now event st) in
  (forall rid, addressedRoom event <> Some rid -> rooms st' !! rid = rooms st !! rid)
  /\ (forall rid room, rooms st !! rid = Some room ->
        exists room', rooms st' !! rid = Some room'
                      /\ Room.id room' = Room.id room
                      /\ Room.createdAt room' = Room.createdAt room)
  /\ (forall rid p room, isPoll event rid p -> rooms st !! rid = Some room ->
        exists room', rooms st' !! rid = Some room'
                      /\ Room.lead room' = Room.lead room
                      /\ Room.scouts room' = Room.scouts room
                      /\ Room.messages room' `sublist_of` Room.messages room).
Proof.
  intros st'. subst st'.
  split; [|split; [intros rid room; apply request_keeps_room|]].
  - intros rid Hne.
    destruct (handler_cases now event st)
      as [[Hsame _] | [(rid0 & p0 & room0 & Hpoll & Hroom0)
                      | (message & rid0 & p0 & Hpost & Hty)]].
    + by rewrite Hsame.
    + pose proof (handler_poll now event rid0 p0 st room0 Hpoll Hroom0) as Heq.
      simpl in Heq. rewrite Heq. simpl. rewrite lookup_insert_ne; [done|].
      intros ->. by rewrite (poll_addressed event rid p0) in Hne.
    + rewrite (handler_post now event message rid0 p0 st Hpost Hty).
      pose proof (handleType_room now message p0 (roomOrNew now rid0 st) st)
        as (Hrooms & _).
      destruct (handleType now message p0 (roomOrNew now rid0 st) st) as [room1 st1].
      simpl in *. rewrite Hrooms. rewrite lookup_insert_ne; [done|].
      intros ->. by rewrite (post_addressed event message rid p0) in Hne.
  - intros rid p room Hpoll Hroom.
    pose proof (handler_poll now event rid p st room Hpoll Hroom) as Heq.
    simpl in Heq. rewrite Heq. simpl. rewrite lookup_insert_eq.
    eexists. split; [done|]. simpl. repeat split. apply sublist_filter.
Qed.

Lemma requests_keep_room rs :
  forall st rid room,
    rooms st !! rid = Some room ->
    exists room', rooms (snd (run (requests rs) st)) !! rid = Some room'
                  /\ Room.createdAt room' = Room.createdAt room.
Proof.
  induction rs as [|[now event] rs IH]; intros st rid room Hroom; simpl; [eauto|].
  destruct (request_keeps_room now event st rid room Hroom)
    as (room1 & Hroom1 & _ & Hcreated).
  destruct (handler now event st) as [resp st1]. simpl in *.
  destruct (IH st1 rid room1 Hroom1) as (room2 & Hroom2 & Hcreated2).
  destruct (run (requests rs) st1) as [log st2]. simpl in *.
  exists room2. split; [done | congruence].
Qed.

(** X22.  Requests never refresh a room: whatever requests are handled,
    the room is still there with the creation time it had, and a sweep
    removes it exactly when more than thirty minutes have passed since
    it was created, however recently it was used. *)
Theorem room_lives_until_swept (rs : list (Z * HandlerEvent)) (st : State)
    (rid : string) (room : Room.t) :
  rooms st !! rid = Some room ->
  let st' := snd (run (requests rs) st) in
  (exists room', rooms st' !! rid = Some room'
                 /\ Room.createdAt room' = Room.createdAt room)
  /\ (forall now, rooms (sweep now st') !! rid = None
                  <-> now - Room.createdAt room > ROOM_TIMEOUT).
Proof.
  intros Hroom st'.
  destruct (requests_keep_room rs st rid room Hroom) as (room' & Hroom' & Hcreated).
  fold st' in Hroom'. split; [eauto|].
  intros now. unfold sweep. simpl. rewrite map_lookup_filter_None. simpl.
  rewrite Hroom'. split.
  - intros [? | Hall]; [done|]. specialize (Hall room' eq_refl). simpl in Hall.
    rewrite Hcreated in Hall. lia.
  - intros Hold. right. intros room'' [= <-]. simpl. rewrite Hcreated. lia.
Qed.

(** ** Who is in a room *)

Lemma mapSet_keys {V : Type} (m : list (string * V)) k v :
  mapKeys (mapSet m k v) = if decide (k ∈ mapKeys m) then mapKeys m else mapKeys m ++ [k].
Proof.
  unfold mapKeys. induction m as [|[k' v'] m IH]; simpl; [done|].
  - destruct (String.eqb k' k) eqn:Hk.
    + apply String.eqb_eq in Hk as ->. simpl.
      rewrite decide_True; [done|]. apply list_elem_of_here.
    + apply String.eqb_neq in Hk. simpl. rewrite IH.
      destruct (decide (k ∈ map fst m)) as [Hin | Hin].
      * rewrite decide_True; [done|]. by apply list_elem_of_further.
      * rewrite decide_False; [done|]. intros [? | ?]%elem_of_cons; done.
Qed.

Lemma mapSet_elem_of {V : Type} (m : list (string * V)) k v k0 v0 :
  (k0, v0) ∈ mapSet m k v -> (k0 = k /\ v0 = v) \/ (k0, v0) ∈ m.
Proof.
  induction m as [|[k' v'] m IH]; simpl.
  - intros [= -> ->]%list_elem_of_singleton. by left.
  - destruct (String.eqb k' k) eqn:Hk.
    + apply String.eqb_eq in Hk as ->.
      intros [[= -> ->] | Hin]%elem_of_cons; [by left|].
      right. by apply list_elem_of_further.
    + intros [[= -> ->] | Hin]%elem_of_cons; [right; apply list_elem_of_here|].
      destruct (IH Hin) as [? | ?]; [by left|]. right. by apply list_elem_of_further.
Qed.

Lemma mapSet_here {V : Type} (m : list (string * V)) k v : (k, v) ∈ mapSet m k v.
Proof.
  induction m as [|[k' v'] m IH]; simpl; [apply list_elem_of_here|].
  destruct (String.eqb k' k) eqn:Hk.
  - apply String.eqb_eq in Hk as ->. apply list_elem_of_here.
  - by apply list_elem_of_further.
Qed.

Lemma mapSet_NoDup {V : Type} (m : list (string * V)) k v :
  NoDup (mapKeys m) -> NoDup (mapKeys (mapSet m k v)).
Proof.
  intros Hnd. rewrite mapSet_keys. case_decide; [done|].
  apply NoDup_app. split; [done|]. split; [|apply NoDup_singleton].
  intros x Hx ->%list_elem_of_singleton. done.
Qed.

Lemma mapDelete_keys {V : Type} (m : list (string * V)) k k0 :
  k0 ∈ mapKeys (mapDelete m k) <-> k0 <> k /\ k0 ∈ mapKeys m.
Proof.
  unfold mapKeys, mapDelete. rewrite !list_elem_of_fmap. split.
  - intros ([k1 v1] & -> & [Hne Hin]%list_elem_of_filter). simpl in *.
    split; [done|]. by exists (k1, v1).
  - intros (Hne & [k1 v1] & -> & Hin). exists (k1, v1). split; [done|].
    by apply list_elem_of_filter.
Qed.

Lemma mapDelete_NoDup {V : Type} (m : list (string * V)) k :
  NoDup (mapKeys m) -> NoDup (mapKeys (mapDelete m k)).
Proof.
  unfold mapKeys, mapDelete. intros Hnd.
  apply (sublist_NoDup _ (map fst m)); [done|].
  apply (fmap_sublist fst), sublist_filter.
Qed.

(** The room that a stored POST leaves behind. *)
Lemma post_room now event message rid p st :
  isPost event message rid p ->
  type message <> Some Ping ->
  let after := fst (handleType now message p (roomOrNew now rid st) st) in
  rooms (snd (handler now event st)) !! rid = Some after
  /\ responseBody (fst (handler now event st)) = Success (summaryOf after false).
Proof.
  intros Hpost Hty. rewrite (handler_post now event message rid p st Hpost Hty).
  destruct (handleType now message p (roomOrNew now rid st) st) as [room1 st1].
  simpl. by rewrite lookup_insert_eq.
Qed.

(** X23.  What a POST does to the membership of its room.  The join of a
    scout adds the sender to the scouts or replaces its entry; the join
    of a lead makes the sender the lead in place of any other; a leave
    with the role of lead clears the lead whoever sends it, any other
    leave removes the sender from the scouts; every other message
    leaves the lead and the scouts alone.  The room exists afterwards,
    and the response counts its scouts. *)
Theorem membership_after_post (now : Z) (event : HandlerEvent)
    (message : SignalingMessage) (rid p : string) (st : State) :
  isPost event message rid p ->
  type message <> Some Ping ->
  let before := roomOrNew now rid st in
  exists after,
    rooms (snd (handler now event st)) !! rid = Some after
    /\ responseBody (fst (handler now event st)) = Success (summaryOf after false)
    /\ (type message = Some Join -> role message = Some Scout ->
        Room.lead after = Room.lead before
        /\ (forall k, k ∈ mapKeys (Room.scouts after)
                      <-> k = p \/ k ∈ mapKeys (Room.scouts before))
        /\ (p, {| Peer.id := p; Peer.name := orStr (peerName message) "Scout";
                  Peer.lastSeen := now |}) ∈ Room.scouts after)
    /\ (type message = Some Join -> role message = Some Lead ->
        Room.lead after = Some {| Peer.id := p;
                                  Peer.name := orStr (peerName message) "Lead";
                                  Peer.lastSeen := now |}
        /\ Room.scouts after = Room.scouts before)
    /\ (type message = Some Leave -> role message = Some Lead ->
        Room.lead after = None /\ Room.scouts after = Room.scouts before)
    /\ (type message = Some Leave -> role message <> Some Lead ->
        Room.lead after = Room.lead before
        /\ forall k, k ∈ mapKeys (Room.scouts after)
                     <-> k <> p /\ k ∈ mapKeys (Room.scouts before))
    /\ ((type message <> Some Join \/ role message = None) ->
        type message <> Some Leave ->
        Room.lead after = Room.lead before /\ Room.scouts after = Room.scouts before).
Proof.
  intros Hpost Hty before.
  destruct (post_room now event message rid p st Hpost Hty) as [Hroom Hresp].
  fold before in Hroom, Hresp.
  exists (fst (handleType now message p before st)).
  split; [exact Hroom|]. split; [exact Hresp|].
  unfold handleType, pushMessage.
  split; [|split; [|split; [|split]]].
  - intros -> ->. simpl. split; [done|]. split; [|apply mapSet_here].
    intros k. rewrite mapSet_keys. case_decide as Hin.
    + split; [by right|]. intros [-> | ?]; done.
    + rewrite elem_of_app, list_elem_of_singleton. tauto.
  - by intros -> ->.
  - by intros -> ->.
  - intros -> Hrole. destruct (role message) as [[]|]; simpl; try done;
      (split; [done|]; intros k; apply mapDelete_keys).
  - intros Hj Hl. destruct (type message) as [[]|]; try done;
      destruct Hj as [Hj | ->]; done.
Qed.

Lemma keyed_handler now event st :
  keyed st -> keyed (snd (handler now event st)).
Proof.
  intros Hk.
  destruct (handler_cases now event st)
    as [[Hsame _] | [(rid0 & p0 & room0 & Hpoll & Hroom0)
                    | (message & rid0 & p0 & Hpost & Hty)]].
  - by rewrite Hsame.
  - pose proof (handler_poll now event rid0 p0 st room0 Hpoll Hroom0) as Heq.
    simpl in Heq. rewrite Heq. intros rid room. simpl.
    destruct (decide (rid0 = rid)) as [<- | Hne].
    + rewrite lookup_insert_eq. intros [= <-]. simpl. by apply Hk.
    + rewrite lookup_insert_ne by done. apply Hk.
  - assert (Room.id (roomOrNew now rid0 st) = rid0
            /\ NoDup (mapKeys (Room.scouts (roomOrNew now rid0 st)))
            /\ forall k scout, (k, scout) ∈ Room.scouts (roomOrNew now rid0 st) ->
                               Peer.id scout = k) as (Hid & Hnd & Hids).
    { unfold roomOrNew. destruct (rooms st !! rid0) as [room|] eqn:Hroom.
      - by apply Hk.
      - simpl. split; [done|]. split; [constructor|].
        intros k scout Hin. by apply elem_of_nil in Hin. }
    rewrite (handler_post now event message rid0 p0 st Hpost Hty).
    pose proof (handleType_room now message p0 (roomOrNew now rid0 st) st)
      as (Hrooms & Hid' & _).
    assert (NoDup (mapKeys (Room.scouts
                      (fst (handleType now message p0 (roomOrNew now rid0 st) st))))
            /\ forall k scout,
                 (k, scout) ∈ Room.scouts
                   (fst (handleType now message p0 (roomOrNew now rid0 st) st)) ->
                 Peer.id scout = k) as [Hnd' Hids'].
    { unfold handleType, pushMessage.
      destruct (type message) as [[]|]; try done;
        destruct (role message) as [[]|]; simpl; try done.
      - split; [by apply mapSet_NoDup|].
        intros k scout [[-> ->] | Hin]%mapSet_elem_of; [done | by apply Hids].
      - split; [by apply mapDelete_NoDup|].
        intros k scout [_ Hin]%list_elem_of_filter. by apply Hids.
      - split; [by apply mapDelete_NoDup|].
        intros k scout [_ Hin]%list_elem_of_filter. by apply Hids. }
    destruct (handleType now message p0 (roomOrNew now rid0 st) st) as [room1 st1].
    simpl in *. intros rid room. simpl. rewrite Hrooms.
    destruct (decide (rid0 = rid)) as [<- | Hne].
    + rewrite lookup_insert_eq. intros [= <-]. split; [congruence | done].
    + rewrite lookup_insert_ne by done. apply Hk.
Qed.

Lemma keyed_sweep now st : keyed st -> keyed (sweep now st).
Proof.
  intros Hk rid room Hroom. simpl in Hroom.
  apply map_lookup_filter_Some in Hroom as [Hroom _]. by apply Hk.
Qed.

Lemma keyed_run steps : forall st, keyed st -> keyed (snd (run steps st)).
Proof.
  induction steps as [|[now event | now] rest IH]; intros st Hk; simpl; [done| |].
  - pose proof (keyed_handler now event st Hk) as Hk1.
    destruct (handler now event st) as [resp st1]. simpl in Hk1.
    pose proof (IH st1 Hk1) as Hk2.
    by destruct (run rest st1) as [log st2].
  - apply IH. by apply keyed_sweep.
Qed.

(** X24.  In every state that the relay reaches from its initial state,
    by requests and sweeps, a room is stored under its own id, the
    scouts of a room are stored under their own peer ids and no peer is
    a scout of the room twice: a scout that joins again is counted
    once. *)
Theorem rooms_and_scouts_keyed (steps : list Step) :
  keyed (snd (run steps initialState)).
Proof.
  apply keyed_run. intros rid room Hl. simpl in Hl. by rewrite lookup_empty in Hl.
Qed.

(** ** Instances *)

Lemma join_kept_until_audience_witness :
  queueOf afterLeadJoin "room" = [0%nat]
  /\ (0%nat ∉ queueOf (snd (handler 1 (pollOf "room" "A") afterLeadJoin)) "room")
  /\ (0%nat ∉ returned (fst (handler 1 (pollOf "room" "A") afterLeadJoin))).
Proof.
  split; [by vm_compute|].
  destruct (join_kept_until_audience 1 (pollOf "room" "A") "room" "A" afterLeadJoin
              leadRoom 0%nat (stored joinOfLead) ∅) as (_ & _ & Hlost).
  - by apply isPoll_pollOf.
  - by vm_compute.
  - apply list_elem_of_here.
  - by vm_compute.
  - reflexivity.
  - reflexivity.
  - destruct (Hlost eq_refl eq_refl) as [Hqueue Hreturned].
    split; [exact Hqueue | by apply Hreturned].
Defined.

Lemma room_lives_until_swept_witness :
  rooms (sweep 1800001
           (snd (run (requests [(1000000, pollOf "room" "A");
                                (1799000, postOf joinOfScout)]) afterLeadJoin)))
    !! "room" = None.
Proof.
  destruct (room_lives_until_swept
              [(1000000, pollOf "room" "A"); (1799000, postOf joinOfScout)]
              afterLeadJoin "room" leadRoom) as [_ Hswept]; [by vm_compute|].
  apply Hswept. by vm_compute.
Defined.

Lemma membership_after_post_witness :
  exists after,
    rooms (snd (handler 5 (postOf leaveAsLead) afterLeadJoin)) !! "room" = Some after
    /\ Room.lead leadRoom = Some {| Peer.id := "A"; Peer.name := "Lead"; Peer.lastSeen := 0 |}
    /\ Room.lead after = None.
Proof.
  destruct (membership_after_post 5 (postOf leaveAsLead) leaveAsLead "room" "B"
              afterLeadJoin) as (after & Hroom & _ & _ & _ & Hleave & _).
  - by apply isPost_postOf.
  - discriminate.
  - exists after. split; [exact Hroom|]. split; [reflexivity|].
    by destruct (Hleave eq_refl eq_refl).
Defined.

Lemma first_delivery_kept_witness :
  0%nat ∈ returned (fst (handler 1 (pollOf "room" "B") afterOffer))
  /\ 0%nat ∈ queueOf (snd (handler 1 (pollOf "room" "B") afterOffer)) "room".
Proof.
  apply (first_delivery_kept 1 (pollOf "room" "B") "room" "B" afterOffer offerRoom
           0%nat (stored offerAtoB)).
  - by apply isPoll_pollOf.
  - by vm_compute.
  - apply list_elem_of_here.
  - by vm_compute.
  - discriminate.
  - reflexivity.
  - split; [discriminate|]. split; [|by right]. unfold delivered. simpl. set_solver.
Defined.

Lemma rooms_and_scouts_keyed_witness :
  keyed (snd (run scoutJoinsTwice initialState))
  /\ queueOf (snd (run scoutJoinsTwice initialState)) "room" = [0%nat; 1%nat; 2%nat]
  /\ (mapKeys <$> (Room.scouts <$> rooms (snd (run scoutJoinsTwice initialState)) !! "room"))
     = Some ["B"].
Proof.
  split; [apply (rooms_and_scouts_keyed scoutJoinsTwice)|]. split; by vm_compute.
Defined.

End RelayRoomFacts.

(* ===================================================================== *)
(** * The polling interval of the signaling client *)
(* ===================================================================== *)

Module SignalingClientFacts.
Import SignalingClient.

Lemma nextInterval_bounds current event :
  BASE_POLL_INTERVAL_MS <= current <= MAX_POLL_INTERVAL_MS ->
  BASE_POLL_INTERVAL_MS <= nextInterval current event <= MAX_POLL_INTERVAL_MS.
Proof.
  unfold nextInterval, timesOneAndAHalf, BASE_POLL_INTERVAL_MS, MAX_POLL_INTERVAL_MS.
  intros Hc. destruct event as [ | | | |[n|]| | ]; simpl; try lia.
  destruct (n >? 0); Z.to_euclidean_division_equations; lia.
Qed.

Lemma fold_bounds events :
  forall current,
    BASE_POLL_INTERVAL_MS <= current <= MAX_POLL_INTERVAL_MS ->
    BASE_POLL_INTERVAL_MS <= fold_left nextInterval events current
    <= MAX_POLL_INTERVAL_MS.
Proof.
  induction events as [|event events IH]; intros current Hc; simpl; [done|].
  by apply IH, nextInterval_bounds.
Qed.

Lemma capped_stays event k :
  event = PollAnswered (Some 0) \/ event = PollFailed ->
  fold_left nextInterval (repeat event k) MAX_POLL_INTERVAL_MS = MAX_POLL_INTERVAL_MS.
Proof.
  intros Hevent. induction k as [|k IH]; simpl; [done|].
  destruct Hevent as [-> | ->]; exact IH.
Qed.

(** X27.  The polling interval of the signaling client stays between two
    and fifteen seconds whatever happens.  A message sent, a poll that
    brings messages, a start and a refresh set it to two seconds; from
    any interval, five polls in a row that bring nothing, or three that
    fail, take it to fifteen seconds, where it stays while polls bring
    nothing or fail. *)
Theorem poll_interval_bounded (events : list ClientEvent) :
  let current := intervalAfter events in
  BASE_POLL_INTERVAL_MS <= current <= MAX_POLL_INTERVAL_MS
  /\ (forall event n,
        event = MessageSent \/ event = PollingStarted \/ event = PollingRefreshed
        \/ (event = PollAnswered (Some n) /\ 0 < n) ->
        intervalAfter (events ++ [event]) = BASE_POLL_INTERVAL_MS)
  /\ (forall k, (5 <= k)%nat ->
        intervalAfter (events ++ repeat (PollAnswered (Some 0)) k) = MAX_POLL_INTERVAL_MS)
  /\ (forall k, (3 <= k)%nat ->
        intervalAfter (events ++ repeat PollFailed k) = MAX_POLL_INTERVAL_MS)
  /\ intervalAfter (repeat (PollAnswered (Some 0)) 4) = 10125.
Proof.
  intros current.
  assert (BASE_POLL_INTERVAL_MS <= current <= MAX_POLL_INTERVAL_MS) as Hc.
  { apply fold_bounds. unfold BASE_POLL_INTERVAL_MS, MAX_POLL_INTERVAL_MS. lia. }
  split; [exact Hc|]. split; [|split; [|split; [|done]]].
  - intros event n Hevent. unfold intervalAfter. rewrite fold_left_app. simpl.
    destruct Hevent as [-> | [-> | [-> | [-> Hn]]]]; try done.
    simpl. apply Z.gtb_lt in Hn. by rewrite Hn.
  - intros k Hk. unfold intervalAfter. rewrite fold_left_app. fold (intervalAfter events).
    fold current. replace k with (5 + (k - 5))%nat by lia.
    rewrite repeat_app, fold_left_app. simpl fold_left at 2.
    match goal with
    | |- fold_left _ _ ?c = _ =>
        assert (c = MAX_POLL_INTERVAL_MS) as ->
          by (unfold timesOneAndAHalf, BASE_POLL_INTERVAL_MS, MAX_POLL_INTERVAL_MS in *;
              Z.to_euclidean_division_equations; lia)
    end.
    apply capped_stays. by left.
  - intros k Hk. unfold intervalAfter. rewrite fold_left_app. fold (intervalAfter events).
    fold current. replace k with (3 + (k - 3))%nat by lia.
    rewrite repeat_app, fold_left_app. simpl fold_left at 2.
    match goal with
    | |- fold_left _ _ ?c = _ =>
        assert (c = MAX_POLL_INTERVAL_MS) as ->
          by (unfold BASE_POLL_INTERVAL_MS, MAX_POLL_INTERVAL_MS in *; lia)
    end.
    apply capped_stays. by right.
Qed.

End SignalingClientFacts.
